(** * gnomod: manifest reader, editor and [mod why] report

    A shallow embedding of [gnovm/pkg/gnomod/read.go] (lexer, parser,
    comment assignment, [ModulePath], [parseVersion], [addLine],
    [addReplace]) and of the [mod why] helpers of the command layer,
    with the properties the specification states about them.

    Conventions.
    - A Go [string] is a [string]; a [[]byte] is a [list ascii].
    - A Go [int] is a [Z] when it holds a rune or a token kind, and a
      [nat] when it is a length, an index or a position (these never go
      negative in the source, and a document never reaches 2^63 bytes).
    - Functions of the Go standard library and of [golang.org/x/mod]
      are modelled after their documentation when they are small
      ([utf8.DecodeRune], [bytes.TrimSpace], ...); the large ones (the
      Unicode print tables, [strconv.Quote]/[Unquote],
      [module.CanonicalVersion]) are fields of the class [GoLib]. *)

From Stdlib Require Import ZArith Lia Bool Ascii String.
From stdpp Require Import base option list strings gmap.


(** ** Library functions taken as parameters *)

Class GoLib := {
  (** [unicode.In(r, unicode.PrintRanges...)], consulted by
      [unicode.IsPrint] for runes above Latin-1 only. *)
  unicode_PrintRanges : Z -> bool;
  (** [strconv.Unquote]; [None] stands for a non-nil error. *)
  strconv_Unquote : string -> option string;
  (** [strconv.Quote]. *)
  strconv_Quote : string -> string;
  (** [module.CanonicalVersion]; the empty string marks an invalid version. *)
  module_CanonicalVersion : string -> string
}.

(** An interpretation used to run the model on plain ASCII documents:
    no printable rune above Latin-1, quoting without escapes, and the
    three-number versions [vN.N.N] as the canonical ones. *)
Definition is_digit (c : ascii) : bool :=
  (48 <=? nat_of_ascii c)%nat && (nat_of_ascii c <=? 57)%nat.

Fixpoint digits_then (k : list ascii -> bool) (seen : bool) (s : list ascii) : bool :=
  match s with
  | [] => seen && k []
  | c :: s' => if is_digit c then digits_then k true s' else seen && k s
  end.

Definition simple_version (s : string) : bool :=
  match list_ascii_of_string s with
  | "v"%char :: s1 =>
      digits_then (fun r1 => match r1 with
        | "."%char :: s2 => digits_then (fun r2 => match r2 with
            | "."%char :: s3 => digits_then (fun r3 => match r3 with [] => true | _ => false end) false s3
            | _ => false end) false s2
        | _ => false end) false s1
  | _ => false
  end.

Definition simple_unquote (s : string) : option string :=
  match list_ascii_of_string s with
  | q :: body =>
      match reverse body with
      | q' :: ydob =>
          if bool_decide (q = q') && bool_decide (q = "034"%char \/ q = "`"%char)
             && forallb (fun c => negb (bool_decide (c = q)) && negb (bool_decide (c = "\"%char))) ydob
          then Some (string_of_list_ascii (reverse ydob)) else None
      | [] => None
      end
  | [] => None
  end.

Definition asciiLib : GoLib := {|
  unicode_PrintRanges := fun _ => false;
  strconv_Unquote := simple_unquote;
  strconv_Quote := fun s => String "034"%char (s +:+ String "034"%char EmptyString);
  module_CanonicalVersion := fun s => if simple_version s then s else ""
|}.

(** ** Bytes, runes and the [unicode], [utf8] and [bytes] helpers *)

Module Bytes.

(** The numeric value of a byte. *)
Definition bval (b : ascii) : Z := Z.of_N (N_of_ascii b).

(** [[]byte(s)] and [string(b)]. *)
Definition bytes (s : string) : list ascii := list_ascii_of_string s.
Definition str (b : list ascii) : string := string_of_list_ascii b.

Definition RuneError : Z := 65533.

Definition between (lo hi : Z) (b : ascii) : bool :=
  (lo <=? bval b)%Z && (bval b <=? hi)%Z.

(** [utf8.DecodeRune]: the first rune of [p] and its width in bytes;
    [(RuneError, 0)] on empty input and [(RuneError, 1)] on an invalid
    or truncated encoding.  With the leading byte [x] and the
    continuation bytes in their accepted ranges, masking and shifting
    ([x&0x1F<<6 | b1&0x3F], ...) is the arithmetic written here. *)
Definition DecodeRune (p : list ascii) : Z * nat :=
  match p with
  | [] => (RuneError, 0)
  | b0 :: p1 =>
      let x := bval b0 in
      if (x <? 128)%Z then (x, 1)
      else if (194 <=? x)%Z && (x <=? 223)%Z then
        match p1 with
        | b1 :: _ =>
            if between 128 191 b1
            then (((x - 192) * 64 + (bval b1 - 128))%Z, 2)
            else (RuneError, 1)
        | _ => (RuneError, 1)
        end
      else if (224 <=? x)%Z && (x <=? 239)%Z then
        let lo := if (x =? 224)%Z then 160%Z else 128%Z in
        let hi := if (x =? 237)%Z then 159%Z else 191%Z in
        match p1 with
        | b1 :: b2 :: _ =>
            if between lo hi b1 && between 128 191 b2
            then (((x - 224) * 4096 + (bval b1 - 128) * 64 + (bval b2 - 128))%Z, 3)
            else (RuneError, 1)
        | _ => (RuneError, 1)
        end
      else if (240 <=? x)%Z && (x <=? 244)%Z then
        let lo := if (x =? 240)%Z then 144%Z else 128%Z in
        let hi := if (x =? 244)%Z then 143%Z else 191%Z in
        match p1 with
        | b1 :: b2 :: b3 :: _ =>
            if between lo hi b1 && between 128 191 b2 && between 128 191 b3
            then (((x - 240) * 262144 + (bval b1 - 128) * 4096
                   + (bval b2 - 128) * 64 + (bval b3 - 128))%Z, 4)
            else (RuneError, 1)
        | _ => (RuneError, 1)
        end
      else (RuneError, 1)
  end.

(** [utf8.RuneStart]. *)
Definition RuneStart (b : ascii) : bool := negb (Z.land (bval b) 192 =? 128)%Z.

(** [utf8.DecodeLastRune]: walks back at most [utf8.UTFMax] bytes to a
    rune start and decodes from there. *)
Fixpoint back_to_start (p : list ascii) (start lim : nat) (k : nat) : option nat :=
  match k with
  | 0 => None
  | S k =>
      if (lim <=? start)%nat then
        match p !! start with
        | Some b => if RuneStart b then Some start
                    else match start with 0 => None | S s' => back_to_start p s' lim k end
        | None => None
        end
      else None
  end.

Definition DecodeLastRune (p : list ascii) : Z * nat :=
  match length p with
  | 0 => (RuneError, 0)
  | S last =>
      match p !! last with
      | Some b =>
          if (bval b <? 128)%Z then (bval b, 1)
          else
            let lim := length p - 4 in
            let start :=
              match last with
              | 0 => 0
              | S s' => match back_to_start p s' lim 4 with
                        | Some s => s
                        | None => lim - 1
                        end
              end in
            let '(r, size) := DecodeRune (drop start p) in
            if (start + size =? length p)%nat then (r, size) else (RuneError, 1)
      | None => (RuneError, 0)
      end
  end.

(** [unicode.IsSpace]. *)
Definition unicode_IsSpace (r : Z) : bool :=
  if (0 <=? r)%Z && (r <=? 255)%Z then
    ((9 <=? r)%Z && (r <=? 13)%Z) || (r =? 32)%Z || (r =? 133)%Z || (r =? 160)%Z
  else
    (r =? 5760)%Z || ((8192 <=? r)%Z && (r <=? 8202)%Z) || (r =? 8232)%Z || (r =? 8233)%Z
    || (r =? 8239)%Z || (r =? 8287)%Z || (r =? 12288)%Z.

(** [unicode.IsPrint]: the Latin-1 property table, then the print ranges. *)
Definition unicode_IsPrint `{GoLib} (r : Z) : bool :=
  if (0 <=? r)%Z && (r <=? 255)%Z then
    ((32 <=? r)%Z && (r <=? 126)%Z) || ((161 <=? r)%Z && (r <=? 255)%Z && negb (r =? 173)%Z)
  else unicode_PrintRanges r.

(** [bytes.HasPrefix]. *)
Fixpoint HasPrefix (s prefix : list ascii) : bool :=
  match prefix, s with
  | [], _ => true
  | _ :: _, [] => false
  | p :: prefix', c :: s' => bool_decide (c = p) && HasPrefix s' prefix'
  end.

(** [bytes.IndexByte]; [None] for -1. *)
Fixpoint IndexByte (b : list ascii) (c : ascii) : option nat :=
  match b with
  | [] => None
  | x :: b' => if bool_decide (x = c) then Some 0 else S <$> IndexByte b' c
  end.

(** [bytes.Index]; [None] for -1. *)
Fixpoint Index (s sep : list ascii) : option nat :=
  match s with
  | [] => if HasPrefix [] sep then Some 0 else None
  | _ :: s' => if HasPrefix s sep then Some 0 else S <$> Index s' sep
  end.

(** [bytes.LastIndex]; [None] for -1. *)
Fixpoint LastIndex (s sep : list ascii) : option nat :=
  match s with
  | [] => if HasPrefix [] sep then Some 0 else None
  | _ :: s' =>
      match LastIndex s' sep with
      | Some i => Some (S i)
      | None => if HasPrefix s sep then Some 0 else None
      end
  end.

(** [bytes.TrimLeftFunc(s, unicode.IsSpace)]. *)
Fixpoint trimLeft (fuel : nat) (s : list ascii) : list ascii :=
  match fuel with
  | 0 => s
  | S fuel =>
      match s with
      | [] => []
      | _ :: _ =>
          let '(r, size) := DecodeRune s in
          if unicode_IsSpace r then trimLeft fuel (drop size s) else s
      end
  end.

(** [bytes.TrimRightFunc(s, unicode.IsSpace)]. *)
Fixpoint trimRight (fuel : nat) (s : list ascii) : list ascii :=
  match fuel with
  | 0 => s
  | S fuel =>
      match s with
      | [] => []
      | _ :: _ =>
          let '(r, size) := DecodeLastRune s in
          if unicode_IsSpace r then trimRight fuel (take (length s - size) s) else s
      end
  end.

(** [bytes.TrimSpace]: all leading and trailing white space, as defined
    by Unicode, sliced off. *)
Definition TrimSpace (s : list ascii) : list ascii :=
  let s1 := trimLeft (length s) s in trimRight (length s1) s1.

End Bytes.
Export Bytes.

(** ** [ModulePath] *)

Module ModPath.
Section WithLib.
Context `{GoLib}.

Definition nl : ascii := "010"%char.
Definition dquote : ascii := "034"%char.
Definition bquote : ascii := "`"%char.

Definition slashSlash : list ascii := bytes "//".
Definition moduleStr : list ascii := bytes "module".

(** The [for len(mod) > 0] loop of [ModulePath]; each turn cuts the
    first line off [mod].  [None] is the exhausted fuel. *)
Fixpoint ModulePath_loop (fuel : nat) (md : list ascii) : option string :=
  match fuel with
  | 0 => None
  | S fuel =>
      if (length md =? 0)%nat then Some "" (* missing module path *)
      else
        let '(line, md) :=
          match IndexByte md nl with
          | Some i => (take i md, drop (i + 1) md)
          | None => (md, [])
          end in
        let line :=
          match Index line slashSlash with
          | Some i => take i line
          | None => line
          end in
        let line := TrimSpace line in
        if negb (HasPrefix line moduleStr) then ModulePath_loop fuel md
        else
          let line := drop (length moduleStr) line in
          let n := length line in
          let line := TrimSpace line in
          if (length line =? n)%nat || (length line =? 0)%nat then ModulePath_loop fuel md
          else
            match line with
            | c :: _ =>
                if bool_decide (c = dquote) || bool_decide (c = bquote) then
                  match strconv_Unquote (str line) with
                  | None => Some "" (* malformed quoted string or multiline module path *)
                  | Some p => Some p
                  end
                else Some (str line)
            | [] => Some (str line)
            end
  end.

(** [ModulePath(mod)]. *)
Definition ModulePath (md : list ascii) : option string :=
  ModulePath_loop (S (length md)) md.

(** *** The description the claim gives, line by line *)

(** The lines of a document: the segments closed by a newline, and the
    rest after the last newline when it is not empty. *)
Fixpoint lines_acc (cur : list ascii) (md : list ascii) : list (list ascii) :=
  match md with
  | [] => match cur with [] => [] | _ => [reverse cur] end
  | c :: md' =>
      if bool_decide (c = nl) then reverse cur :: lines_acc [] md'
      else lines_acc (c :: cur) md'
  end.

Definition lines (md : list ascii) : list (list ascii) := lines_acc [] md.

(** A line with its [//] comment and the surrounding white space removed. *)
Definition bare (line : list ascii) : list ascii :=
  TrimSpace (match Index line slashSlash with Some i => take i line | None => line end).

(** [module_arg line = Some a]: the line begins with the word [module],
    then white space, then the non-empty argument [a]. *)
Definition module_arg (line : list ascii) : option (list ascii) :=
  let l := bare line in
  if HasPrefix l moduleStr then
    let rest := drop (length moduleStr) l in
    let a := TrimSpace rest in
    if (length a <? length rest)%nat && (0 <? length a)%nat then Some a else None
  else None.

Definition quoted (a : list ascii) : bool :=
  match a with
  | c :: _ => bool_decide (c = dquote) || bool_decide (c = bquote)
  | [] => false
  end.

(** The value of an argument: unquoted when it is quoted, empty when
    the quoted form is malformed. *)
Definition arg_value (a : list ascii) : string :=
  if quoted a then default "" (strconv_Unquote (str a)) else str a.

(** The first line that is a module line, if any. *)
Fixpoint first_module_arg (ls : list (list ascii)) : option (list ascii) :=
  match ls with
  | [] => None
  | l :: ls' => match module_arg l with Some a => Some a | None => first_module_arg ls' end
  end.

Definition described (md : list ascii) : string :=
  match first_module_arg (lines md) with
  | Some a => arg_value a
  | None => ""
  end.

End WithLib.
End ModPath.

(** ** The syntax tree of [golang.org/x/mod/modfile] *)

Module Syntax.

(** [modfile.Position]. *)
Record Position := mkPos { pos_Line : nat; pos_LineRune : nat; pos_Byte : nat }.

Definition zeroPos : Position := mkPos 0 0 0.

(** [modfile.Comment]. *)
Record Comment := mkComment {
  com_Start : Position;
  com_Token : string;  (* without trailing newline *)
  com_Suffix : bool    (* an end of line (not whole line) comment *)
}.

(** The zero value [modfile.Comment{}], used to keep a blank line. *)
Definition emptyComment : Comment := mkComment zeroPos "" false.

(** [modfile.Comments]. *)
Record Comments := mkComments {
  Before : list Comment;
  Suffix : list Comment;
  After : list Comment
}.

Definition noComments : Comments := mkComments [] [] [].

Definition set_Before (v : list Comment) (c : Comments) : Comments :=
  mkComments v (Suffix c) (After c).
Definition set_Suffix (v : list Comment) (c : Comments) : Comments :=
  mkComments (Before c) v (After c).
Definition set_After (v : list Comment) (c : Comments) : Comments :=
  mkComments (Before c) (Suffix c) v.

(** [modfile.Line]. *)
Record Line := mkLine {
  line_Comments : Comments;
  line_Start : Position;
  line_Token : list string;
  line_InBlock : bool;
  line_End : Position
}.

(** [modfile.LParen] and [modfile.RParen]. *)
Record LParen := mkLParen { lp_Comments : Comments; lp_Pos : Position }.
Record RParen := mkRParen { rp_Comments : Comments; rp_Pos : Position }.

(** [modfile.LineBlock]. *)
Record LineBlock := mkLineBlock {
  blk_Comments : Comments;
  blk_Start : Position;
  blk_LParen : LParen;
  blk_Token : list string;
  blk_Line : list Line;
  blk_RParen : RParen
}.

(** [modfile.CommentBlock]. *)
Record CommentBlock := mkCommentBlock { cb_Comments : Comments; cb_Start : Position }.

(** The statements of a file: [modfile.Expr] restricted to what
    [FileSyntax.Stmt] holds. *)
Inductive Expr :=
  | ELine (l : Line)
  | ELineBlock (b : LineBlock)
  | ECommentBlock (c : CommentBlock).

(** [modfile.FileSyntax]. *)
Record FileSyntax := mkFile {
  fs_Name : string;
  fs_Comments : Comments;
  fs_Stmt : list Expr
}.

Definition line_set_Comments (c : Comments) (l : Line) : Line :=
  mkLine c (line_Start l) (line_Token l) (line_InBlock l) (line_End l).
Definition lp_set_Comments (c : Comments) (p : LParen) : LParen := mkLParen c (lp_Pos p).
Definition rp_set_Comments (c : Comments) (p : RParen) : RParen := mkRParen c (rp_Pos p).
Definition blk_set_Comments (c : Comments) (b : LineBlock) : LineBlock :=
  mkLineBlock c (blk_Start b) (blk_LParen b) (blk_Token b) (blk_Line b) (blk_RParen b).
Definition blk_set_LParen (p : LParen) (b : LineBlock) : LineBlock :=
  mkLineBlock (blk_Comments b) (blk_Start b) p (blk_Token b) (blk_Line b) (blk_RParen b).
Definition blk_set_Line (ls : list Line) (b : LineBlock) : LineBlock :=
  mkLineBlock (blk_Comments b) (blk_Start b) (blk_LParen b) (blk_Token b) ls (blk_RParen b).
Definition blk_set_RParen (p : RParen) (b : LineBlock) : LineBlock :=
  mkLineBlock (blk_Comments b) (blk_Start b) (blk_LParen b) (blk_Token b) (blk_Line b) p.
Definition cb_set_Comments (c : Comments) (b : CommentBlock) : CommentBlock :=
  mkCommentBlock c (cb_Start b).
Definition fs_set_Comments (c : Comments) (f : FileSyntax) : FileSyntax :=
  mkFile (fs_Name f) c (fs_Stmt f).
Definition fs_set_Stmt (v : list Expr) (f : FileSyntax) : FileSyntax :=
  mkFile (fs_Name f) (fs_Comments f) v.
Definition fs_set_Name (v : string) (f : FileSyntax) : FileSyntax :=
  mkFile v (fs_Comments f) (fs_Stmt f).

(** [Expr.Comment()] on a statement, and its update. *)
Definition expr_Comments (e : Expr) : Comments :=
  match e with
  | ELine l => line_Comments l
  | ELineBlock b => blk_Comments b
  | ECommentBlock c => cb_Comments c
  end.

Definition expr_set_Comments (c : Comments) (e : Expr) : Expr :=
  match e with
  | ELine l => ELine (line_set_Comments c l)
  | ELineBlock b => ELineBlock (blk_set_Comments c b)
  | ECommentBlock b => ECommentBlock (cb_set_Comments c b)
  end.

(** [Position.add(")")]: the position one byte and one rune further. *)
Definition pos_add_paren (p : Position) : Position :=
  mkPos (pos_Line p) (pos_LineRune p + 1) (pos_Byte p + 1).

(** [Expr.Span()] on a statement. *)
Definition expr_Span (e : Expr) : Position * Position :=
  match e with
  | ELine l => (line_Start l, line_End l)
  | ELineBlock b => (blk_Start b, pos_add_paren (rp_Pos (blk_RParen b)))
  | ECommentBlock c => (cb_Start c, cb_Start c)
  end.

(** [FileSyntax.Span()]. *)
Definition fs_Span (f : FileSyntax) : Position * Position :=
  match fs_Stmt f with
  | [] => (zeroPos, zeroPos)
  | e :: _ => (fst (expr_Span e), snd (expr_Span (List.last (fs_Stmt f) e)))
  end.

(** A message built by [fmt.Sprintf] or [fmt.Errorf] is kept as the
    format with its arguments. *)
Inductive fmtarg := ArgStr (s : string) | ArgInt (z : Z).

(** Go error values. *)
Inductive goerr :=
  | errors_New (s : string)
  | fmt_Errorf (format : string) (args : list fmtarg)
  | strconv_ErrSyntax
  | InvalidVersionError (Version : string) (Err : goerr)
  | modfile_Error (Filename : string) (Pos : Position) (ModPath Verb : string) (Err : goerr).

End Syntax.
Export Syntax.

(** ** The lexer and the parser *)

Module Reader.

(** [tokenKind]: an [int]; the named kinds are negative, newlines and
    punctuation tokens stand as their ASCII codes. *)
Definition _EOF : Z := (-1)%Z.
Definition _EOLCOMMENT : Z := (-2)%Z.
Definition _IDENT : Z := (-3)%Z.
Definition _STRING : Z := (-4)%Z.
Definition _COMMENT : Z := (-5)%Z.

Definition rune (c : ascii) : Z := bval c.

Definition isComment (k : Z) : bool := (k =? _COMMENT)%Z || (k =? _EOLCOMMENT)%Z.

(** [isEOL] returns whether a token terminates a line. *)
Definition isEOL (k : Z) : bool :=
  (k =? _EOF)%Z || (k =? _EOLCOMMENT)%Z || (k =? rune "010")%Z.

Record token := mkToken {
  tok_kind : Z;
  tok_pos : Position;
  tok_endPos : Position;
  tok_text : string
}.

Definition zeroToken : token := mkToken 0 zeroPos zeroPos "".

(** An [input] represents a single input file being parsed.  The lists
    [pre] and [post] of the source are written by [order] and read by
    [assignComments] only; they are values of these two functions
    below. *)
Record input := mkInput {
  filename : string;            (* name of input file, for errors *)
  complete : list ascii;        (* entire input *)
  remaining : list ascii;       (* remaining input *)
  tokenStart : list ascii;      (* token being scanned to end of input *)
  token_ : token;               (* next token to be returned by lex, peek *)
  pos : Position;               (* current input position *)
  comments : list Comment;      (* accumulated comments *)
  file : FileSyntax;            (* returned top-level syntax tree *)
  parseErrors : list goerr      (* errors encountered during parsing *)
}.

Definition set_remaining (v : list ascii) (s : input) : input :=
  mkInput (filename s) (complete s) v (tokenStart s) (token_ s) (pos s)
          (comments s) (file s) (parseErrors s).
Definition set_tokenStart (v : list ascii) (s : input) : input :=
  mkInput (filename s) (complete s) (remaining s) v (token_ s) (pos s)
          (comments s) (file s) (parseErrors s).
Definition set_token (v : token) (s : input) : input :=
  mkInput (filename s) (complete s) (remaining s) (tokenStart s) v (pos s)
          (comments s) (file s) (parseErrors s).
Definition set_pos (v : Position) (s : input) : input :=
  mkInput (filename s) (complete s) (remaining s) (tokenStart s) (token_ s) v
          (comments s) (file s) (parseErrors s).
Definition set_comments (v : list Comment) (s : input) : input :=
  mkInput (filename s) (complete s) (remaining s) (tokenStart s) (token_ s) (pos s)
          v (file s) (parseErrors s).
Definition set_file (v : FileSyntax) (s : input) : input :=
  mkInput (filename s) (complete s) (remaining s) (tokenStart s) (token_ s) (pos s)
          (comments s) v (parseErrors s).
Definition set_parseErrors (v : list goerr) (s : input) : input :=
  mkInput (filename s) (complete s) (remaining s) (tokenStart s) (token_ s) (pos s)
          (comments s) (file s) v.

Definition newInput (filename : string) (data : list ascii) : input :=
  mkInput filename data data [] zeroToken (mkPos 1 1 0) [] (mkFile "" noComments []) [].

(** *** Computations over an [input]

    [Ok a s]: the call returned [a] and left the input as [s].
    [Panic s]: the call panicked; [s] holds the error list at that
    moment.  [Fuel]: a loop of the model ran out of turns (shown below
    never to happen). *)
Inductive result (A : Type) :=
  | Ok (a : A) (s : input)
  | Panic (s : input)
  | Fuel.
Arguments Ok {A} a s.
Arguments Panic {A} s.
Arguments Fuel {A}.

Definition M (A : Type) : Type := input -> result A.

Definition ret {A} (a : A) : M A := fun s => Ok a s.

Definition bind {A B} (m : M A) (k : A -> M B) : M B :=
  fun s => match m s with
           | Ok a s' => k a s'
           | Panic s' => Panic s'
           | Fuel => Fuel
           end.

Notation "'do' x <- m ; k" := (bind m (fun x => k))
  (at level 10, x name, m at level 100, k at level 200,
   format "'[v' 'do'  x  <-  m ; '/' k ']'").
Notation "'do' ' p <- m ; k" := (bind m (fun x => match x with p => k end))
  (at level 10, p pattern, m at level 100, k at level 200).
Notation "'run' m ; k" := (bind m (fun _ => k))
  (at level 10, m at level 100, k at level 200,
   format "'[v' 'run'  m ; '/' k ']'").

Definition gets {A} (f : input -> A) : M A := fun s => Ok (f s) s.
Definition modify (f : input -> input) : M unit := fun s => Ok tt (f s).

(** A Go [for] loop: [body] answers [inl a'] to go round again with the
    loop variables [a'] and [inr b] to leave the loop with [b]. *)
Fixpoint loop {A B} (fuel : nat) (body : A -> M (A + B)) (a : A) : M B :=
  fun s =>
    match fuel with
    | 0 => Fuel
    | S fuel =>
        match body a s with
        | Ok (inl a') s' => loop fuel body a' s'
        | Ok (inr b) s' => Ok b s'
        | Panic s' => Panic s'
        | Fuel => Fuel
        end
    end.

(** Loops of the lexer consume input on every turn. *)
Definition loop_bytes {A B} (body : A -> M (A + B)) (a : A) : M B :=
  fun s => loop (S (length (remaining s))) body a s.

(** Loops of the parser consume a token on every turn: what is left is
    the pending token, unless it is the end of file, and the input
    behind it. *)
Definition pending (s : input) : nat :=
  length (remaining s) + (if (tok_kind (token_ s) =? _EOF)%Z then 0 else 1).

Definition loop_tokens {A B} (body : A -> M (A + B)) (a : A) : M B :=
  fun s => loop (S (pending s)) body a s.

(** [in.Error(s)]: records the error and panics with [&in.parseErrors]. *)
Definition Error {A} (e : goerr) : M A :=
  fun s => Panic (set_parseErrors
                    (parseErrors s ++ [modfile_Error (filename s) (pos s) "" "" e]) s).

(** A run-time panic (an index out of range).  The handler deferred in
    [parse] appends it to [in.parseErrors] as an internal error, at the
    position the input then has; the model appends it at once. *)
Definition runtime_panic {A} (what : string) : M A :=
  Error (fmt_Errorf "internal error: %v" [ArgStr what]).

Section WithLib.
Context `{GoLib}.

(** [eof] reports whether the input has reached end of file. *)
Definition eof (s : input) : bool := (length (remaining s) =? 0)%nat.

(** [peekRune] returns the next rune in the input without consuming it. *)
Definition peekRune (s : input) : Z :=
  if (length (remaining s) =? 0)%nat then 0%Z else fst (DecodeRune (remaining s)).

(** [peekPrefix] reports whether the remaining input begins with the
    given prefix. *)
Definition peekPrefix (prefix : string) (s : input) : bool :=
  HasPrefix (remaining s) (bytes prefix).

(** [readRune] consumes and returns the next rune in the input. *)
Definition readRune : M Z :=
  fun s =>
    if (length (remaining s) =? 0)%nat
    then Error (errors_New "internal lexer error: readRune at EOF") s
    else
      let '(r, size) := DecodeRune (remaining s) in
      let p := pos s in
      let p' := if (r =? rune "010")%Z
                then mkPos (pos_Line p + 1) 1 (pos_Byte p + size)
                else mkPos (pos_Line p) (pos_LineRune p + 1) (pos_Byte p + size) in
      Ok r (set_pos p' (set_remaining (drop size (remaining s)) s)).

(** [startToken] marks the beginning of the next input token. *)
Definition startToken : M unit :=
  modify (fun s =>
    set_token (mkToken (tok_kind (token_ s)) (pos s) (tok_endPos (token_ s)) "")
              (set_tokenStart (remaining s) s)).

Definition HasSuffix (s suffix : list ascii) : bool :=
  HasPrefix (reverse s) (reverse suffix).

(** [strings.TrimSuffix]. *)
Definition TrimSuffix (s suffix : list ascii) : list ascii :=
  if HasSuffix s suffix then take (length s - length suffix) s else s.

(** The text [endToken] records for the scanned bytes. *)
Definition tokenText (kind : Z) (text : list ascii) : string :=
  str (if isComment kind then
         if HasSuffix text ["013"%char; "010"%char] then take (length text - 2) text
         else TrimSuffix text ["010"%char]
       else text).

(** [endToken] marks the end of an input token.  It records the actual
    token string in [tok.text].  A single trailing newline (LF or CRLF)
    is removed from comment tokens. *)
Definition endToken (kind : Z) : M unit :=
  modify (fun s =>
    let text := take (length (tokenStart s) - length (remaining s)) (tokenStart s) in
    set_token (mkToken kind (tok_pos (token_ s)) (pos s) (tokenText kind text)) s).

(** [isIdent] reports whether [c] is an identifier rune.  (The source
    converts its [int] argument to a [rune]; the argument always comes
    from [peekRune], so the conversion changes nothing.) *)
Definition isIdent (c : Z) : bool :=
  if (c =? rune " ")%Z || (c =? rune "(")%Z || (c =? rune ")")%Z || (c =? rune "[")%Z
     || (c =? rune "]")%Z || (c =? rune "{")%Z || (c =? rune "}")%Z || (c =? rune ",")%Z
  then false
  else negb (unicode_IsSpace c) && unicode_IsPrint c.

(** The runes that are tokens of their own. *)
Definition isPunct (c : Z) : bool :=
  (c =? rune "010")%Z || (c =? rune "(")%Z || (c =? rune ")")%Z || (c =? rune "[")%Z
  || (c =? rune "]")%Z || (c =? rune "{")%Z || (c =? rune "}")%Z || (c =? rune ",")%Z.

Definition blockCommentMsg : goerr :=
  errors_New "mod files must use // comments (not /* */ comments)".

(** The loop [for len(in.remaining) > 0 && in.readRune() != '\n' {}]. *)
Definition restOfLine_body (_ : unit) : M (unit + unit) :=
  do more <- gets (fun s => (0 <? length (remaining s))%nat);
  if more then
    do c <- readRune;
    if (c =? rune "010")%Z then ret (inr tt) else ret (inl tt)
  else ret (inr tt).

(** The branch of [readToken] that reads a [//] comment to the end of
    its line. *)
Definition readComment : M unit :=
  run startToken;
  (* Is this comment the only thing on its line? *)
  do suffix <- gets (fun s =>
    let before := take (pos_Byte (pos s)) (complete s) in
    let from := match LastIndex before ["010"%char] with
                | Some i => i + 1
                | None => 0
                end in
    (0 <? length (TrimSpace (drop from before)))%nat);
  run readRune;
  run readRune;
  (* Consume comment. *)
  run loop_bytes restOfLine_body tt;
  if negb suffix then endToken _COMMENT
  else
    run endToken _EOLCOMMENT;
    modify (fun s =>
      set_comments
        (comments s ++ [mkComment (tok_pos (token_ s)) (tok_text (token_ s)) suffix]) s).

(** The first loop of [readToken]: skip past spaces, stopping at
    non-space or EOF.  It answers [true] when it read a comment token
    ([readToken] then returns) and [false] when it stopped before the
    next token. *)
Definition skipSpace_body (_ : unit) : M (unit + bool) :=
  do e <- gets eof;
  if e then ret (inr false)
  else
    do c <- gets peekRune;
    if (c =? rune " ")%Z || (c =? rune "009")%Z || (c =? rune "013")%Z then
      run readRune; ret (inl tt)
    else
      do isc <- gets (peekPrefix "//");
      if isc then run readComment; ret (inr true)
      else
        do isb <- gets (peekPrefix "/*");
        if isb then Error blockCommentMsg
        else ret (inr false).

Definition eofInString : M unit :=
  run modify (fun s => set_pos (tok_pos (token_ s)) s);
  Error (errors_New "unexpected EOF in string").

(** The loop that reads a quoted string up to its closing quote. *)
Definition readString_body (quote : Z) (_ : unit) : M (unit + unit) :=
  do e <- gets eof;
  run (if e then eofInString else ret tt);
  do c <- gets peekRune;
  run (if (c =? rune "010")%Z
       then Error (errors_New "unexpected newline in string") else ret tt);
  do c <- readRune;
  if (c =? quote)%Z then ret (inr tt)
  else if (c =? rune "\")%Z && negb (quote =? rune "`")%Z then
    do e <- gets eof;
    run (if e then eofInString else ret tt);
    run readRune;
    ret (inl tt)
  else ret (inl tt).

(** The loop that scans over an identifier. *)
Definition readIdent_body (_ : unit) : M (unit + unit) :=
  do c <- gets peekRune;
  if negb (isIdent c) then ret (inr tt)
  else
    do isc <- gets (peekPrefix "//");
    if isc then ret (inr tt)
    else
      do isb <- gets (peekPrefix "/*");
      run (if isb then Error blockCommentMsg else ret tt);
      run readRune;
      ret (inl tt).

(** [readToken] lexes the next token from the text and stores it in
    [in.token]. *)
Definition readToken : M unit :=
  do returned <- loop_bytes skipSpace_body tt;
  if returned : bool then ret tt
  else
    (* Found the beginning of the next token. *)
    run startToken;
    do e <- gets eof;
    if e then endToken _EOF
    else
      do c <- gets peekRune;
      if isPunct c then
        run readRune; endToken c
      else if (c =? rune "034")%Z || (c =? rune "`")%Z then
        run readRune;
        run loop_bytes (readString_body c) tt;
        endToken _STRING
      else
        (* Checked all punctuation.  Must be identifier token. *)
        run (if negb (isIdent c)
             then Error (fmt_Errorf "unexpected input character %#q" [ArgInt c])
             else ret tt);
        run loop_bytes readIdent_body tt;
        endToken _IDENT.

(** [peek] returns the kind of the next token returned by [lex]. *)
Definition peek (s : input) : Z := tok_kind (token_ s).

(** [lex] is called from the parser to obtain the next input token. *)
Definition lex : M token :=
  do tok <- gets token_;
  run readToken;
  ret tok.

(** *** The parser *)

(** [in.file.Stmt = append(in.file.Stmt, e)]. *)
Definition appendStmt (e : Expr) : M unit :=
  modify (fun s => set_file (fs_set_Stmt (fs_Stmt (file s) ++ [e]) (file s)) s).

Definition parseLine_body (start : Position) (st : Position * list string)
  : M (Position * list string + Line) :=
  let '(end_, tokens) := st in
  do tok <- lex;
  if isEOL (tok_kind tok) then ret (inr (mkLine noComments start tokens true end_))
  else ret (inl (tok_endPos tok, tokens ++ [tok_text tok])).

Definition parseLine : M Line :=
  do tok <- lex;
  run (if isEOL (tok_kind tok)
       then Error (errors_New "internal parse error: parseLine at end of line")
       else ret tt);
  loop_tokens (parseLine_body (tok_pos tok)) (tok_endPos tok, [tok_text tok]).

(** The test that decides whether a blank line of a block is kept. *)
Definition keepsBlankLine (x : LineBlock) (comments : list Comment) : bool :=
  ((length comments =? 0)%nat && (0 <? length (blk_Line x))%nat)
  || ((0 <? length comments)%nat
      && match last comments with
         | Some c => negb (String.eqb (com_Token c) "")
         | None => false
         end).

Definition parseLineBlock_body (st : LineBlock * list Comment)
  : M (LineBlock * list Comment + LineBlock) :=
  let '(x, comments) := st in
  do k <- gets peek;
  if (k =? _EOLCOMMENT)%Z then
    (* Suffix comment, will be attached later by assignComments. *)
    run lex; ret (inl (x, comments))
  else if (k =? rune "010")%Z then
    (* Blank line.  Add an empty comment to preserve it. *)
    run lex;
    if keepsBlankLine x comments then ret (inl (x, comments ++ [emptyComment]))
    else ret (inl (x, comments))
  else if (k =? _COMMENT)%Z then
    do tok <- lex;
    ret (inl (x, comments ++ [mkComment (tok_pos tok) (tok_text tok) false]))
  else if (k =? _EOF)%Z then
    do name <- gets filename;
    Error (fmt_Errorf "syntax error (unterminated block started at %s:%d:%d)"
             [ArgStr name; ArgInt (Z.of_nat (pos_Line (blk_Start x)));
              ArgInt (Z.of_nat (pos_LineRune (blk_Start x)))])
  else if (k =? rune ")")%Z then
    do rparen <- lex;
    let x := blk_set_RParen
               (mkRParen (set_Before comments (rp_Comments (blk_RParen x))) (tok_pos rparen)) x in
    do k' <- gets peek;
    run (if negb (isEOL k')
         then Error (errors_New "syntax error (expected newline after closing paren)")
         else ret tt);
    run lex;
    ret (inr x)
  else
    do l <- parseLine;
    ret (inl (blk_set_Line
                (blk_Line x ++ [line_set_Comments (set_Before comments (line_Comments l)) l]) x,
              [])).

Definition parseLineBlock (start : Position) (tokens : list string) (lparen : token)
  : M LineBlock :=
  loop_tokens parseLineBlock_body
    (mkLineBlock noComments start (mkLParen noComments (tok_pos lparen)) tokens []
                 (mkRParen noComments zeroPos),
     []).

Definition parseStmt_body (start : Position) (st : Position * list string)
  : M (Position * list string + unit) :=
  let '(end_, tokens) := st in
  do tok <- lex;
  if isEOL (tok_kind tok) then
    run appendStmt (ELine (mkLine noComments start tokens false end_));
    ret (inr tt)
  else if (tok_kind tok =? rune "(")%Z then
    do next <- gets peek;
    if isEOL next then
      (* Start of block: no more tokens on this line. *)
      do b <- parseLineBlock start tokens tok;
      run appendStmt (ELineBlock b);
      ret (inr tt)
    else if (next =? rune ")")%Z then
      do rparen <- lex;
      do k <- gets peek;
      if isEOL k then
        (* Empty block. *)
        run lex;
        run appendStmt
              (ELineBlock (mkLineBlock noComments start (mkLParen noComments (tok_pos tok))
                                       tokens [] (mkRParen noComments (tok_pos rparen))));
        ret (inr tt)
      else
        (* '( )' in the middle of the line, not a block. *)
        ret (inl (end_, tokens ++ [tok_text tok; tok_text rparen]))
    else
      (* '(' in the middle of the line, not a block. *)
      ret (inl (end_, tokens ++ [tok_text tok]))
  else ret (inl (tok_endPos tok, tokens ++ [tok_text tok])).

Definition parseStmt : M unit :=
  do tok <- lex;
  loop_tokens (parseStmt_body (tok_pos tok)) (tok_endPos tok, [tok_text tok]).

(** [in.file.Stmt[len(in.file.Stmt)-1].Comment().Before = before]. *)
Definition setLastBefore (before : list Comment) : M unit :=
  fun s =>
    let stmts := fs_Stmt (file s) in
    match last stmts with
    | Some e =>
        Ok tt (set_file
                 (fs_set_Stmt
                    (<[length stmts - 1 := expr_set_Comments (set_Before before (expr_Comments e)) e]>
                       stmts)
                    (file s)) s)
    | None => runtime_panic "index out of range [-1]" s
    end.

Definition parseFile_body (cb : option CommentBlock) : M (option CommentBlock + unit) :=
  do k <- gets peek;
  if (k =? rune "010")%Z then
    run lex;
    match cb with
    | Some c => run appendStmt (ECommentBlock c); ret (inl None)
    | None => ret (inl None)
    end
  else if (k =? _COMMENT)%Z then
    do tok <- lex;
    let c := match cb with
             | Some c => c
             | None => mkCommentBlock noComments (tok_pos tok)
             end in
    let com := cb_Comments c in
    ret (inl (Some (cb_set_Comments
                      (set_Before (Before com ++ [mkComment (tok_pos tok) (tok_text tok) false]) com)
                      c)))
  else if (k =? _EOF)%Z then
    match cb with
    | Some c => run appendStmt (ECommentBlock c); ret (inr tt)
    | None => ret (inr tt)
    end
  else
    run parseStmt;
    match cb with
    | Some c => run setLastBefore (Before (cb_Comments c)); ret (inl None)
    | None => ret (inl None)
    end.

Definition parseFile : M unit :=
  run modify (set_file (mkFile "" noComments []));
  loop_tokens parseFile_body None.

End WithLib.
End Reader.

(** ** Comment assignment and [parse] *)

Module Assign.
Import Reader.

(** The expressions [order] visits.  A pointer into the tree is the
    place of its target: the file, statement [i], the parentheses of
    block [i], line [j] of block [i]. *)
Inductive node :=
  | NFile
  | NStmt (i : nat)
  | NLParen (i : nat)
  | NLine (i j : nat)
  | NRParen (i : nat).

(** What [order] appends to [in.pre] and to [in.post] for statement
    [i]: lines, comment blocks and parentheses are leaves; a block goes
    first in preorder and last in postorder, around its left
    parenthesis, its lines and its right parenthesis. *)
Definition order_stmt (i : nat) (e : Expr) : list node * list node :=
  match e with
  | ELineBlock b =>
      let inner := NLParen i :: imap (fun j _ => NLine i j) (blk_Line b) ++ [NRParen i] in
      (NStmt i :: inner, inner ++ [NStmt i])
  | _ => ([NStmt i], [NStmt i])
  end.

(** [in.order(in.file)]: the preorder and the postorder list. *)
Definition order (f : FileSyntax) : list node * list node :=
  let parts := imap order_stmt (fs_Stmt f) in
  (NFile :: mjoin (parts.*1), mjoin (parts.*2) ++ [NFile]).

(** [x.Comment()] read through the tree. *)
Definition node_Comments (f : FileSyntax) (x : node) : option Comments :=
  match x with
  | NFile => Some (fs_Comments f)
  | NStmt i => expr_Comments <$> fs_Stmt f !! i
  | NLParen i =>
      match fs_Stmt f !! i with
      | Some (ELineBlock b) => Some (lp_Comments (blk_LParen b))
      | _ => None
      end
  | NRParen i =>
      match fs_Stmt f !! i with
      | Some (ELineBlock b) => Some (rp_Comments (blk_RParen b))
      | _ => None
      end
  | NLine i j =>
      match fs_Stmt f !! i with
      | Some (ELineBlock b) => line_Comments <$> blk_Line b !! j
      | _ => None
      end
  end.

(** A write through [x.Comment()]. *)
Definition block_update (g : LineBlock -> LineBlock) (i : nat) (f : FileSyntax) : FileSyntax :=
  match fs_Stmt f !! i with
  | Some (ELineBlock b) => fs_set_Stmt (<[i := ELineBlock (g b)]> (fs_Stmt f)) f
  | _ => f
  end.

Definition node_update (g : Comments -> Comments) (x : node) (f : FileSyntax) : FileSyntax :=
  match x with
  | NFile => fs_set_Comments (g (fs_Comments f)) f
  | NStmt i =>
      match fs_Stmt f !! i with
      | Some e => fs_set_Stmt (<[i := expr_set_Comments (g (expr_Comments e)) e]> (fs_Stmt f)) f
      | None => f
      end
  | NLParen i =>
      block_update (fun b => blk_set_LParen (lp_set_Comments (g (lp_Comments (blk_LParen b)))
                                                             (blk_LParen b)) b) i f
  | NRParen i =>
      block_update (fun b => blk_set_RParen (rp_set_Comments (g (rp_Comments (blk_RParen b)))
                                                             (blk_RParen b)) b) i f
  | NLine i j =>
      block_update (fun b =>
        match blk_Line b !! j with
        | Some l => blk_set_Line (<[j := line_set_Comments (g (line_Comments l)) l]> (blk_Line b)) b
        | None => b
        end) i f
  end.

(** [x.Span()]. *)
Definition node_Span (f : FileSyntax) (x : node) : Position * Position :=
  match x with
  | NFile => fs_Span f
  | NStmt i => match fs_Stmt f !! i with Some e => expr_Span e | None => (zeroPos, zeroPos) end
  | NLParen i =>
      match fs_Stmt f !! i with
      | Some (ELineBlock b) => (lp_Pos (blk_LParen b), pos_add_paren (lp_Pos (blk_LParen b)))
      | _ => (zeroPos, zeroPos)
      end
  | NRParen i =>
      match fs_Stmt f !! i with
      | Some (ELineBlock b) => (rp_Pos (blk_RParen b), pos_add_paren (rp_Pos (blk_RParen b)))
      | _ => (zeroPos, zeroPos)
      end
  | NLine i j =>
      match fs_Stmt f !! i with
      | Some (ELineBlock b) =>
          match blk_Line b !! j with
          | Some l => (line_Start l, line_End l)
          | None => (zeroPos, zeroPos)
          end
      | _ => (zeroPos, zeroPos)
      end
  end.

(** The comments attached to [Suffix] lists anywhere in the tree. *)
Definition line_suffixes (l : Line) : list Comment := Suffix (line_Comments l).

Definition block_suffixes (b : LineBlock) : list Comment :=
  Suffix (blk_Comments b) ++ Suffix (lp_Comments (blk_LParen b))
  ++ concat (map line_suffixes (blk_Line b)) ++ Suffix (rp_Comments (blk_RParen b)).

Definition stmt_suffixes (e : Expr) : list Comment :=
  match e with
  | ELine l => line_suffixes l
  | ELineBlock b => block_suffixes b
  | ECommentBlock c => Suffix (cb_Comments c)
  end.

Definition suffixes (f : FileSyntax) : list Comment :=
  Suffix (fs_Comments f) ++ concat (map stmt_suffixes (fs_Stmt f)).

(** The comments attached to [Before] lists of the nodes of the tree
    (the file-level lists apart). *)
Definition line_befores (l : Line) : list Comment := Before (line_Comments l).

Definition block_befores (b : LineBlock) : list Comment :=
  Before (blk_Comments b) ++ Before (lp_Comments (blk_LParen b))
  ++ concat (map line_befores (blk_Line b)) ++ Before (rp_Comments (blk_RParen b)).

Definition stmt_befores (e : Expr) : list Comment :=
  match e with
  | ELine l => line_befores l
  | ELineBlock b => block_befores b
  | ECommentBlock c => Before (cb_Comments c)
  end.

Definition befores (f : FileSyntax) : list Comment := concat (map stmt_befores (fs_Stmt f)).

(** The number of comments attached across all nodes' before and
    suffix lists plus the file-level [Before] and [After] lists. *)
Definition attached_count (f : FileSyntax) : nat :=
  length (befores f) + length (suffixes f)
  + length (Before (fs_Comments f)) + length (After (fs_Comments f)).

(** The placeholders that keep blank lines. *)
Definition placeholders (f : FileSyntax) : nat :=
  length (filter (fun c => com_Token c = "") (befores f)).

(** [for len(line) > 0 && start.Byte >= line[0].Start.Byte]: the
    comments taken off the front of [line], and the rest. *)
Fixpoint takeLine (start : Position) (line : list Comment) : list Comment * list Comment :=
  match line with
  | [] => ([], [])
  | c :: line' =>
      if (pos_Byte (com_Start c) <=? pos_Byte start)%nat then
        let '(taken, rest) := takeLine start line' in (c :: taken, rest)
      else ([], line)
  end.

(** [for len(suffix) > 0 && end.Byte <= suffix[len(suffix)-1].Start.Byte]
    on the reversed list: the comments taken off the end, last first,
    and the rest (still reversed). *)
Fixpoint takeSuffix (end_ : Position) (xiffus : list Comment) : list Comment * list Comment :=
  match xiffus with
  | [] => ([], [])
  | c :: xiffus' =>
      if (pos_Byte end_ <=? pos_Byte (com_Start c))%nat then
        let '(taken, rest) := takeSuffix end_ xiffus' in (c :: taken, rest)
      else ([], xiffus)
  end.

Definition assignLine_step (st : FileSyntax * list Comment) (x : node)
  : FileSyntax * list Comment :=
  let '(f, line) := st in
  let '(start, _) := node_Span f x in
  let '(taken, rest) := takeLine start line in
  (node_update (fun xcom => set_Before (Before xcom ++ taken) xcom) x f, rest).

Definition assignSuffix_step (st : FileSyntax * list Comment) (x : node)
  : FileSyntax * list Comment :=
  let '(f, suffix) := st in
  let '(start, end_) := node_Span f x in
  match x with
  | NFile =>
      (* Do not assign suffix comments to end of line block or whole file. *)
      st
  | _ =>
      (* Do not assign suffix comments to something that starts on an earlier line. *)
      if negb (pos_Line start =? pos_Line end_)%nat then st
      else
        let '(taken, rest) := takeSuffix end_ (reverse suffix) in
        (node_update (fun xcom => set_Suffix (Suffix xcom ++ taken) xcom) x f, reverse rest)
  end.

(** [assignComments] attaches comments to nearby syntax. *)
Definition assignComments (s : input) : FileSyntax :=
  let f := file s in
  (* Generate preorder and postorder lists. *)
  let '(pre, post) := order f in
  (* Split into whole-line comments and suffix comments. *)
  let line := filter (fun com => com_Suffix com = false) (comments s) in
  let suffix := filter (fun com => com_Suffix com = true) (comments s) in
  (* Assign line comments to syntax immediately following. *)
  let '(f, line) := foldl assignLine_step (f, line) pre in
  (* Remaining line comments go at end of file. *)
  let f := fs_set_Comments (set_After (After (fs_Comments f) ++ line) (fs_Comments f)) f in
  (* Assign suffix comments to syntax immediately before. *)
  let '(f, suffix) := foldl assignSuffix_step (f, suffix) (reverse post) in
  (* We assigned suffix comments in reverse.  Fix that. *)
  let f := foldl (fun f x => node_update (fun xcom => set_Suffix (reverse (Suffix xcom)) xcom) x f)
                 f post in
  (* Remaining suffix comments go at beginning of file. *)
  fs_set_Comments (set_Before (Before (fs_Comments f) ++ suffix) (fs_Comments f)) f.

Section WithLib.
Context `{GoLib}.

(** The input as [parse] leaves it before it looks at the error list:
    the lexer primed, the parser run. *)
Definition parsed (file_ : string) (data : list ascii) : result unit :=
  (run readToken; parseFile) (newInput file_ data).

(** The comments the lexer has accumulated in [in.comments] when the
    parser is done. *)
Definition lexed_comments (file_ : string) (data : list ascii) : list Comment :=
  match parsed file_ data with
  | Ok _ s => comments s
  | Panic s => comments s
  | Fuel => []
  end.

(** The comment tokens, whole-line and end-of-line, in the stream of
    tokens the lexer produces from a state on. *)
Fixpoint count_comment_tokens (fuel : nat) (s : input) : nat :=
  match fuel with
  | 0 => 0
  | S fuel =>
      let k := tok_kind (token_ s) in
      if (k =? _EOF)%Z then 0
      else (if isComment k then 1 else 0)
           + match readToken s with
             | Ok _ s' => count_comment_tokens fuel s'
             | _ => 0
             end
  end.

Definition comment_tokens (file_ : string) (data : list ascii) : nat :=
  match readToken (newInput file_ data) with
  | Ok _ s => count_comment_tokens (S (length data)) s
  | _ => 0
  end.

(** The lines of a document that hold white space only. *)
Definition blank_lines (data : list ascii) : nat :=
  length (filter (fun l => TrimSpace l = []) (ModPath.lines data)).

(** [parse] parses the input file: the syntax tree, or [nil] and the
    error list.  [None] is the exhausted fuel. *)
Definition parse (file_ : string) (data : list ascii)
  : option (option FileSyntax * list goerr) :=
  match parsed file_ data with
  | Ok _ s =>
      if (0 <? length (parseErrors s))%nat then Some (None, parseErrors s)
      else
        let s := set_file (fs_set_Name (filename s) (file s)) s in
        (* Assign comments to nearby syntax. *)
        Some (Some (assignComments s), [])
  | Panic s =>
      (* the deferred handler: [err = in.parseErrors] when it is not empty *)
      Some (None, parseErrors s)
  | Fuel => None
  end.

End WithLib.
End Assign.

(** ** The editor: [addLine], [addReplace], and the version parser *)

Module Edit.

(** The editor works on a tree whose lines and blocks are reached
    through pointers: an entry of the model keeps a pointer to its
    line, and a statement of the file is a pointer too.  A pointer is
    the place of its target in the store of lines (or of blocks); an
    allocation adds a place at the end of the store. *)
Definition loc := nat.

(** [modfile.LineBlock], with its lines as [[]*Line]. *)
Record Block := mkBlock {
  b_Comments : Comments;
  b_Start : Position;
  b_LParen : LParen;
  b_Token : list string;
  b_Line : list loc;
  b_RParen : RParen
}.

(** An element of [FileSyntax.Stmt]. *)
Inductive Stmt :=
  | SLine (l : loc)
  | SBlock (b : loc)
  | SComment (c : CommentBlock).

(** A [*modfile.FileSyntax] together with the lines and blocks its
    pointers lead to. *)
Record FileStore := mkFileStore {
  f_Name : string;
  f_Comments : Comments;
  f_lines : list Line;
  f_blocks : list Block;
  f_Stmt : list Stmt
}.

Definition set_lines (v : list Line) (x : FileStore) : FileStore :=
  mkFileStore (f_Name x) (f_Comments x) v (f_blocks x) (f_Stmt x).
Definition set_blocks (v : list Block) (x : FileStore) : FileStore :=
  mkFileStore (f_Name x) (f_Comments x) (f_lines x) v (f_Stmt x).
Definition set_Stmt (v : list Stmt) (x : FileStore) : FileStore :=
  mkFileStore (f_Name x) (f_Comments x) (f_lines x) (f_blocks x) v.

Definition line_set_Token (v : list string) (l : Line) : Line :=
  mkLine (line_Comments l) (line_Start l) v (line_InBlock l) (line_End l).
Definition line_set_InBlock (v : bool) (l : Line) : Line :=
  mkLine (line_Comments l) (line_Start l) (line_Token l) v (line_End l).
Definition b_set_Line (v : list loc) (b : Block) : Block :=
  mkBlock (b_Comments b) (b_Start b) (b_LParen b) (b_Token b) v (b_RParen b).

(** [&modfile.Line{Token: tokens, InBlock: inBlock}]. *)
Definition newLine (tokens : list string) (inBlock : bool) : Line :=
  mkLine noComments zeroPos tokens inBlock zeroPos.

(** A value of the interface [modfile.Expr] as [addLine] receives it:
    the nil interface, or a [*Line] or a [*LineBlock], each of which
    may be a nil pointer (a nil [*Line] in an [Expr] is not the nil
    interface). *)
Inductive Expr :=
  | ENil
  | EPLine (p : option loc)
  | EPBlock (p : option loc).

Global Instance Expr_eq_dec : EqDecision Expr.
Proof. solve_decision. Defined.

(** [module.Version]. *)
Record Version := mkVersion { Path : string; Vers : string }.

Global Instance Version_eq_dec : EqDecision Version.
Proof. solve_decision. Defined.

(** [modfile.Replace]; [Syntax] is a [*Line]. *)
Record Replace := mkReplace { Old : Version; New : Version; Syntax : option loc }.

Global Instance Replace_eq_dec : EqDecision Replace.
Proof. solve_decision. Defined.

(** The zero value [modfile.Replace{}]. *)
Definition zeroReplace : Replace := mkReplace (mkVersion "" "") (mkVersion "" "") None.

(** In what follows [None] is a panic: an index out of range or a nil
    pointer dereference.  A line whose [Token] is empty is a removed
    line ([markLineAsRemoved] sets [nil]); the model does not tell an
    empty slice from [nil], and the source makes an empty slice that is
    not [nil] only for lines inside blocks, where it never tests for
    [nil]. *)

(** [markLineAsRemoved] modifies line so that it (and its end-of-line
    comment, if any) will be dropped by [FileSyntax.Cleanup]. *)
Definition markLineAsRemoved (line : option loc) (lines : list Line) : option (list Line) :=
  l ← line;
  ln ← lines !! l;
  Some (<[l := line_set_Comments (set_Suffix [] (line_Comments ln)) (line_set_Token [] ln)]> lines).

(** [tokens[1:]]. *)
Definition from1 (tokens : list string) : option (list string) :=
  match tokens with
  | [] => None
  | _ :: rest => Some rest
  end.

Definition updateLine (line : option loc) (tokens : list string) (lines : list Line)
  : option (list Line) :=
  l ← line;
  ln ← lines !! l;
  tokens ← (if line_InBlock ln then from1 tokens else Some tokens);
  Some (<[l := line_set_Token tokens ln]> lines).

(** The first loop of [addLine]: if no hint given, add to the last
    statement of the given type.  The statements come last first. *)
Fixpoint lastOfType (x : FileStore) (tokens : list string) (stmts_rev : list Stmt)
  : option Expr :=
  match stmts_rev with
  | [] => Some ENil
  | SLine l :: rest =>
      ln ← f_lines x !! l;
      match line_Token ln with
      | [] => lastOfType x tokens rest
      | t :: _ =>
          t0 ← head tokens;
          if String.eqb t t0 then Some (EPLine (Some l)) else lastOfType x tokens rest
      end
  | SBlock b :: rest =>
      blk ← f_blocks x !! b;
      t ← head (b_Token blk);
      t0 ← head tokens;
      if String.eqb t t0 then Some (EPBlock (Some b)) else lastOfType x tokens rest
  | SComment _ :: rest => lastOfType x tokens rest
  end.

(** The closure [newLineAfter] of [addLine]. *)
Definition newLineAfter (x : FileStore) (tokens : list string) (i : nat) : FileStore * loc :=
  let newl := length (f_lines x) in
  let x := set_lines (f_lines x ++ [newLine tokens false]) x in
  if (i =? length (f_Stmt x))%nat then (set_Stmt (f_Stmt x ++ [SLine newl]) x, newl)
  else (set_Stmt (take (i + 1) (f_Stmt x) ++ SLine newl :: drop (i + 1) (f_Stmt x)) x, newl).

(** The place of the first line of a block that is the hint. *)
Definition lineIsHint (hint : Expr) (l : loc) : bool := bool_decide (hint = EPLine (Some l)).

Fixpoint findLine (hint : Expr) (ls : list loc) (j : nat) : option nat :=
  match ls with
  | [] => None
  | l :: rest => if lineIsHint hint l then Some j else findLine hint rest (S j)
  end.

(** The second loop of [addLine], over the statements from place [i]
    on; [Some None] when the hint is nowhere in them. *)
Fixpoint atHint (x : FileStore) (hint : Expr) (tokens : list string) (i : nat)
    (stmts : list Stmt) : option (option (FileStore * loc)) :=
  match stmts with
  | [] => Some None
  | SLine l :: rest =>
      if bool_decide (hint = EPLine (Some l)) then
        ln ← f_lines x !! l;
        differs ← match line_Token ln with
                  | [] => Some true
                  | t :: _ => t0 ← head tokens; Some (negb (String.eqb t t0))
                  end;
        if differs : bool then Some (Some (newLineAfter x tokens i))
        else
          (* Convert line to line block. *)
          tail1 ← from1 (line_Token ln);
          tokens1 ← from1 tokens;
          let newb := length (f_blocks x) in
          let newl := length (f_lines x) in
          let lines := <[l := line_set_Token tail1 (line_set_InBlock true ln)]> (f_lines x) in
          let block := mkBlock noComments zeroPos (mkLParen noComments zeroPos)
                               (take 1 (line_Token ln)) [l; newl]
                               (mkRParen noComments zeroPos) in
          Some (Some (set_Stmt (<[i := SBlock newb]> (f_Stmt x))
                        (set_blocks (f_blocks x ++ [block])
                           (set_lines (lines ++ [newLine tokens1 true]) x)),
                      newl))
      else atHint x hint tokens (S i) rest
  | SBlock b :: rest =>
      if bool_decide (hint = EPBlock (Some b)) then
        blk ← f_blocks x !! b;
        t ← head (b_Token blk);
        t0 ← head tokens;
        if negb (String.eqb t t0) then Some (Some (newLineAfter x tokens i))
        else
          tokens1 ← from1 tokens;
          let newl := length (f_lines x) in
          Some (Some (set_blocks (<[b := b_set_Line (b_Line blk ++ [newl]) blk]> (f_blocks x))
                        (set_lines (f_lines x ++ [newLine tokens1 true]) x),
                      newl))
      else
        blk ← f_blocks x !! b;
        match findLine hint (b_Line blk) 0 with
        | Some j =>
            t ← head (b_Token blk);
            t0 ← head tokens;
            if negb (String.eqb t t0) then Some (Some (newLineAfter x tokens i))
            else
              (* Add new line after hint within the block. *)
              tokens1 ← from1 tokens;
              let newl := length (f_lines x) in
              let ls := take (j + 1) (b_Line blk) ++ newl :: drop (j + 1) (b_Line blk) in
              Some (Some (set_blocks (<[b := b_set_Line ls blk]> (f_blocks x))
                            (set_lines (f_lines x ++ [newLine tokens1 true]) x),
                          newl))
        | None => atHint x hint tokens (S i) rest
        end
  | SComment _ :: rest => atHint x hint tokens (S i) rest
  end.

(** [addLine] adds a line containing the given tokens to the file.

    If the first token of the hint matches the first token of the
    line, the new line is added at the end of the block containing
    hint, extracting hint into a new block if it is not yet in one.
    If the hint is non-nil but its first token does not match, the new
    line is added after the block containing hint (or hint itself, if
    not in a block).  If no hint is provided, [addLine] appends the
    line to the end of the last block with a matching first token, or
    to the end of the file if no such block exists. *)
Definition addLine (x : FileStore) (hint : Expr) (tokens : list string)
  : option (FileStore * loc) :=
  hint ← (if bool_decide (hint = ENil) then lastOfType x tokens (reverse (f_Stmt x))
          else Some hint);
  found ← (if bool_decide (hint = ENil) then Some None
           else atHint x hint tokens 0 (f_Stmt x));
  match found with
  | Some r => Some r
  | None =>
      let newl := length (f_lines x) in
      Some (set_Stmt (f_Stmt x ++ [SLine newl])
              (set_lines (f_lines x ++ [newLine tokens false]) x),
            newl)
  end.

Section WithLib.
Context `{GoLib}.

(** The runes of a string, as [for _, r := range s] yields them. *)
Fixpoint runes (fuel : nat) (s : list ascii) : list Z :=
  match fuel with
  | 0 => []
  | S fuel =>
      match s with
      | [] => []
      | _ :: _ => let '(r, size) := DecodeRune s in r :: runes fuel (drop size s)
      end
  end.

Definition Contains (s sub : string) : bool :=
  bool_decide (is_Some (Index (bytes s) (bytes sub))).

(** [modfile.MustQuote] (of golang.org/x/mod) reports whether [s] must
    be quoted in order to appear as a single token in a go.mod line. *)
Definition MustQuote (s : string) : bool :=
  existsb (fun r =>
      if (r =? bval " ")%Z || (r =? bval "034")%Z || (r =? bval "'")%Z || (r =? bval "`")%Z
      then true
      else if (r =? bval "(")%Z || (r =? bval ")")%Z || (r =? bval "[")%Z || (r =? bval "]")%Z
              || (r =? bval "{")%Z || (r =? bval "}")%Z || (r =? bval ",")%Z
      then (1 <? String.length s)%nat
      else negb (unicode_IsPrint r))
    (runes (String.length s) (bytes s))
  || String.eqb s "" || Contains s "//" || Contains s "/*".

(** [modfile.AutoQuote] returns [s] or, if quoting is required for [s]
    to appear in a go.mod, the quotation of [s]. *)
Definition AutoQuote (s : string) : string :=
  if MustQuote s then strconv_Quote s else s.

(** The tokens of a replace line, as [addReplace] builds them. *)
Definition replaceTokens (oldPath oldVers newPath newVers : string) : list string :=
  ["replace"; AutoQuote oldPath]
  ++ (if String.eqb oldVers "" then [] else [oldVers])
  ++ ["=>"; AutoQuote newPath]
  ++ (if String.eqb newVers "" then [] else [newVers]).

(** The condition of the loop of [addReplace] on an entry. *)
Definition isFor (oldPath oldVers : string) (r : Replace) : bool :=
  String.eqb (Path (Old r)) oldPath
  && (String.eqb oldVers "" || String.eqb (Vers (Old r)) oldVers).

(** The variables of the loop of [addReplace]: the store of lines, the
    entries already visited (as the loop leaves them), [need] and
    [hint]. *)
Record scan := mkScan {
  sc_lines : list Line;
  sc_done : list Replace;
  sc_need : bool;
  sc_hint : option loc
}.

(** One turn of [for _, r := range *replace]. *)
Definition replace_turn (oldPath oldVers : string) (newv : Version) (tokens : list string)
    (st : option scan) (r : Replace) : option scan :=
  st ← st;
  if isFor oldPath oldVers r then
    if sc_need st then
      (* Found replacement for old; update to use new. *)
      lines ← updateLine (Syntax r) tokens (sc_lines st);
      Some (mkScan lines (sc_done st ++ [mkReplace (Old r) newv (Syntax r)]) false (sc_hint st))
    else
      (* Already added; delete other replacements for same. *)
      lines ← markLineAsRemoved (Syntax r) (sc_lines st);
      let r := zeroReplace in
      Some (mkScan lines (sc_done st ++ [r]) (sc_need st)
                   (if String.eqb (Path (Old r)) oldPath then Syntax r else sc_hint st))
  else
    Some (mkScan (sc_lines st) (sc_done st ++ [r]) (sc_need st)
                 (if String.eqb (Path (Old r)) oldPath then Syntax r else sc_hint st)).

(** [addReplace]: the file and the entries after the call, and the
    error it returns ([None] inside: the nil error, the only one it
    has); [None] outside is a panic.  The entries of [*replace] are
    taken to be distinct objects. *)
Definition addReplace (syntax : FileStore) (replace : list Replace)
    (oldPath oldVers newPath newVers : string)
  : option (FileStore * list Replace * option goerr) :=
  let oldv := mkVersion oldPath oldVers in
  let newv := mkVersion newPath newVers in
  let tokens := replaceTokens oldPath oldVers newPath newVers in
  st ← foldl (replace_turn oldPath oldVers newv tokens)
             (Some (mkScan (f_lines syntax) [] true None)) replace;
  let syntax := set_lines (sc_lines st) syntax in
  if sc_need st then
    '(syntax, l) ← addLine syntax (EPLine (sc_hint st)) tokens;
    Some (syntax, sc_done st ++ [mkReplace oldv newv (Some l)], None)
  else Some (syntax, sc_done st, None).

(** [strings.ContainsAny] of [t] and the three quote characters. *)
Definition containsQuote (t : string) : bool :=
  existsb (fun c => bool_decide (c = "034"%char \/ c = "'"%char \/ c = "`"%char)) (bytes t).

(** [parseString]: the string [*s] holds afterwards, and the result. *)
Definition parseString (s : string) : string * (string + goerr) :=
  if HasPrefix (bytes s) ["034"%char] then
    match strconv_Unquote s with
    | Some t => (AutoQuote t, inl t)
    | None => (s, inr strconv_ErrSyntax)
    end
  else if containsQuote s then
    (s, inr (fmt_Errorf "unquoted string cannot contain quote" []))
  else (AutoQuote s, inl s).

(** [parseVersion]: the string [*s] holds afterwards, and the result. *)
Definition parseVersion (verb path : string) (s : string) : string * (string + goerr) :=
  match parseString s with
  | (s, inr err) =>
      (s, inr (modfile_Error "" zeroPos path verb (InvalidVersionError s err)))
  | (s, inl t) =>
      let cv := module_CanonicalVersion t in
      if String.eqb cv "" then
        (s, inr (modfile_Error "" zeroPos path verb
                   (InvalidVersionError t (errors_New "must be of the form v1.2.3"))))
      else (cv, inl cv)
  end.

End WithLib.
End Edit.

(** ** Reading a replace directive: [parseReplace] *)

Module Directive.
Import Edit.

(** The functions of [golang.org/x/mod] and of [path/filepath] that
    [parseReplace] calls and that are not modelled here:
    [module.SplitPathVersion] ([None] when it answers [ok = false],
    else the prefix and the major-version suffix),
    [module.CheckPathMajor] ([None] is the nil error),
    [modfile.IsDirectoryPath] and the constant [filepath.Separator]. *)
Class ModLib := {
  module_SplitPathVersion : string -> option (string * string);
  module_CheckPathMajor : string -> string -> option goerr;
  modfile_IsDirectoryPath : string -> bool;
  filepath_Separator : ascii
}.

(** An argument of a format: a string, or an error shown by [%v]. *)
Inductive fmtval := VStr (s : string) | VErr (e : goerr).

(** The [Err] of the errors [parseReplace] makes: an error made by
    [fmt.Errorf], or an error it got from a call. *)
Inductive cause :=
  | Errorf (format : string) (args : list fmtval)
  | Wrapped (e : goerr).

(** [*modfile.Error]. *)
Record ModError := mkModError {
  Filename : string;
  Pos : Position;
  ModPath : string;
  Verb : string;
  Err : cause
}.

Section WithLib.
Context `{GoLib} `{ModLib}.

Definition modulePathMajor (path : string) : string + goerr :=
  match module_SplitPathVersion path with
  | None => inr (fmt_Errorf "invalid module path" [])
  | Some (_, major) => inl major
  end.

Section ParseReplace.
Variable filename : string.
(** [line] is a pointer into the store [lines]. *)
Variable lines : list Line.
Variable line : option loc.
Variable verb : string.

(** [line.Start]; [None] is the panic on a nil pointer. *)
Definition line_start : option Position := l ← line; ln ← lines !! l; Some (line_Start ln).

Definition wrapModPathError (modPath : string) (err : goerr) : option ModError :=
  pos ← line_start; Some (mkModError filename pos modPath verb (Wrapped err)).

Definition wrapError (err : cause) : option ModError :=
  pos ← line_start; Some (mkModError filename pos "" "" err).

Definition errorf (format : string) (args : list fmtval) : option ModError :=
  wrapError (Errorf format args).

Definition usage : string :=
  "usage: %s module/path [v1.2.3] => other/module v1.4
	 or %s module/path [v1.2.3] => ../local/directory".

(** [parseString(&args[i])] and [parseVersion(verb, path, &args[i])]:
    the slice afterwards, and the result. *)
Definition parseStringAt (args : list string) (i : nat)
  : option (list string * (string + goerr)) :=
  a ← args !! i;
  let '(a', r) := parseString a in Some (<[i := a']> args, r).

Definition parseVersionAt (path : string) (args : list string) (i : nat)
  : option (list string * (string + goerr)) :=
  a ← args !! i;
  let '(a', r) := parseVersion verb path a in Some (<[i := a']> args, r).

(** The result of [parseReplace]: the slice [args] as the call leaves
    it, and the entry or the error.  [None] is a panic. *)
Definition failed (args : list string) (e : option ModError)
  : option (list string * (Replace + ModError)) :=
  e ← e; Some (args, inr e).

(** The second half of [parseReplace], from [ns, err :=
    parseString(&args[arrow+1])] on. *)
Definition parseReplace_new (arrow : nat) (s v : string) (args : list string)
  : option (list string * (Replace + ModError)) :=
  '(args, ns) ← parseStringAt args (arrow + 1);
  match ns with
  | inr err => failed args (errorf "invalid quoted string: %v" [VErr err])
  | inl ns =>
      if (length args =? arrow + 2)%nat then
        if negb (modfile_IsDirectoryPath ns) then
          if Contains ns "@" then
            failed args (errorf "replacement module must match format 'path version', not 'path@version'" [])
          else
            failed args (errorf "replacement module without version must be directory path (rooted or starting with . or ..)" [])
        else if bool_decide (filepath_Separator = "/"%char) && Contains ns "\" then
          failed args (errorf "replacement directory appears to be Windows path (on a non-windows system)" [])
        else
          Some (args, inl (mkReplace (mkVersion s v) (mkVersion ns "") line))
      else if (length args =? arrow + 3)%nat then
        '(args, nv) ← parseVersionAt ns args (arrow + 2);
        match nv with
        | inr err => failed args (wrapError (Wrapped err))
        | inl nv =>
            if modfile_IsDirectoryPath ns then
              failed args (errorf "replacement module directory path %q cannot have version"
                                  [VStr ns])
            else Some (args, inl (mkReplace (mkVersion s v) (mkVersion ns nv) line))
        end
      else Some (args, inl (mkReplace (mkVersion s v) (mkVersion ns "") line))
  end.

Definition parseReplace (args : list string)
  : option (list string * (Replace + ModError)) :=
  let arrow :=
    if (2 <=? length args)%nat && bool_decide (args !! 1 = Some "=>") then 1 else 2 in
  if (length args <? arrow + 2)%nat || (arrow + 3 <? length args)%nat
     || negb (bool_decide (args !! arrow = Some "=>"))
  then failed args (errorf usage [VStr verb; VStr verb])
  else
    '(args, s) ← parseStringAt args 0;
    match s with
    | inr err => failed args (errorf "invalid quoted string: %v" [VErr err])
    | inl s =>
        match modulePathMajor s with
        | inr err => failed args (wrapModPathError s err)
        | inl pathMajor =>
            if (arrow =? 2)%nat then
              '(args, v) ← parseVersionAt s args 1;
              match v with
              | inr err => failed args (wrapError (Wrapped err))
              | inl v =>
                  match module_CheckPathMajor v pathMajor with
                  | Some err => failed args (wrapModPathError s err)
                  | None => parseReplace_new arrow s v args
                  end
              end
            else parseReplace_new arrow s "" args
        end
    end.

End ParseReplace.
End WithLib.
End Directive.

(** ** The command [mod why] *)

Module Why.

(** The line feed, as a string. *)
Definition lf : string := String "010"%char EmptyString.

(** [filepath.Ext] on a system whose separator is the slash: the
    suffix of the last element of [path] that begins at its last dot,
    or the empty string.  The bytes come last first, with the suffix
    read so far. *)
Fixpoint Ext_loop (rev_path suffix : list ascii) : list ascii :=
  match rev_path with
  | [] => []
  | c :: rest =>
      if bool_decide (c = "/"%char) then []
      else if bool_decide (c = "."%char) then c :: suffix
      else Ext_loop rest (c :: suffix)
  end.

Definition Ext (path : string) : string := str (Ext_loop (reverse (bytes path)) []).

(** The body of [for i, arg := range args] in [formatModWhyStanzas]. *)
Definition stanza_turn (modulePath : string) (n : nat)
    (importToFilesMap : gmap string (list string)) (out : string) (i : nat) (arg : string)
  : string :=
  let out := out +:+ ("# " +:+ arg +:+ lf) in
  let out :=
    match importToFilesMap !! arg with
    | None =>
        out +:+ ("(module " +:+ modulePath +:+ " does not need package " +:+ arg +:+ ")" +:+ lf)
    | Some files => foldl (fun out file => out +:+ file +:+ lf) out files
    end in
  (* Add a newline if it's not the last stanza *)
  if (Z.of_nat i <? Z.of_nat n - 1)%Z then out +:+ lf else out.

(** A loop [for i, x := range xs] that threads [out], from index [i]. *)
Fixpoint range_from {A B} (f : B -> nat -> A -> B) (out : B) (i : nat) (xs : list A) : B :=
  match xs with
  | [] => out
  | x :: xs => range_from f (f out i x) (S i) xs
  end.

(** [formatModWhyStanzas] returns a formatted output for the go mod
    why command. *)
Definition formatModWhyStanzas (modulePath : string) (args : list string)
    (importToFilesMap : gmap string (list string)) : string :=
  range_from (stanza_turn modulePath (length args) importToFilesMap) "" 0 args.

Section WithFiles.
(** The directory and the files, as [os.ReadDir] (the names of the
    entries it returns) and [load.GetGnoFileImports] give them, and
    [filepath.Join]. *)
Variable ReadDir : string -> goerr + list string.
Variable filepath_Join : string -> string -> string.
Variable GetGnoFileImports : string -> goerr + list string.

(** [m[imp] = append(m[imp], filename)]. *)
Definition add_import (filename : string) (m : gmap string (list string)) (imp : string)
  : gmap string (list string) :=
  <[imp := default [] (m !! imp) ++ [filename]]> m.

(** The body of [for _, e := range entries]; the error of an earlier
    turn ends the loop. *)
Definition file_turn (pkgPath : string) (acc : goerr + gmap string (list string))
    (filename : string) : goerr + gmap string (list string) :=
  match acc with
  | inl err => inl err
  | inr m =>
      if negb (String.eqb (Ext filename) ".gno") then inr m
      else if Reader.HasSuffix (bytes filename) (bytes "_filetest.gno") then inr m
      else
        match GetGnoFileImports (filepath_Join pkgPath filename) with
        | inl err => inl err
        | inr imports => inr (foldl (add_import filename) m imports)
        end
  end.

(** [getImportToFilesMap] returns a map where each key is an import
    path and its value is a list of files importing that package with
    the specified import path. *)
Definition getImportToFilesMap (pkgPath : string) : goerr + gmap string (list string) :=
  match ReadDir pkgPath with
  | inl err => inl err
  | inr entries => foldl (file_turn pkgPath) (inr ∅) entries
  end.

End WithFiles.
End Why.

(** ** Finding the files and directories of packages: [load] *)

Module Load.

(** What the functions of [load] look at in an [fs.DirEntry]. *)
Record DirEntry := mkDirEntry { Name : string; IsDir : bool }.

(** The errors of [load]: an error of the file system, or one that
    [fmt.Errorf] wraps with [%w]. *)
Inductive loaderr :=
  | Plain (e : goerr)
  | Wrap (format : string) (args : list string) (e : loaderr).

Definition IsGnoFile (f : DirEntry) : bool :=
  let name := Name f in
  negb (HasPrefix (bytes name) (bytes ".")) && Reader.HasSuffix (bytes name) (bytes ".gno")
  && negb (IsDir f).

Section WithFiles.
(** The file system and [path/filepath]: [os.Stat] (with
    [fs.FileInfoToDirEntry] on its result), [os.ReadDir],
    [filepath.IsAbs], [filepath.Separator], [filepath.Dir],
    [filepath.Join], and [filepath.WalkDir].  The function that
    [walkDirForGnoDirs] gives to [WalkDir] answers nil or an error,
    and [WalkDir] stops at an error: [WalkDir root] is the list of the
    calls it makes as long as the answers are nil, each with the path
    and the entry, or the error when it has one for the path. *)
Variable Stat : string -> goerr + DirEntry.
Variable ReadDir : string -> goerr + list DirEntry.
Variable filepath_IsAbs : string -> bool.
Variable filepath_Separator : ascii.
Variable filepath_Dir : string -> string.
Variable filepath_Join : string -> string -> string.
Variable WalkDir : string -> list (string * (goerr + DirEntry)).

Definition ensurePathPrefix (path : string) : string :=
  if filepath_IsAbs path then path
  else
    (* cannot use path.Join or filepath.Join, because we need to ensure
       that ./ is the prefix to pass to go build, if not absolute. *)
    "." +:+ String filepath_Separator "" +:+ path.

(** [walkFn]: one call from [WalkDir], on the set [visited] and the
    paths given to [addPath] so far; [inl] is the error it answers. *)
Definition walkFn (root : string) (st : gset string * list string)
    (call : string * (goerr + DirEntry)) : loaderr + gset string * list string :=
  let '(visited, added) := st in
  let '(currPath, r) := call in
  match r with
  | inl err => inl (Wrap "%s: walk dir: %w" [root] (Plain err))
  | inr f =>
      if IsDir f || negb (IsGnoFile f) then inr st
      else
        let parentDir := filepath_Dir currPath in
        if bool_decide (parentDir ∈ visited) then inr st
        else inr ({[parentDir]} ∪ visited, added ++ [parentDir])
  end.

(** [walkDirForGnoDirs]: the paths it gives to [addPath], in order,
    and the error it returns, if any (the calls of [addPath] made
    before the error stay made). *)
Definition walkDirForGnoDirs_from (root : string) (st : gset string * list string)
    (calls : list (string * (goerr + DirEntry))) : list string * option loaderr :=
  (fix go st calls :=
     match calls with
     | [] => (snd st, None)
     | call :: calls =>
         match walkFn root st call with
         | inl err => (snd st, Some err)
         | inr st => go st calls
         end
     end) st calls.

Definition walkDirForGnoDirs (root : string) : list string * option loaderr :=
  walkDirForGnoDirs_from root (∅, []) (WalkDir root).

(** One turn of [for _, argPath := range args] in
    [GnoDirsFromArgsRecursively]. *)
Definition dirs_turn (acc : loaderr + list string) (argPath : string) : loaderr + list string :=
  match acc with
  | inl err => inl err
  | inr paths =>
      match Stat argPath with
      | inl err => inl (Wrap "invalid file or package path: %w" [] (Plain err))
      | inr info =>
          if negb (IsDir info) then
            if IsGnoFile info then inr (paths ++ [ensurePathPrefix argPath])
            else inr paths
          else
            (* Gather package paths from the directory *)
            match walkDirForGnoDirs argPath with
            | (added, Some err) => inl (Wrap "unable to walk dir: %w" [] err)
            | (added, None) => inr (paths ++ map ensurePathPrefix added)
            end
      end
  end.

Definition GnoDirsFromArgsRecursively (args : list string) : loaderr + list string :=
  foldl dirs_turn (inr []) args.

(** One turn of the loop of [GnoFilesFromArgs]. *)
Definition files_turn (acc : loaderr + list string) (argPath : string)
  : loaderr + list string :=
  match acc with
  | inl err => inl err
  | inr paths =>
      match Stat argPath with
      | inl err => inl (Wrap "invalid file or package path: %w" [] (Plain err))
      | inr info =>
          if negb (IsDir info) then
            if IsGnoFile info then inr (paths ++ [ensurePathPrefix argPath])
            else inr paths
          else
            match ReadDir argPath with
            | inl err => inl (Plain err)
            | inr files =>
                inr (paths
                     ++ map (fun f => ensurePathPrefix (filepath_Join argPath (Name f)))
                            (filter (fun f => IsGnoFile f = true) files))
            end
      end
  end.

Definition GnoFilesFromArgs (args : list string) : loaderr + list string :=
  foldl files_turn (inr []) args.

End WithFiles.
End Load.
(** *** [ModulePath] is total and returns the described value *)

Module ModPathFacts.
Import ModPath.
Section WithLib.
Context `{GoLib}.

Lemma trimLeft_length fuel s : length (trimLeft fuel s) <= length s.
Proof.
  revert s; induction fuel as [|fuel IH]; intros s; simpl; [lia|].
  destruct s as [|c s]; [simpl; lia|].
  destruct (DecodeRune (c :: s)) as [r size].
  destruct (unicode_IsSpace r); [|lia].
  etransitivity; [apply IH|]. rewrite length_drop. lia.
Qed.

Lemma trimRight_length fuel s : length (trimRight fuel s) <= length s.
Proof.
  revert s; induction fuel as [|fuel IH]; intros s; simpl; [lia|].
  destruct s as [|c s]; [simpl; lia|].
  destruct (DecodeLastRune (c :: s)) as [r size].
  destruct (unicode_IsSpace r); [|lia].
  etransitivity; [apply IH|]. rewrite length_take. simpl. lia.
Qed.

Lemma TrimSpace_length s : length (TrimSpace s) <= length s.
Proof.
  unfold TrimSpace. etransitivity; [apply trimRight_length|apply trimLeft_length].
Qed.

Lemma IndexByte_lt b c i : IndexByte b c = Some i -> i < length b.
Proof.
  revert i; induction b as [|x b IH]; intros i; simpl; [discriminate|].
  case_bool_decide; [intros [= <-]; lia|].
  destruct (IndexByte b c) as [j|]; simpl; [|discriminate].
  intros [= <-]. specialize (IH j eq_refl). lia.
Qed.

Lemma lines_acc_none cur md :
  IndexByte md nl = None ->
  lines_acc cur md = match reverse cur ++ md with [] => [] | l => [l] end.
Proof.
  revert cur; induction md as [|c md IH]; intros cur; simpl.
  - intros _. rewrite app_nil_r. destruct cur as [|x cur]; simpl; [done|].
    rewrite reverse_cons. destruct (reverse cur); done.
  - case_bool_decide; [discriminate|].
    destruct (IndexByte md nl) eqn:E; simpl; [discriminate|]. intros _.
    rewrite IH by done. rewrite reverse_cons, <- app_assoc. done.
Qed.

Lemma lines_acc_some cur md i :
  IndexByte md nl = Some i ->
  lines_acc cur md = (reverse cur ++ take i md) :: lines_acc [] (drop (i + 1) md).
Proof.
  revert cur i; induction md as [|c md IH]; intros cur i; simpl; [discriminate|].
  case_bool_decide.
  - intros [= <-]. simpl. rewrite app_nil_r. done.
  - destruct (IndexByte md nl) as [j|] eqn:E; simpl; [|discriminate].
    intros [= <-]. rewrite (IH _ j) by done. simpl.
    rewrite reverse_cons, <- app_assoc. done.
Qed.

(** One turn of the loop decides exactly whether the line is a module
    line. *)
Lemma loop_step fuel md :
  md <> [] ->
  ModulePath_loop (S fuel) md =
    let '(line, rest) :=
      match IndexByte md nl with
      | Some i => (take i md, drop (i + 1) md)
      | None => (md, [])
      end in
    match module_arg line with
    | Some a => Some (arg_value a)
    | None => ModulePath_loop fuel rest
    end.
Proof.
  intros Hne. simpl.
  destruct md as [|c0 md0]; [done|]. simpl length. simpl Nat.eqb. cbv iota.
  set (md := c0 :: md0).
  destruct (IndexByte md nl) as [i|]; cbv zeta beta iota;
    unfold module_arg, bare; change (length moduleStr) with 6.
  all: match goal with |- context [HasPrefix (TrimSpace ?l) moduleStr] =>
         set (line := TrimSpace l) end.
  all: destruct (HasPrefix line moduleStr); simpl negb; cbv iota; [|done].
  all: pose proof (TrimSpace_length (drop 6 line)) as Hle.
  all: set (a := TrimSpace (drop 6 line)) in *.
  all: set (n := length (drop 6 line)) in *.
  all: destruct (Nat.eqb_spec (length a) n) as [E1|E1]; simpl orb.
  all: try (assert ((length a <? n)%nat = false) as -> by (apply Nat.ltb_ge; lia); done).
  all: destruct (Nat.eqb_spec (length a) 0) as [E2|E2].
  all: try (assert ((0 <? length a)%nat = false) as ->
              by (apply Nat.ltb_ge; lia); rewrite andb_false_r; done).
  all: assert ((length a <? n)%nat = true) as -> by (apply Nat.ltb_lt; lia).
  all: assert ((0 <? length a)%nat = true) as -> by (apply Nat.ltb_lt; lia).
  all: simpl andb; cbv iota; unfold arg_value, quoted.
  all: destruct a as [|c a']; [done|].
  all: destruct (bool_decide (c = dquote) || bool_decide (c = bquote)); [|done].
  all: destruct (strconv_Unquote _); done.
Qed.

Lemma loop_described fuel md :
  length md < fuel -> ModulePath_loop fuel md = Some (described md).
Proof.
  revert md; induction fuel as [|fuel IH]; intros md Hlt; [lia|].
  destruct md as [|c md0]; [done|].
  rewrite loop_step by done. unfold described, lines.
  set (md := c :: md0) in *.
  destruct (IndexByte md nl) as [i|] eqn:E.
  - rewrite (lines_acc_some [] md i E). simpl app. simpl first_module_arg.
    destruct (module_arg (take i md)); [done|].
    apply IH. rewrite length_drop. apply IndexByte_lt in E. lia.
  - rewrite (lines_acc_none [] md E). simpl app. subst md. simpl first_module_arg.
    destruct (module_arg (c :: md0)); [done|].
    destruct fuel; [simpl in Hlt; lia|done].
Qed.

(** C10. [ModulePath] returns a value on every byte slice (no error, no
    panic, and the loop ends): the argument of the first line that,
    once its [//] comment and surrounding white space are removed,
    begins with the word [module] followed by white space and a
    non-empty argument, unquoted when it starts with a double quote or
    a back quote; and the empty string when there is no such line or
    when the quoted argument is malformed. *)
Theorem ModulePath_total_described (md : list ascii) :
  ModulePath md = Some (described md).
Proof. unfold ModulePath. apply loop_described. lia. Qed.

End WithLib.

Example ModulePath_plain :
  ModulePath (H := asciiLib) (bytes "// a manifest
module gno.land/p/demo/avl // the path
require x v1.0.0
") = Some "gno.land/p/demo/avl".
Proof. vm_compute. reflexivity. Qed.

Example ModulePath_missing :
  ModulePath (H := asciiLib) (bytes "modules x
 module
require x v1.0.0") = Some "".
Proof. vm_compute. reflexivity. Qed.

End ModPathFacts.


(** ** Reasoning about computations over an [input] *)

Module ReaderFacts.
Import Reader.

(** [wp m Q E s]: run from [s], [m] returns a value and a state that
    satisfy [Q], or panics in a state that satisfies [E]; it does not
    run out of fuel. *)
Definition wp {A} (m : M A) (Q : A -> input -> Prop) (E : input -> Prop) (s : input) : Prop :=
  match m s with
  | Ok a s' => Q a s'
  | Panic s' => E s'
  | Fuel => False
  end.

Lemma wp_ret {A} (a : A) Q E s : Q a s -> wp (ret a) Q E s.
Proof. done. Qed.

Lemma wp_gets {A} (f : input -> A) Q E s : Q (f s) s -> wp (gets f) Q E s.
Proof. done. Qed.

Lemma wp_modify f Q E s : Q tt (f s) -> wp (modify f) Q E s.
Proof. done. Qed.

Lemma wp_bind {A B} (m : M A) (k : A -> M B) Q E s :
  wp m (fun a s' => wp (k a) Q E s') E s -> wp (bind m k) Q E s.
Proof. unfold wp, bind. destruct (m s); done. Qed.

Lemma wp_mono {A} (m : M A) (Q Q' : A -> input -> Prop) (E E' : input -> Prop) s :
  wp m Q E s -> (forall a s', Q a s' -> Q' a s') -> (forall s', E s' -> E' s') -> wp m Q' E' s.
Proof. unfold wp. destruct (m s); eauto. Qed.

Lemma wp_Error {A} e (Q : A -> input -> Prop) (E : input -> Prop) s :
  E (set_parseErrors (parseErrors s ++ [modfile_Error (filename s) (pos s) "" "" e]) s) ->
  wp (Error e) Q E s.
Proof. done. Qed.

(** The rule of loops: an invariant [I] and a variant [v] that every
    further turn decreases. *)
Lemma wp_loop {A B} (I : A -> input -> Prop) (v : input -> nat)
    (body : A -> M (A + B)) Q E :
  (forall a s, I a s ->
     wp (body a) (fun r s' => match r with
                              | inl a' => I a' s' /\ v s' < v s
                              | inr b => Q b s'
                              end) E s) ->
  forall fuel a s, I a s -> v s < fuel -> wp (loop fuel body a) Q E s.
Proof.
  intros Hbody. induction fuel as [|fuel IH]; intros a s HI Hv; [lia|].
  specialize (Hbody a s HI). unfold wp in *. simpl.
  destruct (body a s) as [[a'|b] s'| |]; try done.
  destruct Hbody as [HI' Hv']. apply IH; [done|lia].
Qed.

Lemma wp_loop_bytes {A B} (I : A -> input -> Prop) (body : A -> M (A + B)) Q E :
  (forall a s, I a s ->
     wp (body a) (fun r s' => match r with
                              | inl a' => I a' s' /\ length (remaining s') < length (remaining s)
                              | inr b => Q b s'
                              end) E s) ->
  forall a s, I a s -> wp (loop_bytes body a) Q E s.
Proof.
  intros Hbody a s HI. unfold loop_bytes.
  change (wp (loop (S (length (remaining s))) body a) Q E s).
  eapply (wp_loop I (fun s => length (remaining s))); eauto.
Qed.

Lemma wp_loop_tokens {A B} (I : A -> input -> Prop) (body : A -> M (A + B)) Q E :
  (forall a s, I a s ->
     wp (body a) (fun r s' => match r with
                              | inl a' => I a' s' /\ pending s' < pending s
                              | inr b => Q b s'
                              end) E s) ->
  forall a s, I a s -> wp (loop_tokens body a) Q E s.
Proof.
  intros Hbody a s HI. unfold loop_tokens.
  change (wp (loop (S (pending s)) body a) Q E s).
  eapply (wp_loop I pending); eauto.
Qed.

(** Symbolic execution: one step on the computation at the head. *)
Ltac wp_step :=
  lazymatch goal with
  | |- wp (bind _ _) _ _ _ => apply wp_bind
  | |- wp (ret _) _ _ _ => apply wp_ret
  | |- wp (gets _) _ _ _ => apply wp_gets
  | |- wp (modify _) _ _ _ => apply wp_modify
  | |- wp (Error _) _ _ _ => apply wp_Error
  | |- wp (runtime_panic _) _ _ _ => apply wp_Error
  | |- wp (if ?b then _ else _) _ _ _ => destruct b eqn:?
  | |- wp (match ?x with _ => _ end) _ _ _ => destruct x eqn:?
  end.

Ltac wp_go := repeat wp_step.

Create HintDb lexer.

(** A call of a computation whose specification is [lem]. *)
Tactic Notation "wp_use" constr(lem) "as" simple_intropattern(r) simple_intropattern(s')
    simple_intropattern(Hpost) :=
  lazymatch goal with
  | |- wp (bind _ _) _ _ _ => apply wp_bind
  | |- _ => idtac
  end;
  eapply wp_mono;
    [ apply lem
    | cbv beta; intros r s' Hpost
    | cbv beta; intros s' Hpost; try done; try solve [eauto 7 with lexer] ].

End ReaderFacts.

Module LexerFacts.
Import Reader ReaderFacts.

(** What a call of the lexer leaves alone, and what it may do: consume
    input and record suffix comments. *)
Record frame (s s' : input) : Prop := Frame {
  fr_filename : filename s' = filename s;
  fr_complete : complete s' = complete s;
  fr_file : file s' = file s;
  fr_errors : parseErrors s' = parseErrors s;
  fr_remaining : length (remaining s') <= length (remaining s);
  fr_comments :
    Forall (fun c => com_Suffix c = true) (comments s) ->
    Forall (fun c => com_Suffix c = true) (comments s')
}.

(** A panic adds one error to the list. *)
Definition failed (s s' : input) : Prop :=
  file s' = file s /\ exists e, parseErrors s' = parseErrors s ++ [e].

Lemma frame_refl s : frame s s.
Proof. by constructor. Qed.

Lemma frame_trans s1 s2 s3 : frame s1 s2 -> frame s2 s3 -> frame s1 s3.
Proof.
  intros [] []. constructor; try congruence; [lia|auto].
Qed.

Lemma frame_failed s1 s2 s3 : frame s1 s2 -> failed s2 s3 -> failed s1 s3.
Proof.
  intros [] [Hf [e He]]. split; [congruence|]. exists e. congruence.
Qed.

(** Arithmetic on what is left of the input. *)
Ltac frame_lia :=
  intros;
  repeat match goal with
         | H : frame _ _ |- _ => apply fr_remaining in H
         | H : remaining _ = _ |- _ => apply (f_equal length) in H; simpl in H
         end;
  lia.

Lemma DecodeRune_size p :
  p <> [] -> 1 <= (DecodeRune p).2 <= length p.
Proof.
  destruct p as [|b0 p1]; [done|]. intros _. unfold DecodeRune.
  repeat match goal with
         | |- context [if ?b then _ else _] => destruct b
         | |- context [match ?l with [] => _ | _ :: _ => _ end] => destruct l
         end; simpl; lia.
Qed.

(** A rune decoded below 128 is the single byte it was read from. *)
Lemma DecodeRune_ascii p :
  p <> [] -> ((DecodeRune p).1 < 128)%Z ->
  exists b rest, p = b :: rest /\ (DecodeRune p).1 = bval b /\ (DecodeRune p).2 = 1.
Proof.
  destruct p as [|b0 p1]; [done|]. intros _. unfold DecodeRune, between, RuneError.
  repeat match goal with
         | |- context [if ?b then _ else _] => destruct b eqn:?
         | |- context [match ?l with [] => _ | _ :: _ => _ end] => destruct l
         end; simpl; intros; try lia; eauto.
Qed.

(** What scanning inside a token keeps: the token start, the pending
    token and the comments; the input only loses a prefix. *)
Definition scan (s s' : input) : Prop :=
  tokenStart s' = tokenStart s /\ token_ s' = token_ s /\ comments s' = comments s
  /\ exists w, remaining s = w ++ remaining s'.

Lemma scan_refl s : scan s s.
Proof. split_and!; try done. by exists []. Qed.

Lemma scan_trans s1 s2 s3 : scan s1 s2 -> scan s2 s3 -> scan s1 s3.
Proof.
  intros (?&?&?&w1&?) (?&?&?&w2&?). split_and!; try congruence.
  exists (w1 ++ w2). rewrite <- app_assoc. congruence.
Qed.

Section WithLib.
Context `{GoLib}.

Lemma readRune_spec s :
  wp readRune
     (fun r s' => frame s s' /\ length (remaining s') < length (remaining s)
                  /\ tokenStart s' = tokenStart s /\ token_ s' = token_ s
                  /\ comments s' = comments s
                  /\ r = (DecodeRune (remaining s)).1
                  /\ remaining s' = drop (DecodeRune (remaining s)).2 (remaining s))
     (failed s) s.
Proof.
  unfold wp, readRune.
  destruct (Nat.eqb_spec (length (remaining s)) 0) as [E|E].
  - simpl. split; [done|]. eauto.
  - assert (remaining s <> []) as Hne by (destruct (remaining s); simpl in *; [lia|done]).
    pose proof (DecodeRune_size _ Hne) as Hsz.
    destruct (DecodeRune (remaining s)) as [r size]. simpl in *.
    split_and!; simpl; try done; rewrite ?length_drop; try lia.
    constructor; simpl; try done. rewrite length_drop. lia.
Qed.

(** [readRune] in the terms the lexer needs. *)
Lemma readRune_scan s :
  wp readRune
     (fun r s' => frame s s' /\ scan s s' /\ length (remaining s') < length (remaining s)
                  /\ r = peekRune s
                  /\ ((r < 128)%Z -> exists b, bval b = r /\ remaining s = b :: remaining s'))
     (failed s) s.
Proof.
  eapply wp_mono; [apply readRune_spec| |done].
  intros r s' (Hf & Hlt & Hts & Htok & Hcom & Hr & Hrem).
  assert (remaining s <> []) as Hne by (destruct (remaining s); simpl in *; [lia|done]).
  split_and!; try done.
  - split_and!; try done.
    exists (take (snd (DecodeRune (remaining s))) (remaining s)).
    rewrite Hrem. by rewrite take_drop.
  - unfold peekRune. destruct (remaining s); [done|]. done.
  - intros Hlow. rewrite Hr in Hlow.
    destruct (DecodeRune_ascii _ Hne Hlow) as (b & rest & Hp & Hv & Hsz).
    exists b. rewrite Hrem, Hsz, Hp. split; [congruence|done].
Qed.


Lemma frame_set_token s s' t : frame s s' -> frame s (set_token t s').
Proof. intros []. by constructor. Qed.

Lemma frame_set_tokenStart s s' t : frame s s' -> frame s (set_tokenStart t s').
Proof. intros []. by constructor. Qed.

Lemma frame_set_pos s s' p : frame s s' -> frame s (set_pos p s').
Proof. intros []. by constructor. Qed.

Lemma frame_add_comment s s' c :
  frame s s' -> com_Suffix c = true -> frame s (set_comments (comments s' ++ [c]) s').
Proof.
  intros [] Hc. constructor; try done. simpl. intros Hall.
  apply Forall_app. split; [auto|]. by constructor.
Qed.

Lemma failed_Error s s' e :
  frame s s' ->
  failed s (set_parseErrors (parseErrors s' ++ [modfile_Error (filename s') (pos s') "" "" e]) s').
Proof. intros []. split; simpl; [done|]. eexists. by f_equal. Qed.

Hint Resolve frame_refl frame_set_token frame_set_tokenStart frame_set_pos
  failed_Error scan_refl : lexer.
Hint Extern 2 (frame _ _) => eapply frame_trans; [eassumption|] : lexer.
Hint Extern 2 (failed _ _) => eapply frame_failed; [eassumption|] : lexer.

Lemma restOfLine_spec s :
  wp (loop_bytes restOfLine_body tt) (fun _ s' => frame s s' /\ scan s s') (failed s) s.
Proof.
  apply (wp_loop_bytes (fun _ s' => frame s s' /\ scan s s'));
    [|split; auto with lexer].
  intros [] s1 [Hf Hs]. unfold restOfLine_body.
  do 3 wp_step; [|wp_step; auto].
  wp_use readRune_scan as r s2 Hr.
  destruct Hr as (Hf' & Hs' & Hlt & _).
  assert (frame s s2) by eauto using frame_trans.
  assert (scan s s2) by eauto using scan_trans.
  wp_step; wp_step; auto.
Qed.


Lemma peekRune_ext s s' : remaining s' = remaining s -> peekRune s' = peekRune s.
Proof. unfold peekRune. by intros ->. Qed.

Lemma peekPrefix_ext p s s' : remaining s' = remaining s -> peekPrefix p s' = peekPrefix p s.
Proof. unfold peekPrefix. by intros ->. Qed.

Lemma eof_ext s s' : remaining s' = remaining s -> eof s' = eof s.
Proof. unfold eof. by intros ->. Qed.

Lemma startToken_spec s :
  wp startToken
     (fun _ s' => frame s s' /\ remaining s' = remaining s /\ tokenStart s' = remaining s
                  /\ comments s' = comments s /\ tok_pos (token_ s') = pos s
                  /\ pos s' = pos s)
     (fun _ => False) s.
Proof. unfold startToken. wp_step. split_and!; auto with lexer. Qed.

Lemma endToken_spec kind w s :
  tokenStart s = w ++ remaining s ->
  wp (endToken kind)
     (fun _ s' => frame s s' /\ remaining s' = remaining s /\ comments s' = comments s
                  /\ token_ s' = mkToken kind (tok_pos (token_ s)) (pos s) (tokenText kind w))
     (fun _ => False) s.
Proof.
  intros Hw. unfold endToken. wp_step. split_and!; auto with lexer. simpl.
  rewrite Hw, length_app, Nat.add_sub, take_app_length. done.
Qed.

Lemma str_nil_inv l : str l = "" -> l = [].
Proof. by destruct l. Qed.

(** The text of a comment token is not empty: it keeps its two slashes. *)
Lemma comment_text_nonempty kind w :
  tokenText kind ("/"%char :: "/"%char :: w) <> "".
Proof.
  unfold tokenText, TrimSuffix. intros Hs. apply str_nil_inv in Hs.
  destruct (isComment kind); [|done].
  set (text := "/"%char :: "/"%char :: w) in *.
  assert (length text = S (S (length w))) as Hlen by done.
  destruct (HasSuffix text ["013"%char; "010"%char]) eqn:E1.
  - destruct w as [|c w']; [by vm_compute in E1|].
    apply (f_equal length) in Hs. rewrite length_take, Hlen in Hs. simpl in Hs. lia.
  - destruct (HasSuffix text ["010"%char]) eqn:E2; [|by subst text].
    apply (f_equal length) in Hs. rewrite length_take, Hlen in Hs. simpl in Hs. lia.
Qed.

Lemma HasPrefix_app s p : HasPrefix s p = true -> exists rest, s = p ++ rest.
Proof.
  revert s; induction p as [|c p IH]; intros s; simpl; [by exists s|].
  destruct s as [|x s]; [done|]. intros [Hx Hp]%andb_prop.
  apply bool_decide_eq_true in Hx as ->. destruct (IH _ Hp) as [rest ->]. by exists rest.
Qed.

Lemma readComment_spec s :
  peekPrefix "//" s = true ->
  wp readComment
     (fun _ s' => frame s s' /\ length (remaining s') < length (remaining s)
                  /\ isComment (tok_kind (token_ s')) = true
                  /\ tok_text (token_ s') <> "")
     (failed s) s.
Proof.
  intros Hpre. unfold readComment.
  apply HasPrefix_app in Hpre as [rest Hrest]. simpl in Hrest.
  wp_use startToken_spec as [] s0 H0.
  destruct H0 as (Hf0 & Hrem0 & Hts0 & Hcom0 & _).
  do 2 wp_step.
  wp_use readRune_scan as r1 s1 Hr1.
  destruct Hr1 as (Hf1 & Hs1 & Hlt1 & -> & Hb1).
  destruct Hb1 as (b1 & Hb1 & Hrem1).
  { unfold peekRune. rewrite Hrem0, Hrest. done. }
  rewrite Hrem0, Hrest in Hrem1. injection Hrem1 as _ Hrem1.
  wp_use readRune_scan as r2 s2 Hr2.
  destruct Hr2 as (Hf2 & Hs2 & Hlt2 & -> & Hb2).
  destruct Hb2 as (b2 & Hb2 & Hrem2).
  { unfold peekRune. rewrite <- Hrem1. done. }
  rewrite <- Hrem1 in Hrem2. injection Hrem2 as _ Hrem2.
  wp_use restOfLine_spec as [] s3 Hr3.
  destruct Hr3 as (Hf3 & Hs3).
  assert (frame s s3) as Hf by eauto 7 with lexer.
  assert (length (remaining s3) < length (remaining s)) as Hlt.
  { destruct Hf3. rewrite Hrem0 in Hlt1. lia. }
  assert (exists w, tokenStart s3 = ("/"%char :: "/"%char :: w) ++ remaining s3) as [w Hw].
  { destruct Hs1 as (Ht1 & _), Hs2 as (Ht2 & _), Hs3 as (Ht3 & _ & _ & w & Hw).
    exists w. rewrite Ht3, Ht2, Ht1, Hts0, Hrest, Hrem2, Hw. done. }
  wp_step.
  - wp_use (endToken_spec _COMMENT _ s3 Hw) as [] s4 H4.
    destruct H4 as (Hf4 & Hrem4 & _ & Htok).
    split_and!; [eauto with lexer|congruence|by rewrite Htok|].
    rewrite Htok. apply comment_text_nonempty.
  - wp_use (endToken_spec _EOLCOMMENT _ s3 Hw) as [] s4 H4.
    destruct H4 as (Hf4 & Hrem4 & _ & Htok).
    wp_step. simpl. split_and!; [|congruence|by rewrite Htok|].
    + apply frame_add_comment; [eauto with lexer|]. by destruct (_ <? _)%nat.
    + rewrite Htok. apply comment_text_nonempty.
Qed.


Lemma skipSpace_spec s :
  wp (loop_bytes skipSpace_body tt)
     (fun returned s' =>
        frame s s' /\
        if returned : bool
        then length (remaining s') < length (remaining s)
             /\ isComment (tok_kind (token_ s')) = true /\ tok_text (token_ s') <> ""
        else eof s' = false -> peekPrefix "//" s' = false)
     (failed s) s.
Proof.
  apply (wp_loop_bytes (fun _ s' => frame s s')); [|auto with lexer].
  intros [] s1 Hf. unfold skipSpace_body.
  do 3 wp_step; [wp_step; split; [done|congruence]|].
  do 3 wp_step.
  { wp_use readRune_scan as r s2 Hr.
    destruct Hr as (Hf2 & _ & Hlt & _). wp_step. split; [eauto with lexer|done]. }
  do 3 wp_step.
  { wp_use (readComment_spec s1 Heqb1) as [] s2 Hr.
    destruct Hr as (Hf2 & Hlt & Hk & Ht). wp_step.
    split_and!; [eauto with lexer| |done|done]. destruct Hf. lia. }
  do 3 wp_step; [wp_step; eauto with lexer|].
  wp_step. split; [done|]. done.
Qed.

Lemma eofInString_spec s :
  wp eofInString (fun _ _ => False) (failed s) s.
Proof.
  unfold eofInString. do 3 wp_step. simpl. split; [done|]. eauto.
Qed.

Lemma readString_spec quote s :
  wp (loop_bytes (readString_body quote) tt) (fun _ s' => frame s s' /\ scan s s') (failed s) s.
Proof.
  apply (wp_loop_bytes (fun _ s' => frame s s' /\ scan s s')); [|auto with lexer].
  intros [] s1 [Hf Hs]. unfold readString_body.
  wp_go; try solve [eauto with lexer].
  { eapply wp_mono; [apply (eofInString_spec s1)|done|]. eauto with lexer. }
  wp_use readRune_scan as r s2 Hr.
  destruct Hr as (Hf2 & Hs2 & Hlt & _).
  assert (frame s s2) by eauto with lexer.
  assert (scan s s2) by eauto using scan_trans.
  wp_go; try solve [eauto with lexer].
  { eapply wp_mono; [apply (eofInString_spec s2)|done|]. eauto with lexer. }
  wp_use readRune_scan as r' s3 Hr.
  destruct Hr as (Hf3 & Hs3 & Hlt3 & _).
  wp_go. split_and!; [eauto with lexer|eauto using scan_trans|lia].
Qed.

Lemma readIdent_spec s :
  wp (loop_bytes readIdent_body tt)
     (fun _ s' => frame s s' /\ scan s s'
                  /\ (isIdent (peekRune s) = true -> peekPrefix "//" s = false ->
                      length (remaining s') < length (remaining s)))
     (failed s) s.
Proof.
  apply (wp_loop_bytes
           (fun _ s' => frame s s' /\ scan s s'
                        /\ (remaining s' = remaining s
                            \/ length (remaining s') < length (remaining s))));
    [|split_and!; auto with lexer].
  intros [] s1 (Hf & Hs & Hprog). unfold readIdent_body.
  assert (forall P : Prop,
            (isIdent (peekRune s1) = false \/ peekPrefix "//" s1 = true) ->
            isIdent (peekRune s) = true -> peekPrefix "//" s = false ->
            length (remaining s1) < length (remaining s)) as Hexit.
  { intros _ Hor Hi Hp. destruct Hprog as [Heq|Hlt]; [|done].
    rewrite (peekRune_ext _ _ Heq), (peekPrefix_ext _ _ _ Heq) in Hor.
    destruct Hor; congruence. }
  wp_go; try solve [eauto with lexer].
  { split_and!; try done. apply (Hexit True). left.
    by destruct (isIdent (peekRune s1)). }
  { split_and!; try done. apply (Hexit True). by right. }
  wp_use readRune_scan as r s2 Hr.
  destruct Hr as (Hf2 & Hs2 & Hlt & _).
  wp_step. split_and!; [eauto with lexer|eauto using scan_trans| |done].
  right. destruct Hf. lia.
Qed.

(** What the parser relies on in a token: a comment has a text, and a
    punctuation token is the one byte that names its kind. *)
Definition token_ok (t : token) : Prop :=
  (isComment (tok_kind t) = true -> tok_text t <> "")
  /\ (isPunct (tok_kind t) = true ->
      exists b, bval b = tok_kind t /\ tok_text t = String b "").

Lemma isComment_not_punct k : isComment k = true -> isPunct k = false.
Proof.
  unfold isComment, isPunct, _COMMENT, _EOLCOMMENT, rune.
  intros [E|E]%orb_prop; apply Z.eqb_eq in E; subst k; done.
Qed.

Lemma isPunct_ascii c : isPunct c = true -> (c < 128)%Z /\ isComment c = false.
Proof.
  unfold isPunct, isComment, _COMMENT, _EOLCOMMENT, rune.
  rewrite !orb_true_iff, !Z.eqb_eq. vm_compute bval.
  intros Hc. split; [lia|].
  apply orb_false_iff. split; apply Z.eqb_neq; lia.
Qed.

Lemma readToken_spec s :
  wp readToken
     (fun _ s' => frame s s'
                  /\ (length (remaining s') = length (remaining s) ->
                      tok_kind (token_ s') = _EOF)
                  /\ token_ok (token_ s'))
     (failed s) s.
Proof.
  unfold readToken.
  wp_use skipSpace_spec as returned s1 Hr.
  destruct Hr as [Hf1 Hr]. destruct returned.
  { destruct Hr as (Hlt & Hk & Ht). wp_step. split_and!; [done|lia|].
    split; [done|]. intros Hp. by rewrite (isComment_not_punct _ Hk) in Hp. }
  wp_use startToken_spec as [] s2 H2.
  destruct H2 as (Hf2 & Hrem2 & Hts2 & _).
  assert (frame s s2) as Hfs2 by eauto with lexer.
  assert (tokenStart s2 = [] ++ remaining s2) as Hw0 by (simpl; congruence).
  do 3 wp_step.
  { wp_use (endToken_spec _EOF _ s2 Hw0) as [] s3 H3.
    destruct H3 as (Hf3 & _ & _ & Htok). rewrite Htok. simpl.
    split_and!; [eauto with lexer|done|]. split; done. }
  do 3 wp_step.
  { (* punctuation *)
    destruct (isPunct_ascii _ Heqb0) as [Hlow Hnc].
    wp_use readRune_scan as r s3 H3.
    destruct H3 as (Hf3 & Hs3 & Hlt3 & -> & Hb).
    destruct (Hb Hlow) as (b & Hbv & Hrem3).
    assert (tokenStart s3 = [b] ++ remaining s3) as Hw.
    { destruct Hs3 as (-> & _). rewrite Hts2, <- Hrem2, Hrem3. done. }
    wp_use (endToken_spec (peekRune s2) _ s3 Hw) as [] s4 H4.
    destruct H4 as (Hf4 & Hrem4 & _ & Htok). rewrite Htok. simpl.
    split_and!; [eauto with lexer| |].
    - clear Hw Hw0. frame_lia.
    - split; simpl; [by rewrite Hnc|]. intros _. exists b. split; [done|].
      unfold tokenText. by rewrite Hnc. }
  wp_step.
  { (* quoted string *)
    wp_use readRune_scan as r s3 H3.
    destruct H3 as (Hf3 & Hs3 & Hlt3 & _).
    wp_use readString_spec as [] s4 H4.
    destruct H4 as (Hf4 & Hs4).
    destruct (scan_trans _ _ _ Hs3 Hs4) as (Hts & _ & _ & w & Hw).
    assert (tokenStart s4 = w ++ remaining s4) as Hw' by congruence.
    wp_use (endToken_spec _STRING _ s4 Hw') as [] s5 H5.
    destruct H5 as (Hf5 & Hrem5 & _ & Htok). rewrite Htok. simpl.
    split_and!; [eauto 6 with lexer| |split; done].
    clear Hw Hw' Hw0. frame_lia. }
  (* identifier *)
  wp_go; try solve [eauto with lexer].
  wp_use readIdent_spec as [] s3 H3.
  destruct H3 as (Hf3 & Hs3 & Hprog).
  destruct Hs3 as (Hts & _ & _ & w & Hw).
  assert (tokenStart s3 = w ++ remaining s3) as Hw' by congruence.
  wp_use (endToken_spec _IDENT _ s3 Hw') as [] s4 H4.
  destruct H4 as (Hf4 & Hrem4 & _ & Htok). rewrite Htok. simpl.
  split_and!; [eauto 6 with lexer| |split; done].
  intros Hlen. exfalso.
  assert (length (remaining s3) < length (remaining s2)); [|clear Hw Hw' Hw0; frame_lia].
  apply Hprog; [by destruct (isIdent (peekRune s2))|].
  rewrite (peekPrefix_ext _ _ _ Hrem2). apply Hr.
  by rewrite <- (eof_ext _ _ Hrem2).
Qed.

Lemma lex_spec s :
  wp lex
     (fun tok s' => tok = token_ s /\ frame s s' /\ token_ok (token_ s')
                    /\ pending s' <= pending s
                    /\ (tok_kind tok <> _EOF -> pending s' < pending s))
     (failed s) s.
Proof.
  unfold lex. do 2 wp_step.
  wp_use readToken_spec as [] s1 H1.
  destruct H1 as (Hf & Heof & Hok). wp_step.
  pose proof (fr_remaining _ _ Hf) as Hle.
  split_and!; try done; unfold pending; intros;
    destruct (Z.eqb_spec (tok_kind (token_ s1)) _EOF), (Z.eqb_spec (tok_kind (token_ s)) _EOF);
    lia.
Qed.

End WithLib.
End LexerFacts.

Module ParserFacts.
Import Reader ReaderFacts LexerFacts.

(** *** What the parser builds *)

(** The parser writes [Before] lists only. *)
Definition clean (c : Comments) : Prop := Suffix c = [] /\ After c = [].

(** No two placeholders side by side. *)
Fixpoint no_double (cs : list Comment) : Prop :=
  match cs with
  | c :: rest =>
      match rest with
      | c' :: _ => ~ (com_Token c = "" /\ com_Token c' = "")
      | [] => True
      end /\ no_double rest
  | [] => True
  end.

(** The list does not begin with a placeholder. *)
Definition lead_real (cs : list Comment) : Prop :=
  forall c, head cs = Some c -> com_Token c <> "".

Definition good_line (l : Line) : Prop :=
  clean (line_Comments l) /\ no_double (Before (line_Comments l)).

(** The comments that open a block: those before its first line, or
    before its closing parenthesis when it has no line. *)
Definition opening (b : LineBlock) : list Comment :=
  match blk_Line b with
  | l :: _ => Before (line_Comments l)
  | [] => Before (rp_Comments (blk_RParen b))
  end.

Record good_block (b : LineBlock) : Prop := GoodBlock {
  gb_comments : clean (blk_Comments b);
  gb_lparen : lp_Comments (blk_LParen b) = noComments;
  gb_rparen : clean (rp_Comments (blk_RParen b));
  gb_lines : Forall good_line (blk_Line b);
  gb_closing : no_double (Before (rp_Comments (blk_RParen b)));
  gb_opening : lead_real (opening b)
}.

Definition good_stmt (e : Expr) : Prop :=
  match e with
  | ELine l => clean (line_Comments l)
  | ELineBlock b => good_block b
  | ECommentBlock c => clean (cb_Comments c)
  end.

Definition good_file (f : FileSyntax) : Prop :=
  fs_Comments f = noComments /\ Forall good_stmt (fs_Stmt f).

Lemma no_double_snoc cs c :
  no_double cs ->
  (forall c0, last cs = Some c0 -> ~ (com_Token c0 = "" /\ com_Token c = "")) ->
  no_double (cs ++ [c]).
Proof.
  induction cs as [|c1 cs IH]; simpl; [done|].
  intros [H1 H2] Hlast. destruct cs as [|c2 cs]; simpl in *.
  - split; [|done]. by apply Hlast.
  - split; [done|]. apply IH; [done|]. intros c0 Hc0. apply Hlast. done.
Qed.

Lemma lead_real_snoc cs c :
  (cs = [] -> com_Token c <> "") -> lead_real cs -> lead_real (cs ++ [c]).
Proof.
  unfold lead_real. destruct cs as [|c1 cs]; simpl.
  - intros Hc _ c0 [= <-]. by apply Hc.
  - intros _ Hl c0 Hc0. by apply Hl.
Qed.

(** When a blank line of a block is kept: it follows a line of the
    block, or a comment that is not a placeholder itself. *)
Lemma keepsBlankLine_true x cs :
  keepsBlankLine x cs = true <->
  (cs = [] /\ blk_Line x <> []) \/ (exists c, last cs = Some c /\ com_Token c <> "").
Proof.
  unfold keepsBlankLine. rewrite orb_true_iff, !andb_true_iff.
  rewrite Nat.eqb_eq, !Nat.ltb_lt. split.
  - intros [[Hl Hx]|[Hl Hc]].
    + left. split; [by destruct cs|]. by destruct (blk_Line x); simpl in *; [lia|].
    + right. destruct (last cs) as [c|]; [|done]. exists c. split; [done|].
      apply negb_true_iff in Hc. by apply String.eqb_neq in Hc.
  - intros [[-> Hx]|(c & Hl & Hc)].
    + left. split; [done|]. destruct (blk_Line x); simpl; [done|lia].
    + right. rewrite Hl. split.
      * destruct cs; simpl in *; [done|lia].
      * apply negb_true_iff. by apply String.eqb_neq.
Qed.

(** *** The state of the parser *)

Record PInv (s : input) : Prop := MkPInv {
  pi_token : token_ok (token_ s);
  pi_comments : Forall (fun c => com_Suffix c = true) (comments s);
  pi_file : good_file (file s)
}.

(** What a call of the parser keeps. *)
Record prel (s s' : input) : Prop := MkPrel {
  pr_filename : filename s' = filename s;
  pr_errors : parseErrors s' = parseErrors s;
  pr_pending : pending s' <= pending s
}.

Definition pfailed (s s' : input) : Prop :=
  exists e, parseErrors s' = parseErrors s ++ [e].

Lemma prel_refl s : prel s s.
Proof. by constructor. Qed.

Lemma prel_trans s1 s2 s3 : prel s1 s2 -> prel s2 s3 -> prel s1 s3.
Proof. intros [] []. constructor; try congruence. lia. Qed.

Lemma prel_pfailed s1 s2 s3 : prel s1 s2 -> pfailed s2 s3 -> pfailed s1 s3.
Proof. intros [] [e He]. exists e. congruence. Qed.

Lemma prel_set_file s s' f : prel s s' -> prel s (set_file f s').
Proof. intros []. by constructor. Qed.

Lemma pfailed_Error s s' e :
  prel s s' ->
  pfailed s (set_parseErrors (parseErrors s' ++ [modfile_Error (filename s') (pos s') "" "" e]) s').
Proof. intros []. eexists. simpl. by f_equal. Qed.

Lemma PInv_set_file s f : PInv s -> good_file f -> PInv (set_file f s).
Proof. intros [] Hf. by constructor. Qed.

Create HintDb parser.
Hint Resolve prel_refl prel_set_file pfailed_Error PInv_set_file : parser.
Hint Extern 2 (prel _ _) => eapply prel_trans; [eassumption|] : parser.
Hint Extern 2 (pfailed _ _) => eapply prel_pfailed; [eassumption|] : parser.

Tactic Notation "wp_call" constr(lem) "as" simple_intropattern(r) simple_intropattern(s')
    simple_intropattern(Hpost) :=
  lazymatch goal with
  | |- wp (bind _ _) _ _ _ => apply wp_bind
  | |- _ => idtac
  end;
  eapply wp_mono;
    [ apply lem
    | cbv beta; intros r s' Hpost
    | cbv beta; intros s' Hpost; try done; try solve [eauto 7 with parser] ].

Section WithLib.
Context `{GoLib}.

Lemma lex_pspec s :
  PInv s ->
  wp lex
     (fun tok s' => tok = token_ s /\ token_ok tok /\ prel s s' /\ PInv s'
                    /\ file s' = file s
                    /\ (tok_kind tok <> _EOF -> pending s' < pending s))
     (pfailed s) s.
Proof.
  intros [Ht Hc Hf].
  eapply wp_mono; [apply lex_spec| |].
  - intros tok s' (-> & Hfr & Hok & Hle & Hlt). destruct Hfr.
    split_and!; try done; constructor; auto; congruence.
  - intros s' [_ He]. done.
Qed.


Lemma parseLine_spec s :
  PInv s ->
  wp parseLine
     (fun l s' => prel s s' /\ PInv s' /\ file s' = file s
                  /\ line_Comments l = noComments /\ pending s' < pending s)
     (pfailed s) s.
Proof.
  intros HI. unfold parseLine.
  wp_call (lex_pspec s HI) as tok s1 H1.
  destruct H1 as (-> & Hok & Hp1 & HI1 & Hf1 & Hlt1).
  wp_go; try solve [eauto with parser].
  assert (pending s1 < pending s) as Hlt.
  { apply Hlt1. intros E. unfold isEOL in Heqb. by rewrite E in Heqb. }
  apply (wp_loop_tokens
           (fun _ s' => prel s s' /\ PInv s' /\ file s' = file s /\ pending s' < pending s));
    [|done].
  intros [end_ tokens] s2 (Hp2 & HI2 & Hf2 & Hlt2). unfold parseLine_body.
  wp_call (lex_pspec s2 HI2) as tok s3 H3.
  destruct H3 as (-> & Hok3 & Hp3 & HI3 & Hf3 & Hlt3).
  assert (prel s s3) by eauto with parser.
  destruct Hp3.
  wp_go; split_and!; try done; try congruence; try lia.
  apply Hlt3. intros E. unfold isEOL in *. by rewrite E in *.
Qed.


(** A block while its lines are being read, with the comments that
    wait for the next line. *)
Record partial_block (x : LineBlock) (cs : list Comment) : Prop := Partial {
  pb_comments : clean (blk_Comments x);
  pb_lparen : lp_Comments (blk_LParen x) = noComments;
  pb_rparen : rp_Comments (blk_RParen x) = noComments;
  pb_lines : Forall good_line (blk_Line x);
  pb_pending : no_double cs;
  pb_lead : blk_Line x = [] -> lead_real cs;
  pb_first : forall l rest, blk_Line x = l :: rest -> lead_real (Before (line_Comments l))
}.

Lemma kind_not_EOF (k k' : Z) : (k =? k')%Z = true -> k' <> _EOF -> k <> _EOF.
Proof. intros E%Z.eqb_eq. congruence. Qed.

Lemma parseLineBlock_body_spec s x cs s1 :
  prel s s1 -> PInv s1 -> file s1 = file s -> partial_block x cs ->
  wp (parseLineBlock_body (x, cs))
     (fun r s' =>
        match r with
        | inl (x', cs') =>
            (prel s s' /\ PInv s' /\ file s' = file s /\ partial_block x' cs')
            /\ pending s' < pending s1
        | inr b => prel s s' /\ PInv s' /\ file s' = file s /\ good_block b
        end)
     (pfailed s) s1.
Proof.
  intros Hp HI Hf Hpb. pose proof Hpb as [Hc Hlp Hrp Hl Hnd Hlead Hfirst].
  unfold parseLineBlock_body.
  do 3 wp_step.
  { (* suffix comment *)
    wp_call (lex_pspec s1 HI) as tok s2 H2.
    destruct H2 as (-> & Hok & Hp2 & HI2 & Hf2 & Hlt2).
    wp_go. split_and!; eauto with parser; try congruence.
    apply Hlt2. eapply kind_not_EOF; [apply Heqb|done]. }
  wp_step.
  { (* blank line *)
    wp_call (lex_pspec s1 HI) as tok s2 H2.
    destruct H2 as (-> & Hok & Hp2 & HI2 & Hf2 & Hlt2).
    assert (pending s2 < pending s1) as Hlt.
    { apply Hlt2. eapply kind_not_EOF; [apply Heqb0|done]. }
    wp_go; (split_and!; eauto with parser; try congruence).
    apply keepsBlankLine_true in Heqb1. constructor; try done.
    - apply no_double_snoc; [done|]. intros c0 Hc0 [E _].
      destruct Heqb1 as [[-> _]|(c & Hlast & Hne)]; [done|]. congruence.
    - intros Hx. apply lead_real_snoc; [|auto].
      intros ->. destruct Heqb1 as [[_ Hx']|(c & Hlast & _)]; done. }
  wp_step.
  { (* whole-line comment *)
    wp_call (lex_pspec s1 HI) as tok s2 H2.
    destruct H2 as (-> & Hok & Hp2 & HI2 & Hf2 & Hlt2).
    assert (tok_text (token_ s1) <> "") as Hne.
    { apply (pi_token _ HI). unfold isComment, peek in *. by rewrite Heqb1. }
    wp_go. split_and!; eauto with parser; try congruence.
    - constructor; try done.
      + apply no_double_snoc; [done|]. by intros c0 _ [_ E].
      + intros Hx. apply lead_real_snoc; auto.
    - apply Hlt2. eapply kind_not_EOF; [apply Heqb1|done]. }
  wp_step.
  { (* end of file *) wp_go. eauto with parser. }
  wp_step.
  { (* closing parenthesis *)
    wp_call (lex_pspec s1 HI) as tok s2 H2.
    destruct H2 as (-> & Hok & Hp2 & HI2 & Hf2 & Hlt2).
    wp_go; try solve [eauto with parser].
    wp_call (lex_pspec s2 HI2) as tok s3 H3.
    destruct H3 as (-> & Hok3 & Hp3 & HI3 & Hf3 & Hlt3).
    wp_go. split_and!; eauto 6 with parser; try congruence.
    constructor; simpl; try done.
    - by rewrite Hrp.
    - unfold opening. simpl. destruct (blk_Line x) as [|l rest] eqn:El; [auto|eauto]. }
  (* a line of the block *)
  wp_call (parseLine_spec s1 HI) as l s2 H2.
  destruct H2 as (Hp2 & HI2 & Hf2 & Hcom & Hlt2).
  wp_go. split_and!; eauto with parser; try congruence.
  constructor; simpl; try done.
  - apply Forall_app. split; [done|]. constructor; [|done].
    split; simpl; [|done]. by rewrite Hcom.
  - intros l0 rest. destruct (blk_Line x) as [|l1 rest1] eqn:El; simpl.
    + intros [= <- <-]. simpl. auto.
    + intros [= <- <-]. eauto.
Qed.

Lemma parseLineBlock_spec start tokens lparen s :
  PInv s ->
  wp (parseLineBlock start tokens lparen)
     (fun b s' => prel s s' /\ PInv s' /\ file s' = file s /\ good_block b)
     (pfailed s) s.
Proof.
  intros HI. unfold parseLineBlock.
  apply (wp_loop_tokens
           (fun '(x, cs) s' => prel s s' /\ PInv s' /\ file s' = file s /\ partial_block x cs)).
  - intros [x cs] s1 (Hp & HI1 & Hf & Hpb).
    eapply wp_mono; [by apply (parseLineBlock_body_spec s)| |done].
    intros [[x' cs']|b] s'; done.
  - split_and!; auto with parser. by constructor.
Qed.


Lemma good_file_app f e :
  good_file f -> good_stmt e -> good_file (fs_set_Stmt (fs_Stmt f ++ [e]) f).
Proof.
  intros [Hc Hs] He. split; simpl; [done|]. apply Forall_app. split; [done|]. by constructor.
Qed.

Lemma good_stmt_set_Before e before :
  good_stmt e -> good_stmt (expr_set_Comments (set_Before before (expr_Comments e)) e).
Proof. destruct e as [l|b|c]; simpl; [done| |done]. intros []. by constructor. Qed.

Lemma parseStmt_body_spec start s st s1 :
  prel s s1 -> PInv s1 -> pending s1 < pending s ->
  wp (parseStmt_body start st)
     (fun r s' =>
        match r with
        | inl _ => (prel s s' /\ PInv s' /\ pending s' < pending s) /\ pending s' < pending s1
        | inr _ => prel s s' /\ PInv s' /\ pending s' < pending s
        end)
     (pfailed s) s1.
Proof.
  intros Hp HI Hlt. destruct st as [end_ tokens]. unfold parseStmt_body, appendStmt.
  wp_call (lex_pspec s1 HI) as tok s2 H2.
  destruct H2 as (-> & Hok & Hp2 & HI2 & Hf2 & Hlt2).
  pose proof (pr_pending _ _ Hp2) as Hle2.
  assert (isEOL (tok_kind (token_ s1)) = false -> pending s2 < pending s1) as Hstrict.
  { intros E. apply Hlt2. intros E'. unfold isEOL in E. by rewrite E' in E. }
  wp_step.
  { wp_go. split_and!; eauto with parser; [|simpl; unfold pending in *; simpl; lia].
    apply PInv_set_file; [done|]. apply good_file_app; [apply HI2|]. done. }
  specialize (Hstrict eq_refl).
  wp_step; [|wp_go; split_and!; eauto with parser; lia].
  do 3 wp_step.
  { (* a block *)
    wp_call (parseLineBlock_spec start tokens (token_ s1) s2 HI2) as b s3 H3.
    destruct H3 as (Hp3 & HI3 & Hf3 & Hb).
    pose proof (pr_pending _ _ Hp3).
    wp_go. split_and!; eauto 6 with parser; [|unfold pending in *; simpl; lia].
    apply PInv_set_file; [done|]. apply good_file_app; [apply HI3|]. done. }
  wp_step; [|wp_go; split_and!; eauto with parser; lia].
  wp_call (lex_pspec s2 HI2) as tok s3 H3.
  destruct H3 as (-> & Hok3 & Hp3 & HI3 & Hf3 & Hlt3).
  pose proof (pr_pending _ _ Hp3).
  do 3 wp_step; [|wp_go; split_and!; eauto 6 with parser; lia].
  (* the empty block *)
  wp_call (lex_pspec s3 HI3) as tok s4 H4.
  destruct H4 as (-> & Hok4 & Hp4 & HI4 & Hf4 & Hlt4).
  pose proof (pr_pending _ _ Hp4).
  wp_go. split_and!; eauto 7 with parser; [|unfold pending in *; simpl; lia].
  apply PInv_set_file; [done|]. apply good_file_app; [apply HI4|]. by constructor.
Qed.

Lemma parseStmt_spec s :
  PInv s -> tok_kind (token_ s) <> _EOF ->
  wp parseStmt (fun _ s' => prel s s' /\ PInv s' /\ pending s' < pending s) (pfailed s) s.
Proof.
  intros HI Hne. unfold parseStmt.
  wp_call (lex_pspec s HI) as tok s1 H1.
  destruct H1 as (-> & Hok & Hp1 & HI1 & Hf1 & Hlt1).
  apply (wp_loop_tokens (fun _ s' => prel s s' /\ PInv s' /\ pending s' < pending s));
    [|by auto].
  intros st s2 (Hp2 & HI2 & Hlt2).
  eapply wp_mono; [by apply (parseStmt_body_spec _ s)| |done].
  by intros [|].
Qed.

Lemma setLastBefore_spec before s :
  PInv s ->
  wp (setLastBefore before)
     (fun _ s' => prel s s' /\ PInv s' /\ pending s' = pending s) (pfailed s) s.
Proof.
  intros HI. unfold wp, setLastBefore.
  destruct (last (fs_Stmt (file s))) as [e|] eqn:El.
  - split_and!; [by constructor| |done].
    apply PInv_set_file; [done|]. destruct (pi_file _ HI) as [Hc Hs].
    split; simpl; [done|]. apply Forall_insert; [done|].
    apply good_stmt_set_Before. rewrite Forall_forall in Hs. apply Hs.
    rewrite last_lookup in El. by eapply list_elem_of_lookup_2.
  - eexists. simpl. done.
Qed.

Lemma parseFile_body_spec s cb s1 :
  prel s s1 -> PInv s1 -> (forall c, cb = Some c -> clean (cb_Comments c)) ->
  wp (parseFile_body cb)
     (fun r s' =>
        match r with
        | inl cb' =>
            (prel s s' /\ PInv s' /\ (forall c, cb' = Some c -> clean (cb_Comments c)))
            /\ pending s' < pending s1
        | inr _ => prel s s' /\ PInv s'
        end)
     (pfailed s) s1.
Proof.
  intros Hp HI Hcb. unfold parseFile_body, appendStmt.
  do 3 wp_step.
  { (* blank line *)
    wp_call (lex_pspec s1 HI) as tok s2 H2.
    destruct H2 as (-> & Hok & Hp2 & HI2 & Hf2 & Hlt2).
    assert (pending s2 < pending s1) as Hlt.
    { apply Hlt2. eapply kind_not_EOF; [apply Heqb|done]. }
    wp_go; (split_and!; eauto with parser; try done).
    apply PInv_set_file; [done|]. apply good_file_app; [apply HI2|]. simpl. auto. }
  wp_step.
  { (* whole-line comment *)
    wp_call (lex_pspec s1 HI) as tok s2 H2.
    destruct H2 as (-> & Hok & Hp2 & HI2 & Hf2 & Hlt2).
    wp_go; (split_and!; eauto with parser;
            [|apply Hlt2; eapply kind_not_EOF; [apply Heqb0|done]]).
    intros c0 [= <-]. simpl. destruct cb as [c1|]; [by apply Hcb|done]. }
  wp_step.
  { (* end of file *)
    wp_go; (split_and!; eauto with parser).
    apply PInv_set_file; [done|]. apply good_file_app; [apply HI|]. simpl. auto. }
  assert (tok_kind (token_ s1) <> _EOF) as Hne.
  { intros E. unfold peek in *. by rewrite E in *. }
  wp_call (parseStmt_spec s1 HI Hne) as [] s2 H2.
  destruct H2 as (Hp2 & HI2 & Hlt2).
  wp_step; [|wp_go; split_and!; eauto with parser; done].
  wp_call (setLastBefore_spec (Before (cb_Comments c)) s2 HI2) as [] s3 H3.
  destruct H3 as (Hp3 & HI3 & Heq3).
  wp_go. split_and!; eauto 6 with parser; [done|lia].
Qed.

Lemma parseFile_spec s :
  token_ok (token_ s) -> Forall (fun c => com_Suffix c = true) (comments s) ->
  wp parseFile (fun _ s' => prel s s' /\ PInv s') (pfailed s) s.
Proof.
  intros Ht Hc. unfold parseFile. do 2 wp_step.
  apply (wp_loop_tokens
           (fun cb s' => prel s s' /\ PInv s'
                         /\ (forall c, cb = Some c -> clean (cb_Comments c)))).
  - intros cb s1 (Hp & HI & Hcb).
    eapply wp_mono; [by apply (parseFile_body_spec s)| |done].
    by intros [|].
  - split_and!; [by constructor| |done]. constructor; simpl; try done.
Qed.

End WithLib.
End ParserFacts.

Module AssignFacts.
Import Reader ReaderFacts LexerFacts ParserFacts Assign.

(** *** Reading and writing through a node *)

Lemma set_Before_id c : set_Before (Before c ++ []) c = c.
Proof. destruct c. unfold set_Before. simpl. by rewrite app_nil_r. Qed.

Lemma expr_set_Comments_id e : expr_set_Comments (expr_Comments e) e = e.
Proof. by destruct e as [[]|[]|[]]. Qed.

Lemma block_update_id g i f :
  (forall b, g b = b) -> block_update g i f = f.
Proof.
  intros Hg. unfold block_update. destruct (fs_Stmt f !! i) as [[l|b|c]|] eqn:E; try done.
  rewrite Hg, list_insert_id by done. by destruct f.
Qed.

(** A write that changes nothing leaves the tree as it is. *)
Lemma node_update_id g x f : (forall c, g c = c) -> node_update g x f = f.
Proof.
  intros Hg. destruct x as [|i|i|i j|i]; simpl.
  - rewrite Hg. by destruct f.
  - destruct (fs_Stmt f !! i) as [e|] eqn:E; [|done].
    rewrite Hg, expr_set_Comments_id, list_insert_id by done. by destruct f.
  - apply block_update_id. intros b. rewrite Hg. by destruct b as [? ? [] ? ? ?].
  - apply block_update_id. intros b. destruct (blk_Line b !! j) as [l|] eqn:E; [|done].
    rewrite Hg. replace (line_set_Comments (line_Comments l) l) with l by by destruct l.
    rewrite list_insert_id by done. by destruct b.
  - apply block_update_id. intros b. rewrite Hg. by destruct b as [? ? ? ? ? []].
Qed.


Lemma concat_map_insert {A B} (h : A -> list B) (l : list A) i e e' extra :
  l !! i = Some e -> h e' ≡ₚ h e ++ extra ->
  concat (map h (<[i := e']> l)) ≡ₚ concat (map h l) ++ extra.
Proof.
  intros Hi He.
  rewrite insert_take_drop by (by eapply lookup_lt_Some).
  rewrite <- (take_drop_middle l i e Hi) at 3.
  rewrite !map_app, !concat_app. simpl. rewrite He. solve_Permutation.
Qed.

Definition valid (f : FileSyntax) (x : node) : Prop := is_Some (node_Comments f x).

(** A write of [extra] more suffix comments through a node of the tree
    adds them to the tree. *)
Lemma update_suffixes g x f extra :
  valid f x \/ extra = [] ->
  (forall c, Suffix (g c) ≡ₚ Suffix c ++ extra) ->
  suffixes (node_update g x f) ≡ₚ suffixes f ++ extra.
Proof.
  intros Hv Hg. unfold valid in Hv.
  assert (forall i b b',
            fs_Stmt f !! i = Some (ELineBlock b) ->
            block_suffixes b' ≡ₚ block_suffixes b ++ extra ->
            suffixes (fs_set_Stmt (<[i := ELineBlock b']> (fs_Stmt f)) f)
            ≡ₚ suffixes f ++ extra) as Hblock.
  { intros i b b' Hi Hb. unfold suffixes. simpl.
    rewrite (concat_map_insert stmt_suffixes _ i (ELineBlock b) (ELineBlock b') extra) by done.
    by rewrite app_assoc. }
  assert (extra = [] -> suffixes f ≡ₚ suffixes f ++ extra) as Hnone.
  { intros ->. by rewrite app_nil_r. }
  destruct x as [|i|i|i j|i]; simpl in *.
  - unfold suffixes. simpl. rewrite Hg. solve_Permutation.
  - destruct (fs_Stmt f !! i) as [e|] eqn:E; simpl in *.
    + unfold suffixes. simpl.
      rewrite (concat_map_insert stmt_suffixes _ i e _ extra); [by rewrite app_assoc|done|].
      destruct e as [l|b|c]; simpl; unfold line_suffixes, block_suffixes; simpl;
        rewrite Hg; solve_Permutation.
    + destruct Hv as [[? [=]]|Hv]; auto.
  - unfold block_update.
    destruct (fs_Stmt f !! i) as [[l|b|c]|] eqn:E;
      try (destruct Hv as [[? [=]]|Hv]; by auto).
    apply (Hblock i b); [done|]. unfold block_suffixes. simpl. rewrite Hg.
    solve_Permutation.
  - unfold block_update.
    destruct (fs_Stmt f !! i) as [[l|b|c]|] eqn:E;
      try (destruct Hv as [[? [=]]|Hv]; by auto).
    apply (Hblock i b); [done|].
    destruct (blk_Line b !! j) as [l|] eqn:El; simpl in *.
    + unfold block_suffixes. simpl.
      rewrite (concat_map_insert line_suffixes _ j l _ extra);
        [|done|unfold line_suffixes; simpl; apply Hg].
      solve_Permutation.
    + destruct Hv as [[? [=]]| ->]. by rewrite app_nil_r.
  - unfold block_update.
    destruct (fs_Stmt f !! i) as [[l|b|c]|] eqn:E;
      try (destruct Hv as [[? [=]]|Hv]; by auto).
    apply (Hblock i b); [done|]. unfold block_suffixes. simpl. rewrite Hg.
    solve_Permutation.
Qed.


(** Writes through nodes keep the shape of the tree, so nodes stay
    valid. *)
Definition stmt_shape (e : Expr) : option nat :=
  match e with
  | ELineBlock b => Some (length (blk_Line b))
  | _ => None
  end.

Definition shape (f : FileSyntax) : list (option nat) := stmt_shape <$> fs_Stmt f.

Lemma shape_insert f i e e' :
  fs_Stmt f !! i = Some e -> stmt_shape e' = stmt_shape e ->
  shape (fs_set_Stmt (<[i := e']> (fs_Stmt f)) f) = shape f.
Proof.
  intros Hi He. unfold shape. simpl. rewrite list_fmap_insert, He.
  apply list_insert_id. by rewrite list_lookup_fmap, Hi.
Qed.

Lemma shape_update g x f : shape (node_update g x f) = shape f.
Proof.
  destruct x as [|i|i|i j|i]; simpl; try done; unfold block_update;
    destruct (fs_Stmt f !! i) as [[l|b|c]|] eqn:E; try done;
    try (by eapply shape_insert).
  eapply shape_insert; [done|]. simpl.
  destruct (blk_Line b !! j); simpl; [|done]. by rewrite length_insert.
Qed.

Lemma valid_shape f f' x : shape f' = shape f -> valid f x -> valid f' x.
Proof.
  unfold valid, shape. intros Hs.
  assert (forall i, stmt_shape <$> fs_Stmt f' !! i = stmt_shape <$> fs_Stmt f !! i) as Hi.
  { intros i. by rewrite <- !list_lookup_fmap, Hs. }
  destruct x as [|i|i|i j|i]; simpl; try done; specialize (Hi i);
    destruct (fs_Stmt f !! i) as [[l|b|c]|], (fs_Stmt f' !! i) as [[l'|b'|c']|];
    simpl in *; try done; try (by intros [? [=]]); try (by eauto).
  injection Hi as Hlen. rewrite !fmap_is_Some, !lookup_lt_is_Some. lia.
Qed.

Lemma order_valid f x : x ∈ (order f).1 \/ x ∈ (order f).2 -> valid f x.
Proof.
  unfold order, valid. simpl.
  assert (forall part, part ∈ imap order_stmt (fs_Stmt f) ->
            x ∈ part.1 \/ x ∈ part.2 -> is_Some (node_Comments f x)) as Hpart.
  { intros part (i & e & -> & Hi)%elem_of_lookup_imap.
    assert (x = NStmt i -> is_Some (node_Comments f x)) as Hstmt.
    { intros ->. simpl. by rewrite Hi. }
    destruct e as [l|b|c]; simpl;
      try (intros [Hx|Hx]; apply list_elem_of_singleton in Hx; by auto).
    assert (x ∈ NLParen i :: imap (fun j _ => NLine i j) (blk_Line b) ++ [NRParen i] ->
            is_Some (node_Comments f x)) as Hinner.
    { rewrite elem_of_cons, elem_of_app, list_elem_of_singleton.
      intros [->|[(j & l & -> & Hj)%elem_of_lookup_imap| ->]]; simpl; rewrite Hi; try done.
      by rewrite Hj. }
    set (inner := NLParen i :: imap (fun j _ => NLine i j) (blk_Line b) ++ [NRParen i]) in *.
    change (x ∈ NStmt i :: inner \/ x ∈ inner ++ [NStmt i] -> is_Some (node_Comments f x)).
    rewrite elem_of_cons, elem_of_app, list_elem_of_singleton. intros [[?|?]|[?|?]]; auto. }
  rewrite elem_of_cons, elem_of_app, list_elem_of_singleton, !list_elem_of_join.
  intros [[->|(l & Hx & (part & -> & Hp)%list_elem_of_fmap)]
         |[(l & Hx & (part & -> & Hp)%list_elem_of_fmap)| ->]]; try done; eauto.
Qed.

Lemma update_fs_Comments g x f :
  x <> NFile -> fs_Comments (node_update g x f) = fs_Comments f.
Proof.
  destruct x as [|i|i|i j|i]; simpl; try done; intros _; unfold block_update;
    by destruct (fs_Stmt f !! i) as [[l|b|c]|].
Qed.

Lemma update_file_Before g x f :
  (forall c, Before (g c) = Before c) ->
  Before (fs_Comments (node_update g x f)) = Before (fs_Comments f).
Proof.
  intros Hg. destruct x as [|i|i|i j|i]; [simpl; apply Hg|by rewrite update_fs_Comments..].
Qed.

Lemma update_file_After g x f :
  (forall c, After (g c) = After c) ->
  After (fs_Comments (node_update g x f)) = After (fs_Comments f).
Proof.
  intros Hg. destruct x as [|i|i|i j|i]; [simpl; apply Hg|by rewrite update_fs_Comments..].
Qed.


(** *** The loops of [assignComments] *)

Lemma takeSuffix_split e l : (takeSuffix e l).1 ++ (takeSuffix e l).2 = l.
Proof.
  induction l as [|c l IH]; simpl; [done|].
  destruct (_ <=? _)%nat; [|done].
  destruct (takeSuffix e l) as [t r]. simpl in *. by rewrite IH.
Qed.

Lemma assignSuffix_step_spec f suffix x :
  valid f x ->
  let '(f', rest) := assignSuffix_step (f, suffix) x in
  suffixes f' ++ rest ≡ₚ suffixes f ++ suffix
  /\ shape f' = shape f
  /\ Before (fs_Comments f') = Before (fs_Comments f)
  /\ After (fs_Comments f') = After (fs_Comments f).
Proof.
  intros Hv. unfold assignSuffix_step.
  destruct (node_Span f x) as [start end_].
  assert (forall x, x <> NFile ->
            let '(f', rest) :=
              (if negb (pos_Line start =? pos_Line end_)%nat then (f, suffix)
               else let '(taken, rest) := takeSuffix end_ (reverse suffix) in
                    (node_update (fun xcom => set_Suffix (Suffix xcom ++ taken) xcom) x f,
                     reverse rest)) in
            valid f x ->
            suffixes f' ++ rest ≡ₚ suffixes f ++ suffix /\ shape f' = shape f
            /\ Before (fs_Comments f') = Before (fs_Comments f)
            /\ After (fs_Comments f') = After (fs_Comments f)) as Hmain.
  { intros y Hy. destruct (negb _); [done|].
    pose proof (takeSuffix_split end_ (reverse suffix)) as Hsplit.
    destruct (takeSuffix end_ (reverse suffix)) as [taken rest]. simpl in Hsplit.
    intros Hvy. split_and!.
    - rewrite (update_suffixes _ y f taken); [|by left|done].
      rewrite <- (reverse_involutive suffix), <- Hsplit.
      rewrite reverse_app, reverse_Permutation, (reverse_Permutation taken).
      rewrite <- !app_assoc. apply Permutation_app_head, Permutation_app_comm.
    - apply shape_update.
    - by apply update_file_Before.
    - by apply update_file_After. }
  destruct x as [|i|i|i j|i]; [done|..];
    match goal with |- context [node_update _ ?y f] => specialize (Hmain y) end;
    destruct (negb _); try done;
    destruct (takeSuffix end_ (reverse suffix)) as [taken rest]; by apply Hmain.
Qed.

Lemma assignSuffix_fold nodes f suffix :
  Forall (valid f) nodes ->
  let '(f', rest) := foldl assignSuffix_step (f, suffix) nodes in
  suffixes f' ++ rest ≡ₚ suffixes f ++ suffix
  /\ shape f' = shape f
  /\ Before (fs_Comments f') = Before (fs_Comments f)
  /\ After (fs_Comments f') = After (fs_Comments f).
Proof.
  revert f suffix. induction nodes as [|x nodes IH]; intros f suffix Hv; cbn [foldl]; [done|].
  apply Forall_cons in Hv as [Hx Hv].
  pose proof (assignSuffix_step_spec f suffix x Hx) as Hstep.
  destruct (assignSuffix_step (f, suffix) x) as [f1 s1].
  destruct Hstep as (Hp & Hs & Hb & Ha).
  specialize (IH f1 s1). destruct (foldl assignSuffix_step (f1, s1) nodes) as [f' rest].
  destruct IH as (Hp' & Hs' & Hb' & Ha').
  { eapply Forall_impl; [done|]. intros y. by apply valid_shape. }
  split_and!; [by rewrite Hp'|congruence..].
Qed.

Lemma reverse_fold nodes f :
  let f' := foldl (fun f x => node_update (fun xcom => set_Suffix (reverse (Suffix xcom)) xcom) x f)
                  f nodes in
  suffixes f' ≡ₚ suffixes f
  /\ Before (fs_Comments f') = Before (fs_Comments f)
  /\ After (fs_Comments f') = After (fs_Comments f).
Proof.
  revert f. induction nodes as [|x nodes IH]; intros f; cbn [foldl]; [done|].
  destruct (IH (node_update (fun xcom => set_Suffix (reverse (Suffix xcom)) xcom) x f))
    as (Hp & Hb & Ha).
  split_and!.
  - rewrite Hp. rewrite (update_suffixes _ x f []); [by rewrite app_nil_r|by right|].
    intros c. simpl. by rewrite app_nil_r, reverse_Permutation.
  - rewrite Hb. by apply update_file_Before.
  - rewrite Ha. by apply update_file_After.
Qed.

Lemma assignLine_fold_nil nodes f : foldl assignLine_step (f, []) nodes = (f, []).
Proof.
  revert f. induction nodes as [|x nodes IH]; intros f; cbn [foldl]; [done|].
  unfold assignLine_step at 2.
  destruct (node_Span f x) as [start e]. cbn [takeLine]. rewrite node_update_id; [apply IH|].
  apply set_Before_id.
Qed.


(** *** Blank lines of blocks in the tree *)

Definition spaced_block (b : LineBlock) : Prop :=
  Forall (fun l => no_double (Before (line_Comments l))) (blk_Line b)
  /\ no_double (Before (rp_Comments (blk_RParen b)))
  /\ lead_real (opening b).

Definition spaced_stmt (e : Expr) : Prop :=
  match e with
  | ELineBlock b => spaced_block b
  | _ => True
  end.

Definition spaced (f : FileSyntax) : Prop := Forall spaced_stmt (fs_Stmt f).

Lemma good_file_spaced f : good_file f -> spaced f.
Proof.
  intros [_ Hs]. unfold spaced. eapply Forall_impl; [done|].
  intros [l|b|c]; simpl; try done. intros []. split_and!; try done.
  eapply Forall_impl; [done|]. by intros l [].
Qed.

Lemma good_file_suffixes f : good_file f -> suffixes f = [].
Proof.
  intros [Hc Hs]. unfold suffixes. rewrite Hc. simpl.
  induction Hs as [|e stmts He _ IH]; simpl; [done|]. rewrite IH, app_nil_r.
  destruct e as [l|b|c]; simpl in *.
  - unfold line_suffixes. by destruct He as [-> _].
  - destruct He as [[Hb _] Hlp [Hr _] Hl _ _]. unfold block_suffixes.
    rewrite Hb, Hlp, Hr. simpl.
    rewrite app_nil_r. induction Hl as [|l ls [[Hl _] _] _ IHl]; simpl; [done|].
    unfold line_suffixes at 1. by rewrite Hl, IHl.
  - by destruct He as [-> _].
Qed.

Lemma spaced_insert f i e e' :
  fs_Stmt f !! i = Some e -> (spaced_stmt e -> spaced_stmt e') ->
  spaced f -> spaced (fs_set_Stmt (<[i := e']> (fs_Stmt f)) f).
Proof.
  unfold spaced. simpl. intros Hi He Hs. apply Forall_insert; [done|].
  apply He. rewrite Forall_forall in Hs. apply Hs. by eapply list_elem_of_lookup_2.
Qed.

(** A write that leaves [Before] lists alone keeps the blank lines. *)
Lemma spaced_update g x f :
  (forall c, Before (g c) = Before c) -> spaced f -> spaced (node_update g x f).
Proof.
  intros Hg Hs. destruct x as [|i|i|i j|i]; simpl; try done; unfold block_update;
    destruct (fs_Stmt f !! i) as [e|] eqn:E; try done.
  - eapply spaced_insert; [done| |done]. destruct e as [l|b|c]; simpl; try done.
  - destruct e as [l|b|c]; try done. eapply spaced_insert; [done| |done]. done.
  - destruct e as [l|b|c]; try done. eapply spaced_insert; [done| |done]. simpl.
    destruct (blk_Line b !! j) as [l|] eqn:El; [|done].
    unfold spaced_block, opening. simpl. intros (Hl & Hr & Ho). split_and!; [|done|].
    + apply Forall_insert; [done|]. simpl. rewrite Hg.
      rewrite Forall_forall in Hl. apply Hl. by eapply list_elem_of_lookup_2.
    + destruct (blk_Line b) as [|l0 ls]; [done|]. destruct j as [|j]; simpl in *; [|done].
      injection El as ->. by rewrite Hg.
  - destruct e as [l|b|c]; try done. eapply spaced_insert; [done| |done]. simpl.
    unfold spaced_block, opening. simpl. rewrite Hg. done.
Qed.

Lemma spaced_fold {A} (step : FileSyntax * A -> node -> FileSyntax * A) nodes f a :
  (forall f a x, spaced f -> spaced (step (f, a) x).1) ->
  spaced f -> spaced (foldl step (f, a) nodes).1.
Proof.
  intros Hstep. revert f a. induction nodes as [|x nodes IH]; intros f a Hs; cbn [foldl]; [done|].
  specialize (Hstep f a x Hs). destruct (step (f, a) x) as [f1 a1]. by apply IH.
Qed.

Lemma assignSuffix_step_spaced f a x :
  spaced f -> spaced (assignSuffix_step (f, a) x).1.
Proof.
  intros Hf. unfold assignSuffix_step. destruct (node_Span f x) as [st e].
  destruct x; try done; destruct (negb _); try done;
    destruct (takeSuffix e (reverse a)); cbn [fst]; by apply spaced_update.
Qed.

Lemma reverse_fold_spaced nodes f :
  spaced f ->
  spaced (foldl (fun f x => node_update (fun xcom => set_Suffix (reverse (Suffix xcom)) xcom) x f)
                f nodes).
Proof.
  revert f. induction nodes as [|x nodes IH]; intros f Hf; cbn [foldl]; [done|].
  apply IH. by apply spaced_update.
Qed.

Lemma assignComments_spec s :
  Forall (fun c => com_Suffix c = true) (comments s) -> good_file (file s) ->
  let f := assignComments s in
  suffixes f ++ Before (fs_Comments f) ++ After (fs_Comments f) ≡ₚ comments s
  /\ spaced f.
Proof.
  intros Hc Hg. unfold assignComments.
  pose proof (order_valid (file s)) as Hvalid.
  destruct (order (file s)) as [pre post]. simpl in Hvalid.
  assert (filter (fun com => com_Suffix com = false) (comments s) = []) as ->.
  { induction Hc as [|c cs Hc1 _ IH]; [done|]. rewrite filter_cons_False; [done|congruence]. }
  assert (filter (fun com => com_Suffix com = true) (comments s) = comments s) as ->.
  { induction Hc as [|c cs Hc1 _ IH]; [done|]. rewrite filter_cons_True by done. by rewrite IH. }
  rewrite assignLine_fold_nil.
  set (f1 := fs_set_Comments _ (file s)).
  assert (f1 = file s) as ->.
  { subst f1. destruct (file s) as [n [] st]. unfold fs_set_Comments, set_After. simpl.
    by rewrite app_nil_r. }
  assert (Forall (valid (file s)) (reverse post)) as Hv.
  { apply Forall_forall. intros x Hx. rewrite elem_of_reverse in Hx. auto. }
  pose proof (assignSuffix_fold (reverse post) (file s) (comments s) Hv) as Hfold.
  pose proof (spaced_fold assignSuffix_step (reverse post) (file s) (comments s)
                assignSuffix_step_spaced (good_file_spaced _ Hg)) as Hsp.
  destruct (foldl assignSuffix_step (file s, comments s) (reverse post)) as [f2 rest].
  destruct Hfold as (Hp & Hs & Hb & Ha).
  pose proof (reverse_fold post f2) as Hrev. cbv zeta in Hrev.
  pose proof (reverse_fold_spaced post f2 Hsp) as Hs3.
  set (f3 := foldl _ f2 post) in *. destruct Hrev as (Hp3 & Hb3 & Ha3).
  destruct Hg as [Hfc Hstmts]. cbv zeta. split; [|done].
  simpl. rewrite Hp3, Ha3, Hb3, Ha, Hb, Hfc. simpl. rewrite app_nil_r.
  rewrite Hp. rewrite (good_file_suffixes (file s)); [done|by split].
Qed.

Section WithLib.
Context `{GoLib}.

(** The parser ends on every input, with no error recorded when it
    returns and exactly one when it panics. *)
Lemma parsed_spec file_ data :
  match parsed file_ data with
  | Ok _ s => parseErrors s = [] /\ PInv s /\ filename s = file_
  | Panic s => exists e, parseErrors s = [e]
  | Fuel => False
  end.
Proof.
  unfold parsed.
  change (wp (run readToken; parseFile)
             (fun _ s => parseErrors s = [] /\ PInv s /\ filename s = file_)
             (fun s => exists e, parseErrors s = [e]) (newInput file_ data)).
  eapply wp_bind, wp_mono; [apply readToken_spec| |].
  - cbv beta. intros [] s1 (Hf & _ & Hok). destruct Hf.
    eapply wp_mono; [apply parseFile_spec| |].
    + done.
    + auto.
    + cbv beta. intros [] s2 ([Hn He _] & HI). simpl in *.
      split_and!; [by rewrite He, fr_errors0|done|by rewrite Hn, fr_filename0].
    + cbv beta. intros s2 [e He]. exists e. rewrite He. by rewrite fr_errors0.
  - cbv beta. intros s1 [_ [e He]]. exists e. done.
Qed.


(** [parse] returns on every input. *)
Lemma parse_cases file_ data :
  (exists s, parsed file_ data = Ok tt s /\ parseErrors s = [] /\ PInv s
             /\ filename s = file_
             /\ parse file_ data
                 = Some (Some (assignComments (set_file (fs_set_Name (filename s) (file s)) s)), []))
  \/ (exists e, parse file_ data = Some (None, [e])).
Proof.
  pose proof (parsed_spec file_ data) as Hp. unfold parse.
  destruct (parsed file_ data) as [[] s|s|]; [|right|done].
  - left. destruct Hp as (He & HI & Hn). exists s. rewrite He. simpl. done.
  - destruct Hp as [e ->]. by exists e.
Qed.

End WithLib.
End AssignFacts.

(** ** The reader's claims *)

Module ReaderClaims.
Import Reader ReaderFacts LexerFacts ParserFacts Assign AssignFacts.



(** A document with a block comment on each of its last two lines. *)
Definition two_block_comments : list ascii := bytes "module m
a /* one */
b /* two */
".

Definition second_block_comment : list ascii := bytes "module m
b /* two */
".

(** A block with two blank lines between its two lines. *)
Definition two_blank_lines : list ascii := bytes "x (
a


b
)
".

(** A block with one blank line between its two lines, and no comment. *)
Definition one_blank_line : list ascii := bytes "x (
a

b
)
".


Section WithLib.
Context `{GoLib}.

(** C1, as the code has it.  On every input document [parse] returns
    (its loops end), and what it returns at its boundary is either the
    syntax tree with no error, or no tree and an error list that holds
    exactly one error: [in.Error] panics when it records an error, so
    lexing and parsing stop at the first malformed token and a later
    one is not reported. *)
Theorem parse_reports_first_error_only (file_ : string) (data : list ascii) :
  (exists f, parse file_ data = Some (Some f, []))
  \/ (exists e, parse file_ data = Some (None, [e])).
Proof.
  destruct (parse_cases file_ data) as [(s & _ & _ & _ & _ & Hp)|He]; eauto.
Qed.

(** C4, as the code has it.  When a document parses, the comments the
    lexer accumulated in [in.comments] (the end-of-line comments) are,
    as a multiset and hence in number, the comments of all the nodes'
    [Suffix] lists together with the file-level [Before] and [After]
    lists: [assignComments] drops none and attaches none twice.
    ([Before] lists of nodes are not part of the equation: the parser
    fills them itself, with the whole-line comments and with the
    placeholders of blank lines.) *)
Theorem assigned_comments_conserved (file_ : string) (data : list ascii) (f : FileSyntax) :
  parse file_ data = Some (Some f, []) ->
  suffixes f ++ Before (fs_Comments f) ++ After (fs_Comments f) ≡ₚ lexed_comments file_ data
  /\ length (suffixes f) + length (Before (fs_Comments f)) + length (After (fs_Comments f))
     = length (lexed_comments file_ data).
Proof.
  intros Hparse.
  destruct (parse_cases file_ data) as [(s & Hs & He & HI & Hn & Hp)|[e He]];
    [|congruence].
  rewrite Hp in Hparse. injection Hparse as <-.
  unfold lexed_comments. rewrite Hs.
  set (s' := set_file _ s).
  destruct (assignComments_spec s') as [Hperm _].
  - apply HI.
  - destruct (pi_file _ HI) as [Hc Hst]. split; simpl; done.
  - change (comments s') with (comments s) in Hperm. split; [done|].
    apply Permutation_length in Hperm. rewrite !length_app in Hperm. lia.
Qed.


(** C6, as the code has it.  (1) When the loop of [parseLineBlock]
    meets a newline token, it consumes it and goes round again with
    the same block; the comments that wait for the next element gain
    one empty placeholder when the blank line follows a line of the
    block (and no comment waits yet) or follows a comment that is not
    itself a placeholder, and are left as they are otherwise, that is
    right after the opening parenthesis and after another blank line.
    (2) So in every tree that [parse] returns, no [Before] list of a
    line of a block or of its closing parenthesis holds two
    placeholders side by side, and the comments that open a block do
    not begin with a placeholder: a run of blank lines is kept as one
    placeholder, and blank lines after the opening parenthesis are not
    kept. *)
Theorem blank_lines_of_block_kept_once :
  (forall (x : LineBlock) (cs : list Comment) (s s' : input) (tok : token),
     peek s = rune "010" -> lex s = Ok tok s' ->
     exists cs',
       parseLineBlock_body (x, cs) s = Ok (inl (x, cs')) s'
       /\ ((cs = [] /\ blk_Line x <> []) \/ (exists c, last cs = Some c /\ com_Token c <> "") ->
           cs' = cs ++ [emptyComment])
       /\ (~ ((cs = [] /\ blk_Line x <> []) \/ (exists c, last cs = Some c /\ com_Token c <> "")) ->
           cs' = cs))
  /\ (forall (file_ : string) (data : list ascii) (f : FileSyntax),
        parse file_ data = Some (Some f, []) -> spaced f).
Proof.
  split.
  - intros x cs s s' tok Hpeek Hlex.
    exists (if keepsBlankLine x cs then cs ++ [emptyComment] else cs).
    pose proof (keepsBlankLine_true x cs) as Hk. split_and!.
    + unfold parseLineBlock_body, bind, gets. rewrite Hpeek. simpl. rewrite Hlex.
      by destruct (keepsBlankLine x cs).
    + intros Hc. apply Hk in Hc. by rewrite Hc.
    + intros Hc. destruct (keepsBlankLine x cs); [|done]. destruct Hc. by apply Hk.
  - intros file_ data f Hparse.
    destruct (parse_cases file_ data) as [(s & Hs & He & HI & Hn & Hp)|[e He]];
      [|congruence].
    rewrite Hp in Hparse. injection Hparse as <-.
    set (s' := set_file _ s).
    destruct (assignComments_spec s') as [_ Hsp]; [apply HI| |done].
    destruct (pi_file _ HI) as [Hc Hst]. split; simpl; done.
Qed.

End WithLib.

(** C1, as stated, fails: of the two block comments of the document
    only the first is reported, although the second is an error of its
    own. *)
Lemma two_malformed_tokens_one_error :
  parse (H := asciiLib) "gno.mod" two_block_comments
  = Some (None, [modfile_Error "gno.mod" (mkPos 2 3 11) "" "" blockCommentMsg])
  /\ parse (H := asciiLib) "gno.mod" second_block_comment
     = Some (None, [modfile_Error "gno.mod" (mkPos 2 3 11) "" "" blockCommentMsg]).
Proof. split; vm_compute; reflexivity. Qed.

(** C4, as stated, fails: the document has no comment at all, and its
    tree has one entry in a [Before] list, the placeholder of the blank
    line. *)
Lemma placeholder_is_attached_without_comment :
  exists f,
    parse (H := asciiLib) "gno.mod" one_blank_line = Some (Some f, [])
    /\ attached_count f = 1
    /\ length (lexed_comments (H := asciiLib) "gno.mod" one_blank_line) = 0
    /\ comment_tokens (H := asciiLib) "gno.mod" one_blank_line = 0.
Proof. eexists. split; [vm_compute; reflexivity|]. split_and!; vm_compute; reflexivity. Qed.

(** C6, as stated, fails: two blank lines inside the block, one
    placeholder in the tree. *)
Lemma two_blank_lines_one_placeholder :
  exists f,
    parse (H := asciiLib) "gno.mod" two_blank_lines = Some (Some f, [])
    /\ blank_lines two_blank_lines = 2
    /\ placeholders f = 1.
Proof. eexists. split; [vm_compute; reflexivity|]. split; vm_compute; reflexivity. Qed.

(** A manifest with four end-of-line comments. *)
Definition four_suffix_comments : list ascii := bytes "module m // the module
require (
  a v1.0.0 // first
  b v1.0.0 // second
) // done
".

Lemma assigned_comments_conserved_witness :
  exists f,
    parse (H := asciiLib) "gno.mod" four_suffix_comments = Some (Some f, [])
    /\ (suffixes f ++ Before (fs_Comments f) ++ After (fs_Comments f)
          ≡ₚ lexed_comments (H := asciiLib) "gno.mod" four_suffix_comments
        /\ length (suffixes f) + length (Before (fs_Comments f)) + length (After (fs_Comments f))
           = length (lexed_comments (H := asciiLib) "gno.mod" four_suffix_comments)).
Proof.
  eexists. split; [vm_compute; reflexivity|].
  apply (assigned_comments_conserved (H := asciiLib) "gno.mod"). vm_compute. reflexivity.
Defined.

Example four_suffix_comments_lexed :
  length (lexed_comments (H := asciiLib) "gno.mod" four_suffix_comments) = 4.
Proof. vm_compute. reflexivity. Qed.


Lemma blank_lines_of_block_witness :
  exists f,
    parse (H := asciiLib) "gno.mod" two_blank_lines = Some (Some f, []) /\ spaced f.
Proof.
  eexists. split; [vm_compute; reflexivity|].
  apply (proj2 (blank_lines_of_block_kept_once (H := asciiLib)) "gno.mod" two_blank_lines).
  vm_compute. reflexivity.
Defined.

End ReaderClaims.

(** ** What [assignComments] leaves alone *)

Module BareFacts.
Import Reader Assign.

(** A tree without its comments: what is left is the structure, the
    tokens and the positions. *)
Definition bare_line (l : Line) : Line := line_set_Comments noComments l.

Definition bare_block (b : LineBlock) : LineBlock :=
  mkLineBlock noComments (blk_Start b) (mkLParen noComments (lp_Pos (blk_LParen b)))
              (blk_Token b) (bare_line <$> blk_Line b)
              (mkRParen noComments (rp_Pos (blk_RParen b))).

Definition bare_stmt (e : Expr) : Expr :=
  match e with
  | ELine l => ELine (bare_line l)
  | ELineBlock b => ELineBlock (bare_block b)
  | ECommentBlock c => ECommentBlock (cb_set_Comments noComments c)
  end.

Definition bare (f : FileSyntax) : FileSyntax :=
  mkFile (fs_Name f) noComments (bare_stmt <$> fs_Stmt f).

Lemma bare_insert f i e e' :
  fs_Stmt f !! i = Some e -> bare_stmt e' = bare_stmt e ->
  bare (fs_set_Stmt (<[i := e']> (fs_Stmt f)) f) = bare f.
Proof.
  intros Hi He. unfold bare. cbn. f_equal.
  rewrite list_fmap_insert, He. apply list_insert_id. by rewrite list_lookup_fmap, Hi.
Qed.

Lemma bare_block_update g i f :
  (forall b, bare_block (g b) = bare_block b) -> bare (block_update g i f) = bare f.
Proof.
  intros Hg. unfold block_update.
  destruct (fs_Stmt f !! i) as [[l|b|c]|] eqn:Hi; try done.
  apply bare_insert with (e := ELineBlock b); [done|]. cbn. by rewrite Hg.
Qed.

(** A write through [x.Comment()] changes comments only. *)
Lemma bare_node_update g x f : bare (node_update g x f) = bare f.
Proof.
  destruct x as [|i|i|i j|i]; cbn.
  - done.
  - destruct (fs_Stmt f !! i) as [e|] eqn:Hi; [|done].
    apply bare_insert with (e := e); [done|]. by destruct e.
  - by apply bare_block_update.
  - apply bare_block_update. intros b.
    destruct (blk_Line b !! j) as [l|] eqn:Hj; [|done].
    unfold bare_block. cbn. f_equal.
    rewrite list_fmap_insert. apply list_insert_id. by rewrite list_lookup_fmap, Hj.
  - by apply bare_block_update.
Qed.

Lemma bare_assignLine nodes f line :
  bare (foldl assignLine_step (f, line) nodes).1 = bare f.
Proof.
  revert f line. induction nodes as [|x nodes IH]; intros f line; [done|]. cbn [foldl].
  unfold assignLine_step at 2. destruct (node_Span f x) as [start e].
  destruct (takeLine start line) as [taken rest]. by rewrite IH, bare_node_update.
Qed.

Lemma bare_assignSuffix nodes f suffix :
  bare (foldl assignSuffix_step (f, suffix) nodes).1 = bare f.
Proof.
  revert f suffix. induction nodes as [|x nodes IH]; intros f suffix; [done|]. cbn [foldl].
  unfold assignSuffix_step at 2. destruct (node_Span f x) as [start e].
  destruct x; try (destruct (negb _); [apply IH|]);
    try (destruct (takeSuffix e (reverse suffix)) as [taken rest];
         by rewrite IH, bare_node_update).
  apply IH.
Qed.

Lemma bare_reverse nodes f :
  bare (foldl (fun f x => node_update (fun xcom => set_Suffix (reverse (Suffix xcom)) xcom) x f)
              f nodes) = bare f.
Proof.
  revert f. induction nodes as [|x nodes IH]; intros f; [done|]. cbn [foldl].
  by rewrite IH, bare_node_update.
Qed.

Lemma bare_assignComments s : bare (assignComments s) = bare (file s).
Proof.
  unfold assignComments. destruct (order (file s)) as [pre post].
  pose proof (bare_assignLine pre (file s)
                (filter (fun com => com_Suffix com = false) (comments s))) as H1.
  destruct (foldl assignLine_step _ pre) as [f1 line]. cbn in H1.
  set (f2 := fs_set_Comments _ f1).
  pose proof (bare_assignSuffix (reverse post) f2
                (filter (fun com => com_Suffix com = true) (comments s))) as H2.
  destruct (foldl assignSuffix_step _ (reverse post)) as [f3 suffix]. cbn in H2.
  pose proof (bare_reverse post f3) as H3.
  set (f4 := foldl _ f3 post) in *.
  transitivity (bare f4); [done|]. rewrite H3, H2. subst f2. by rewrite <- H1.
Qed.

(** X25.  [assignComments] changes comment lists only: the statements of
    the tree it returns, their tokens, their lines and all positions
    are those of the tree the parser built. *)
Theorem assignComments_changes_comments_only (s : input) :
  bare (assignComments s) = bare (file s).
Proof. apply bare_assignComments. Qed.

End BareFacts.

(** ** The tokens of a parsed tree *)

Module TokenFacts.
Import Reader Assign ReaderFacts LexerFacts BareFacts.

(** [post m Q s]: when [m], run from [s], returns, the value and the
    state satisfy [Q]. *)
Definition post {A} (m : M A) (Q : A -> input -> Prop) (s : input) : Prop :=
  match m s with
  | Ok a s' => Q a s'
  | _ => True
  end.

Lemma post_ret {A} (a : A) Q s : Q a s -> post (ret a) Q s.
Proof. done. Qed.

Lemma post_gets {A} (f : input -> A) Q s : Q (f s) s -> post (gets f) Q s.
Proof. done. Qed.

Lemma post_modify f Q s : Q tt (f s) -> post (modify f) Q s.
Proof. done. Qed.

Lemma post_Error {A} e (Q : A -> input -> Prop) s : post (Error e) Q s.
Proof. done. Qed.

Lemma post_bind {A B} (m : M A) (k : A -> M B) Q s :
  post m (fun a s' => post (k a) Q s') s -> post (bind m k) Q s.
Proof. unfold post, bind. destruct (m s); done. Qed.

Lemma post_mono {A} (m : M A) (Q Q' : A -> input -> Prop) s :
  post m Q s -> (forall a s', Q a s' -> Q' a s') -> post m Q' s.
Proof. unfold post. destruct (m s); eauto. Qed.

Lemma wp_post {A} (m : M A) Q E s : wp m Q E s -> post m Q s.
Proof. unfold wp, post. by destruct (m s). Qed.

(** The rule of loops: an invariant is enough, as a loop that runs out
    of fuel does not return. *)
Lemma post_loop {A B} (I : A -> input -> Prop) (body : A -> M (A + B)) Q :
  (forall a s, I a s ->
     post (body a) (fun r s' => match r with inl a' => I a' s' | inr b => Q b s' end) s) ->
  forall fuel a s, I a s -> post (loop fuel body a) Q s.
Proof.
  intros Hbody. induction fuel as [|fuel IH]; intros a s HI; [done|].
  specialize (Hbody a s HI). unfold post in *. simpl.
  destruct (body a s) as [[a'|b] s'| |]; try done. by apply IH.
Qed.

Lemma post_loop_tokens {A B} (I : A -> input -> Prop) (body : A -> M (A + B)) Q :
  (forall a s, I a s ->
     post (body a) (fun r s' => match r with inl a' => I a' s' | inr b => Q b s' end) s) ->
  forall a s, I a s -> post (loop_tokens body a) Q s.
Proof.
  intros Hbody a s HI. unfold loop_tokens.
  change (post (loop (S (pending s)) body a) Q s). by eapply post_loop.
Qed.

Ltac post_step :=
  lazymatch goal with
  | |- post (bind _ _) _ _ => apply post_bind
  | |- post (ret _) _ _ => apply post_ret
  | |- post (gets _) _ _ => apply post_gets
  | |- post (modify _) _ _ => apply post_modify
  | |- post (appendStmt _) _ _ => apply post_modify
  | |- post (Error _) _ _ => apply post_Error
  | |- post (runtime_panic _) _ _ => apply post_Error
  | |- post (if ?b then _ else _) _ _ => destruct b eqn:?
  | |- post (match ?x with _ => _ end) _ _ => destruct x eqn:?
  end.

Ltac post_go := repeat post_step.

Tactic Notation "post_call" constr(lem) "as" simple_intropattern(r) simple_intropattern(s')
    simple_intropattern(Hpost) :=
  lazymatch goal with
  | |- post (bind _ _) _ _ => apply post_bind
  | |- _ => idtac
  end;
  eapply post_mono; [apply lem|cbv beta; intros r s' Hpost].

(** The invariant: a line that is a statement has tokens and is not
    marked as in a block; a block has tokens before its parenthesis,
    and its lines have tokens and are marked as in a block; a comment
    block has a comment. *)
Definition tok_line (inBlock : bool) (l : Line) : Prop :=
  line_Token l <> [] /\ line_InBlock l = inBlock.

Definition tok_stmt (e : Expr) : Prop :=
  match e with
  | ELine l => tok_line false l
  | ELineBlock b => blk_Token b <> [] /\ Forall (tok_line true) (blk_Line b)
  | ECommentBlock c => True
  end.

Definition tok_file (f : FileSyntax) : Prop := Forall tok_stmt (fs_Stmt f).

Section WithLib.
Context `{GoLib}.

Lemma lex_file s : post lex (fun _ s' => file s' = file s) s.
Proof.
  eapply post_mono; [eapply wp_post, lex_spec|]. cbv beta.
  intros tok s' (_ & Hf & _). by destruct Hf.
Qed.

Lemma app_not_nil {A} (l k : list A) : l <> [] -> l ++ k <> [].
Proof. by destruct l. Qed.

Lemma parseLine_tokens s :
  post parseLine (fun l s' => file s' = file s /\ tok_line true l) s.
Proof.
  unfold parseLine. post_call (lex_file s) as tok s1 H1.
  apply post_bind. post_go.
  apply (post_loop_tokens (fun st s' => file s' = file s /\ st.2 <> [])); [|done].
  intros [end_ tokens] s2 [Hf Ht]. cbn in Ht. unfold parseLine_body.
  post_call (lex_file s2) as tok2 s3 H3. post_go; cbn.
  - split; [congruence|done].
  - split; [congruence|]. by apply app_not_nil.
Qed.

Definition block_ok (tokens : list string) (x : LineBlock) : Prop :=
  blk_Token x = tokens /\ Forall (tok_line true) (blk_Line x).

Lemma parseLineBlock_tokens start tokens lparen s :
  post (parseLineBlock start tokens lparen)
       (fun x s' => file s' = file s /\ block_ok tokens x) s.
Proof.
  unfold parseLineBlock.
  apply (post_loop_tokens (fun st s' => file s' = file s /\ block_ok tokens st.1)).
  2:{ split; [done|]. by split. }
  intros [x comments] s1 [Hf Hx]. unfold parseLineBlock_body.
  post_step. post_step. post_step.
  { post_call (lex_file s1) as tok s2 H2. post_go. split; [congruence|done]. }
  post_step.
  { post_call (lex_file s1) as tok s2 H2. post_go; (split; [congruence|done]). }
  post_step.
  { post_call (lex_file s1) as tok s2 H2. post_go. split; [congruence|done]. }
  post_step.
  { post_go. }
  post_step.
  { post_call (lex_file s1) as rparen s2 H2. post_step. post_step. apply post_bind.
    post_step; [post_go|].
    post_step. post_call (lex_file s2) as tok s3 H3. post_go.
    split; [congruence|]. destruct Hx. by split. }
  post_call (parseLine_tokens s1) as l s2 [H2 Hl]. post_go.
  split; [congruence|]. destruct Hx as [Ht Hls]. split; [done|]. cbn.
  apply Forall_app. split; [done|]. apply Forall_singleton. done.
Qed.

Lemma tok_file_app f e :
  tok_file f -> tok_stmt e -> tok_file (fs_set_Stmt (fs_Stmt f ++ [e]) f).
Proof. intros Hf He. apply Forall_app. split; [done|]. by apply Forall_singleton. Qed.

Lemma parseStmt_tokens s :
  tok_file (file s) -> post parseStmt (fun _ s' => tok_file (file s')) s.
Proof.
  intros Hfile. unfold parseStmt. post_call (lex_file s) as tok s1 H1.
  apply (post_loop_tokens (fun st s' => file s' = file s /\ st.2 <> [])); [|done].
  intros [end_ tokens] s2 [Hf Ht]. cbn in Ht. unfold parseStmt_body.
  post_call (lex_file s2) as tok2 s3 H3.
  assert (Hfile3 : tok_file (file s3)) by (by rewrite H3, Hf).
  post_step.
  { post_go. cbn. apply tok_file_app; [done|]. by split. }
  post_step.
  2:{ post_go. cbn. split; [congruence|]. by apply app_not_nil. }
  post_step. post_step. post_step.
  { post_call (parseLineBlock_tokens (tok_pos tok) tokens tok2 s3) as b s4 [H4 [Hb1 Hb2]].
    post_go. cbn. rewrite H4. apply tok_file_app; [done|]. split; [congruence|done]. }
  post_step.
  2:{ post_go. cbn. split; [congruence|]. by apply app_not_nil. }
  post_call (lex_file s3) as rparen s4 H4. post_step. post_step. post_step.
  - post_call (lex_file s4) as tok5 s5 H5. post_go. cbn.
    rewrite H5, H4. apply tok_file_app; [done|]. by split.
  - post_go. cbn. split; [congruence|]. by apply app_not_nil.
Qed.

Lemma tok_stmt_set_Comments c e : tok_stmt e -> tok_stmt (expr_set_Comments c e).
Proof. by destruct e. Qed.

Lemma setLastBefore_tokens before s :
  tok_file (file s) -> post (setLastBefore before) (fun _ s' => tok_file (file s')) s.
Proof.
  intros Hfile. unfold post, setLastBefore.
  destruct (last (fs_Stmt (file s))) as [e|] eqn:Hlast; [|done]. cbn.
  apply Forall_insert; [done|]. apply tok_stmt_set_Comments.
  apply (Forall_forall tok_stmt (fs_Stmt (file s))); [done|].
  apply last_Some in Hlast as [l' ->]. apply elem_of_app. right. by left.
Qed.

Lemma parseFile_tokens s : post parseFile (fun _ s' => tok_file (file s')) s.
Proof.
  unfold parseFile. post_step. post_step.
  apply (post_loop_tokens (fun _ s' => tok_file (file s'))); [|by constructor].
  intros cb s1 Hfile. unfold parseFile_body. post_step. post_step. post_step.
  { post_call (lex_file s1) as tok s2 H2. post_go; cbn; rewrite H2; try done.
    by apply tok_file_app. }
  post_step.
  { post_call (lex_file s1) as tok s2 H2. post_go. by rewrite H2. }
  post_step.
  { post_go; cbn; try done. by apply tok_file_app. }
  post_call (parseStmt_tokens s1 Hfile) as [] s2 H2.
  post_step; [|by post_go].
  post_call (setLastBefore_tokens (Before (cb_Comments c)) s2 H2) as [] s3 H3. by post_go.
Qed.

Lemma tok_line_bare inBlock l l' :
  bare_line l = bare_line l' -> tok_line inBlock l -> tok_line inBlock l'.
Proof.
  intros Hb [Ht Hi]. split.
  - apply (f_equal line_Token) in Hb. cbn in Hb. congruence.
  - apply (f_equal line_InBlock) in Hb. cbn in Hb. congruence.
Qed.

Lemma tok_lines_bare inBlock (ls ls' : list Line) :
  bare_line <$> ls = bare_line <$> ls' ->
  Forall (tok_line inBlock) ls -> Forall (tok_line inBlock) ls'.
Proof.
  revert ls'. induction ls as [|l ls IH]; intros [|l' ls'] Hb; try done.
  rewrite !fmap_cons in Hb.
  assert (He : bare_line l = bare_line l') by congruence.
  assert (Hl : bare_line <$> ls = bare_line <$> ls') by congruence.
  intros [He1 Hl1]%Forall_cons. apply Forall_cons.
  split; [by eapply tok_line_bare|eauto].
Qed.

Lemma tok_stmt_bare e e' : bare_stmt e = bare_stmt e' -> tok_stmt e -> tok_stmt e'.
Proof.
  destruct e as [l|b|c], e' as [l'|b'|c']; try done; cbn.
  - intros Hb. apply tok_line_bare. congruence.
  - intros Hb [Ht Hls]. assert (Hb' : bare_block b = bare_block b') by congruence. split.
    + apply (f_equal blk_Token) in Hb'. cbn in Hb'. congruence.
    + apply (f_equal blk_Line) in Hb'. cbn in Hb'. by eapply tok_lines_bare.
Qed.

Lemma tok_file_bare f f' : bare f = bare f' -> tok_file f -> tok_file f'.
Proof.
  intros Hb. apply (f_equal fs_Stmt) in Hb. cbn in Hb. unfold tok_file.
  revert Hb. generalize (fs_Stmt f) (fs_Stmt f'). clear.
  induction l as [|e l IH]; intros [|e' l'] Hb; try done.
  rewrite !fmap_cons in Hb.
  assert (He : bare_stmt e = bare_stmt e') by congruence.
  assert (Hl : bare_stmt <$> l = bare_stmt <$> l') by congruence.
  intros [He1 Hl1]%Forall_cons. apply Forall_cons.
  split; [by eapply tok_stmt_bare|eauto].
Qed.

(** X26.  In every tree that [parse] returns, a statement that is a line has
    at least one token and is not marked as in a block, and a block
    has at least one token before its parenthesis while each of its
    lines has at least one token and is marked as in a block. *)
Theorem parse_lines_have_tokens (file_ : string) (data : list ascii) (f : FileSyntax)
    (errs : list goerr) :
  parse file_ data = Some (Some f, errs) ->
  Forall (fun e => match e with
                   | ELine l => line_Token l <> [] /\ line_InBlock l = false
                   | ELineBlock b =>
                       blk_Token b <> []
                       /\ Forall (fun l => line_Token l <> [] /\ line_InBlock l = true)
                                 (blk_Line b)
                   | ECommentBlock _ => True
                   end) (fs_Stmt f).
Proof.
  unfold parse, parsed.
  assert (Hpost : post (run readToken; parseFile) (fun _ s => tok_file (file s))
                       (newInput file_ data)).
  { apply post_bind. eapply post_mono; [eapply wp_post, readToken_spec|]. cbv beta.
    intros [] s1 _. apply parseFile_tokens. }
  unfold post in Hpost.
  destruct ((run readToken; parseFile) (newInput file_ data)) as [[] s|s|]; [|done..].
  destruct (0 <? length (parseErrors s))%nat; [done|]. intros [= <- _].
  change (tok_file (assignComments (set_file (fs_set_Name (filename s) (file s)) s))).
  eapply tok_file_bare; [symmetry; apply bare_assignComments|]. done.
Qed.

End WithLib.
End TokenFacts.

(** ** Facts on the editor *)

Module EditFacts.
Import Edit.

(** The first token of a statement: its keyword, unless the statement
    is a comment block or a removed line. *)
Definition firstToken (x : FileStore) (s : Stmt) : option string :=
  match s with
  | SLine l => ln ← f_lines x !! l; head (line_Token ln)
  | SBlock b => blk ← f_blocks x !! b; head (b_Token blk)
  | SComment _ => None
  end.

(** The pointer of a statement leads to a line or to a block, and a
    block has its keyword. *)
Definition valid_stmt (x : FileStore) (s : Stmt) : Prop :=
  match s with
  | SLine l => is_Some (f_lines x !! l)
  | SBlock b => is_Some (firstToken x (SBlock b))
  | SComment _ => True
  end.

(** The pointers to lines a statement holds. *)
Definition stmt_lines (x : FileStore) (s : Stmt) : list loc :=
  match s with
  | SLine l => [l]
  | SBlock b => from_option b_Line [] (f_blocks x !! b)
  | SComment _ => []
  end.

Definition stmt_blocks (s : Stmt) : list loc :=
  match s with
  | SBlock b => [b]
  | _ => []
  end.

Definition line_places (x : FileStore) : list loc := f_Stmt x ≫= stmt_lines x.
Definition block_places (x : FileStore) : list loc := f_Stmt x ≫= stmt_blocks.

(** A file is a tree: the pointers of its statements lead somewhere,
    and no line and no block is reached twice. *)
Definition tree (x : FileStore) : Prop :=
  Forall (valid_stmt x) (f_Stmt x) /\ NoDup (line_places x) /\ NoDup (block_places x).

(** The new line as a statement of its own at the end of the file. *)
Definition atEnd (x : FileStore) (tokens : list string) : FileStore * loc :=
  (set_Stmt (f_Stmt x ++ [SLine (length (f_lines x))])
     (set_lines (f_lines x ++ [newLine tokens false]) x),
   length (f_lines x)).

(** The new line at the end of the lines of block [b]. *)
Definition atEndOfBlock (x : FileStore) (b : loc) (blk : Block) (rest : list string)
  : FileStore * loc :=
  (set_blocks (<[b := b_set_Line (b_Line blk ++ [length (f_lines x)]) blk]> (f_blocks x))
     (set_lines (f_lines x ++ [newLine rest true]) x),
   length (f_lines x)).

(** The statement at place [i], the line [l] with the tokens
    [t :: tail], becomes a block with the keyword [t] that holds the
    line (now [tail]) and the new line. *)
Definition asBlock (x : FileStore) (i : nat) (l : loc) (ln : Line) (t : string)
    (tail rest : list string) : FileStore * loc :=
  (set_Stmt (<[i := SBlock (length (f_blocks x))]> (f_Stmt x))
     (set_blocks (f_blocks x ++ [mkBlock noComments zeroPos (mkLParen noComments zeroPos)
                                         [t] [l; length (f_lines x)]
                                         (mkRParen noComments zeroPos)])
        (set_lines (<[l := line_set_Token tail (line_set_InBlock true ln)]> (f_lines x)
                    ++ [newLine rest true]) x)),
   length (f_lines x)).

Lemma lastOfType_skip x t rest ss tl :
  Forall (valid_stmt x) ss ->
  Forall (fun s => firstToken x s <> Some t) ss ->
  lastOfType x (t :: rest) (ss ++ tl) = lastOfType x (t :: rest) tl.
Proof.
  induction 1 as [|s ss Hs _ IH]; intros Hno; [done|].
  apply Forall_cons in Hno as [Hs' Hno]. specialize (IH Hno).
  destruct s as [l|b|c]; cbn [app lastOfType]; [| |done].
  - destruct Hs as [ln Hln]. cbn in Hs'. rewrite Hln in Hs' |- *. cbn in Hs' |- *.
    destruct (line_Token ln) as [|t' ?]; [done|]. cbn in Hs' |- *.
    destruct (String.eqb_spec t' t); [congruence|done].
  - destruct Hs as [t' Ht']. cbn in Ht', Hs'.
    destruct (f_blocks x !! b) as [blk|]; [|done]. cbn in Ht', Hs' |- *.
    rewrite Ht' in Hs' |- *. cbn.
    destruct (String.eqb_spec t' t); [congruence|done].
Qed.

Lemma lastOfType_none x t rest ss :
  Forall (valid_stmt x) ss ->
  Forall (fun s => firstToken x s <> Some t) ss ->
  lastOfType x (t :: rest) ss = Some ENil.
Proof.
  intros Hv Hno. rewrite <- (app_nil_r ss). by rewrite lastOfType_skip.
Qed.

Lemma lastOfType_hit x t rest s tl :
  firstToken x s = Some t ->
  lastOfType x (t :: rest) (s :: tl)
  = Some (match s with SLine l => EPLine (Some l) | SBlock b => EPBlock (Some b)
                     | SComment _ => ENil end).
Proof.
  destruct s as [l|b|c]; cbn; [| |done].
  - destruct (f_lines x !! l) as [ln|]; [|done]. cbn.
    destruct (line_Token ln) as [|t' ?]; [done|]. cbn. intros [= ->].
    by rewrite String.eqb_refl.
  - destruct (f_blocks x !! b) as [blk|]; [|done]. cbn. intros ->. cbn.
    by rewrite String.eqb_refl.
Qed.

Lemma findLine_none hint ls j :
  (forall l, hint = EPLine (Some l) -> l ∉ ls) -> findLine hint ls j = None.
Proof.
  revert j. induction ls as [|l ls IH]; intros j Hno; [done|]. cbn.
  unfold lineIsHint. case_bool_decide as Hh.
  - exfalso. apply (Hno l Hh). by left.
  - apply IH. intros l' Hl' Hin. apply (Hno l' Hl'). by right.
Qed.

(** The hint is not a statement of [ss] and not a line of a block of
    [ss]. *)
Definition away (x : FileStore) (hint : Expr) (ss : list Stmt) : Prop :=
  (forall l, hint = EPLine (Some l) -> l ∉ ss ≫= stmt_lines x)
  /\ (forall b, hint = EPBlock (Some b) -> b ∉ ss ≫= stmt_blocks).

Lemma away_cons x hint s ss :
  away x hint (s :: ss) ->
  (forall l, hint = EPLine (Some l) -> l ∉ stmt_lines x s)
  /\ (forall b, hint = EPBlock (Some b) -> b ∉ stmt_blocks s)
  /\ away x hint ss.
Proof.
  intros [Hl Hb]. split_and!.
  - intros l Hh Hin. apply (Hl l Hh). rewrite bind_cons. apply elem_of_app. by left.
  - intros b Hh Hin. apply (Hb b Hh). rewrite bind_cons. apply elem_of_app. by left.
  - split.
    + intros l Hh Hin. apply (Hl l Hh). rewrite bind_cons. apply elem_of_app. by right.
    + intros b Hh Hin. apply (Hb b Hh). rewrite bind_cons. apply elem_of_app. by right.
Qed.

Lemma atHint_skip x hint tokens i ss tl :
  Forall (valid_stmt x) ss ->
  away x hint ss ->
  atHint x hint tokens i (ss ++ tl) = atHint x hint tokens (i + length ss) tl.
Proof.
  intros Hv. revert i. induction Hv as [|s ss Hs _ IH]; intros i Ha.
  { cbn. by rewrite Nat.add_0_r. }
  apply away_cons in Ha as (Hl & Hb & Ha). specialize (IH (S i) Ha).
  cbn [length]. replace (i + S (length ss)) with (S i + length ss) by lia.
  destruct s as [l|b|c]; cbn [app atHint]; [| |done].
  - case_bool_decide as Hh; [|done]. exfalso. apply (Hl l Hh). cbn. by left.
  - case_bool_decide as Hh.
    { exfalso. apply (Hb b Hh). cbn. by left. }
    destruct Hs as [t Ht]. cbn in Ht, Hl.
    destruct (f_blocks x !! b) as [blk|]; [|done]. cbn in Hl |- *.
    by rewrite findLine_none.
Qed.

Lemma atHint_none x hint tokens i ss :
  Forall (valid_stmt x) ss ->
  away x hint ss ->
  atHint x hint tokens i ss = Some None.
Proof.
  intros Hv Ha. rewrite <- (app_nil_r ss). by rewrite atHint_skip.
Qed.

(** What every way out of [addLine] does to the store of lines: the
    new line is allocated at the end, and no line changes but the hint
    when it moves into a new block. *)
Definition added (x : FileStore) (hint : Expr) (t : string) (rest : list string)
    (r : FileStore * loc) : Prop :=
  snd r = length (f_lines x) /\
  exists lines0 nl,
    f_lines (fst r) = lines0 ++ [nl]
    /\ (nl = newLine (t :: rest) false \/ nl = newLine rest true)
    /\ (lines0 = f_lines x
        \/ exists h ln tail,
             (hint = ENil \/ hint = EPLine (Some h)) /\ f_lines x !! h = Some ln
             /\ line_Token ln = t :: tail
             /\ lines0 = <[h := line_set_Token tail (line_set_InBlock true ln)]> (f_lines x)).

Lemma added_newLineAfter x hint t rest i :
  added x hint t rest (newLineAfter x (t :: rest) i).
Proof.
  unfold newLineAfter. cbn.
  destruct (_ =? _)%nat; (split; [done|]);
    exists (f_lines x), (newLine (t :: rest) false); cbn; auto.
Qed.

Lemma added_atEnd x hint t rest : added x hint t rest (atEnd x (t :: rest)).
Proof.
  split; [done|]. exists (f_lines x), (newLine (t :: rest) false); cbn; auto.
Qed.

Lemma atHint_total x hint t rest i ss :
  Forall (valid_stmt x) ss ->
  exists r, atHint x hint (t :: rest) i ss = Some r
            /\ from_option (added x hint t rest) True r.
Proof.
  intros Hv. revert i. induction Hv as [|s ss Hs _ IH]; intros i.
  { by exists None. }
  destruct s as [l|b|c]; cbn [atHint]; [| |apply IH].
  - case_bool_decide as Hh; [|apply IH].
    destruct Hs as [ln Hln]. rewrite Hln. cbn.
    destruct (line_Token ln) as [|t' tail] eqn:Htok; cbn.
    { eexists; split; [done|]. apply added_newLineAfter. }
    destruct (String.eqb_spec t' t) as [->|]; cbn.
    + eexists; split; [done|]. split; [done|]. cbn.
      eexists _, _; split_and!; [done|by right|]. right.
      exists l, ln, tail. auto.
    + eexists; split; [done|]. apply added_newLineAfter.
  - destruct Hs as [t' Ht']. cbn in Ht'.
    destruct (f_blocks x !! b) as [blk|]; [|done]. cbn in Ht'.
    assert (Hnew : forall ls, added x hint t rest
              (set_blocks (<[b := b_set_Line ls blk]> (f_blocks x))
                 (set_lines (f_lines x ++ [newLine rest true]) x), length (f_lines x))).
    { intros ls. split; [done|]. exists (f_lines x), (newLine rest true); cbn; auto. }
    case_bool_decide as Hh; cbn; rewrite ?Ht'; cbn.
    + destruct (String.eqb t' t); cbn; eexists; (split; [done|]);
        [apply Hnew|apply added_newLineAfter].
    + destruct (findLine hint (b_Line blk) 0) as [j|]; [|apply IH].
      rewrite ?Ht'. cbn.
      destruct (String.eqb t' t); cbn; eexists; (split; [done|]);
        [apply Hnew|apply added_newLineAfter].
Qed.

Lemma lastOfType_total x t rest ss :
  Forall (valid_stmt x) ss -> is_Some (lastOfType x (t :: rest) ss).
Proof.
  induction 1 as [|s ss Hs _ IH]; [done|].
  destruct s as [l|b|c]; cbn; [| |done].
  - destruct Hs as [ln ->]. cbn. destruct (line_Token ln); [done|]. cbn.
    by destruct (String.eqb _ _).
  - destruct Hs as [t' Ht']. cbn in Ht'.
    destruct (f_blocks x !! b) as [blk|]; [|done]. cbn in Ht' |- *. rewrite Ht'. cbn.
    by destruct (String.eqb _ _).
Qed.

Lemma addLine_total x hint t rest :
  Forall (valid_stmt x) (f_Stmt x) ->
  exists r, addLine x hint (t :: rest) = Some r /\ added x hint t rest r.
Proof.
  intros Hv. unfold addLine.
  case_bool_decide as Hh.
  - subst hint.
    destruct (lastOfType_total x t rest (reverse (f_Stmt x))) as [h Hlast].
    { by apply Forall_reverse. }
    rewrite Hlast. cbn.
    case_bool_decide as Hh; cbn.
    { eexists; split; [done|]. apply (added_atEnd x ENil). }
    destruct (atHint_total x h t rest 0 _ Hv) as ([r|] & -> & Hr); cbn;
      (eexists; split; [done|]); [|apply (added_atEnd x ENil)].
    destruct Hr as (? & lines0 & nl & ? & ? & Hl). split; [done|].
    exists lines0, nl. split_and!; [done..|].
    destruct Hl as [->|(h' & ln & tail & _ & ? & ? & ->)]; [by left|right].
    exists h', ln, tail. auto.
  - cbn. rewrite bool_decide_eq_false_2 by done.
    destruct (atHint_total x hint t rest 0 _ Hv) as ([r|] & -> & Hr); cbn;
      (eexists; split; [done|]); [done|apply added_atEnd].
Qed.

Lemma tree_away_line x pre s post l :
  NoDup (line_places x) -> f_Stmt x = pre ++ s :: post -> l ∈ stmt_lines x s ->
  away x (EPLine (Some l)) pre.
Proof.
  unfold line_places. intros Hnd HS Hl. rewrite HS, bind_app, bind_cons in Hnd.
  apply NoDup_app in Hnd as (_ & Hnd & _). split; [|done].
  intros ? [= <-] Hin. apply (Hnd l Hin), elem_of_app. by left.
Qed.

Lemma tree_away_block x pre b post :
  NoDup (block_places x) -> f_Stmt x = pre ++ SBlock b :: post ->
  away x (EPBlock (Some b)) pre.
Proof.
  unfold block_places. intros Hnd HS. rewrite HS, bind_app, bind_cons in Hnd.
  apply NoDup_app in Hnd as (_ & Hnd & _). split; [done|].
  intros ? [= <-] Hin. apply (Hnd b Hin), elem_of_app. left. by left.
Qed.

Lemma away_nil_pointer x ss : away x (EPLine None) ss.
Proof. by split. Qed.

Lemma insert_middle {A} (pre post : list A) (s s' : A) :
  <[length pre := s']> (pre ++ s :: post) = pre ++ s' :: post.
Proof.
  rewrite insert_app_r_alt by lia. by rewrite Nat.sub_diag.
Qed.

(** The second loop of [addLine] when the hint is the line [l], a
    statement of the file with the keyword of the new line. *)
Lemma atHint_line x t rest pre l ln tail post :
  tree x -> f_Stmt x = pre ++ SLine l :: post ->
  f_lines x !! l = Some ln -> line_Token ln = t :: tail ->
  atHint x (EPLine (Some l)) (t :: rest) 0 (f_Stmt x)
  = Some (Some (asBlock x (length pre) l ln t tail rest)).
Proof.
  intros (Hv & Hnd & _) HS Hln Htok. rewrite HS at 1.
  rewrite atHint_skip.
  - cbn. rewrite bool_decide_eq_true_2 by done. rewrite Hln. cbn. rewrite Htok. cbn.
    by rewrite String.eqb_refl.
  - rewrite HS in Hv. by apply Forall_app in Hv as [? _].
  - eapply tree_away_line; [done..|]. by left.
Qed.

(** The same when the hint is the block [b]. *)
Lemma atHint_block x t rest pre b blk post :
  tree x -> f_Stmt x = pre ++ SBlock b :: post ->
  f_blocks x !! b = Some blk -> head (b_Token blk) = Some t ->
  atHint x (EPBlock (Some b)) (t :: rest) 0 (f_Stmt x)
  = Some (Some (atEndOfBlock x b blk rest)).
Proof.
  intros (Hv & _ & Hnd) HS Hblk Htok. rewrite HS.
  rewrite atHint_skip.
  - cbn. rewrite bool_decide_eq_true_2 by done. rewrite Hblk. cbn. rewrite Htok. cbn.
    by rewrite String.eqb_refl.
  - rewrite HS in Hv. by apply Forall_app in Hv as [? _].
  - by eapply tree_away_block.
Qed.

Lemma lastOfType_last x t rest pre s post :
  tree x -> f_Stmt x = pre ++ s :: post ->
  firstToken x s = Some t ->
  Forall (fun s => firstToken x s <> Some t) post ->
  lastOfType x (t :: rest) (reverse (f_Stmt x))
  = Some (match s with SLine l => EPLine (Some l) | SBlock b => EPBlock (Some b)
                     | SComment _ => ENil end).
Proof.
  intros (Hv & _) HS Hs Hpost. rewrite HS in Hv |- *.
  apply Forall_app in Hv as [_ Hv]. apply Forall_cons in Hv as [_ Hv].
  rewrite reverse_app, reverse_cons, <- app_assoc. cbn.
  rewrite lastOfType_skip by by apply Forall_reverse.
  by apply lastOfType_hit.
Qed.

(** X1.  With no hint and no statement of the type of the new line, the
    line becomes the last statement of the file. *)
Theorem addLine_no_hint_no_statement_of_type (x : FileStore) (t : string)
    (rest : list string) :
  tree x ->
  Forall (fun s => firstToken x s <> Some t) (f_Stmt x) ->
  addLine x ENil (t :: rest) = Some (atEnd x (t :: rest)).
Proof.
  intros (Hv & _) Hno. unfold addLine. rewrite bool_decide_eq_true_2 by done.
  rewrite lastOfType_none by by apply Forall_reverse. cbn.
  by rewrite bool_decide_eq_true_2.
Qed.

(** X2.  With no hint, when the last statement of the type of the new line
    is a block, the line is added at the end of that block (without
    its keyword), whatever follows the block. *)
Theorem addLine_no_hint_last_block (x : FileStore) (t : string) (rest : list string)
    (pre post : list Stmt) (b : loc) (blk : Block) :
  tree x -> f_Stmt x = pre ++ SBlock b :: post ->
  f_blocks x !! b = Some blk -> head (b_Token blk) = Some t ->
  Forall (fun s => firstToken x s <> Some t) post ->
  addLine x ENil (t :: rest) = Some (atEndOfBlock x b blk rest).
Proof.
  intros Ht HS Hblk Htok Hpost. unfold addLine. rewrite bool_decide_eq_true_2 by done.
  assert (Hft : firstToken x (SBlock b) = Some t) by (by cbn; rewrite Hblk).
  rewrite (lastOfType_last x t rest pre (SBlock b) post Ht HS Hft Hpost).
  cbn. rewrite bool_decide_eq_false_2 by done.
  by erewrite atHint_block.
Qed.

(** X3.  With no hint, when the last statement of the type of the new line
    is a line, the two lines become a block in the place of that
    line. *)
Theorem addLine_no_hint_last_line (x : FileStore) (t : string) (rest : list string)
    (pre post : list Stmt) (l : loc) (ln : Line) (tail : list string) :
  tree x -> f_Stmt x = pre ++ SLine l :: post ->
  f_lines x !! l = Some ln -> line_Token ln = t :: tail ->
  Forall (fun s => firstToken x s <> Some t) post ->
  addLine x ENil (t :: rest) = Some (asBlock x (length pre) l ln t tail rest).
Proof.
  intros Ht HS Hln Htok Hpost. unfold addLine. rewrite bool_decide_eq_true_2 by done.
  assert (Hft : firstToken x (SLine l) = Some t) by (by cbn; rewrite Hln; cbn; rewrite Htok).
  rewrite (lastOfType_last x t rest pre (SLine l) post Ht HS Hft Hpost).
  cbn. rewrite bool_decide_eq_false_2 by done.
  by erewrite atHint_line.
Qed.

Lemma addLine_nil_pointer x tokens :
  Forall (valid_stmt x) (f_Stmt x) ->
  addLine x (EPLine None) tokens = Some (atEnd x tokens).
Proof.
  intros Hv. unfold addLine. rewrite bool_decide_eq_false_2 by done.
  cbn [mbind option_bind]. rewrite bool_decide_eq_false_2 by done.
  by rewrite atHint_none by auto using away_nil_pointer.
Qed.

(** X4.  A nil [*Line] given as hint is not the nil [Expr]: the search for
    the last statement of the type is skipped and the hint is found
    nowhere, so the line goes to the end of the file even when the
    file has statements of its type. *)
Theorem addLine_nil_pointer_hint (x : FileStore) (tokens : list string) :
  Forall (valid_stmt x) (f_Stmt x) ->
  addLine x (EPLine None) tokens = Some (atEnd x tokens).
Proof. apply addLine_nil_pointer. Qed.

(** A statement as a hint. *)
Definition hintOf (s : Stmt) : Expr :=
  match s with
  | SLine l => EPLine (Some l)
  | SBlock b => EPBlock (Some b)
  | SComment _ => ENil
  end.

Lemma newLineAfter_middle x tokens pre s post :
  f_Stmt x = pre ++ s :: post ->
  newLineAfter x tokens (length pre)
  = (set_Stmt (pre ++ s :: SLine (length (f_lines x)) :: post)
       (set_lines (f_lines x ++ [newLine tokens false]) x),
     length (f_lines x)).
Proof.
  intros HS. unfold newLineAfter. cbn. rewrite HS.
  rewrite length_app. cbn.
  destruct (Nat.eqb_spec (length pre) (length pre + S (length post))) as [|_]; [lia|].
  rewrite (take_app_add' pre (s :: post) (length pre) 1) by done.
  rewrite (drop_app_add' pre (s :: post) (length pre) 1) by done.
  cbn. rewrite take_0, drop_0. by rewrite <- app_assoc.
Qed.

(** X5.  When the hint is a statement of another type than the new line,
    the line becomes a statement of its own right after the hint. *)
Theorem addLine_after_hint_of_other_type (x : FileStore) (t : string)
    (rest : list string) (pre post : list Stmt) (s : Stmt) :
  tree x -> f_Stmt x = pre ++ s :: post ->
  hintOf s <> ENil -> firstToken x s <> Some t ->
  addLine x (hintOf s) (t :: rest)
  = Some (set_Stmt (pre ++ s :: SLine (length (f_lines x)) :: post)
            (set_lines (f_lines x ++ [newLine (t :: rest) false]) x),
          length (f_lines x)).
Proof.
  intros (Hv & Hndl & Hndb) HS Hs Hft. unfold addLine.
  rewrite bool_decide_eq_false_2 by done. cbn [mbind option_bind].
  rewrite bool_decide_eq_false_2 by done.
  assert (Forall (valid_stmt x) pre /\ valid_stmt x s) as [Hvpre Hvs].
  { rewrite HS in Hv. apply Forall_app in Hv as [? Hv].
    by apply Forall_cons in Hv as [? _]. }
  rewrite HS at 1. destruct s as [l|b|c]; [| |done]; cbn [hintOf].
  - rewrite atHint_skip; [|done|].
    2:{ apply (tree_away_line x pre (SLine l) post l Hndl HS). by left. }
    cbn. rewrite bool_decide_eq_true_2 by done.
    destruct Hvs as [ln Hln]. cbn in Hft. rewrite Hln in Hft |- *. cbn in Hft |- *.
    rewrite <- (newLineAfter_middle x (t :: rest) pre (SLine l) post HS).
    destruct (line_Token ln) as [|t' ?]; [done|]. cbn in Hft |- *.
    destruct (String.eqb_spec t' t); [congruence|done].
  - rewrite atHint_skip; [|done|by eapply tree_away_block].
    cbn. rewrite bool_decide_eq_true_2 by done.
    destruct Hvs as [t' Ht']. cbn in Hft, Ht'.
    destruct (f_blocks x !! b) as [blk|]; [|done]. cbn in Hft, Ht' |- *.
    rewrite Ht' in Hft |- *. cbn.
    rewrite <- (newLineAfter_middle x (t :: rest) pre (SBlock b) post HS).
    destruct (String.eqb_spec t' t); [congruence|done].
Qed.

Lemma findLine_found l ls1 ls2 j :
  l ∉ ls1 -> findLine (EPLine (Some l)) (ls1 ++ l :: ls2) j = Some (j + length ls1).
Proof.
  revert j. induction ls1 as [|l' ls1 IH]; intros j Hl; cbn; unfold lineIsHint.
  - rewrite bool_decide_eq_true_2 by done. f_equal. lia.
  - apply not_elem_of_cons in Hl as [? ?].
    rewrite bool_decide_eq_false_2 by congruence. rewrite IH by done. f_equal. lia.
Qed.

(** X6.  When the hint is a line of a block of the type of the new line,
    the line is added to that block right after the hint. *)
Theorem addLine_after_hint_in_block (x : FileStore) (t : string) (rest : list string)
    (pre post : list Stmt) (b : loc) (blk : Block) (ls1 ls2 : list loc) (l : loc) :
  tree x -> f_Stmt x = pre ++ SBlock b :: post ->
  f_blocks x !! b = Some blk -> head (b_Token blk) = Some t ->
  b_Line blk = ls1 ++ l :: ls2 ->
  addLine x (EPLine (Some l)) (t :: rest)
  = Some (set_blocks
            (<[b := b_set_Line (ls1 ++ l :: length (f_lines x) :: ls2) blk]> (f_blocks x))
            (set_lines (f_lines x ++ [newLine rest true]) x),
          length (f_lines x)).
Proof.
  intros (Hv & Hndl & Hndb) HS Hblk Htok Hls. unfold addLine.
  rewrite bool_decide_eq_false_2 by done. cbn [mbind option_bind].
  rewrite bool_decide_eq_false_2 by done.
  assert (Hl : l ∈ stmt_lines x (SBlock b)).
  { cbn. rewrite Hblk. cbn. rewrite Hls. apply elem_of_app. right. by left. }
  assert (Hl1 : l ∉ ls1).
  { unfold line_places in Hndl. rewrite HS, bind_app, bind_cons in Hndl.
    apply NoDup_app in Hndl as (_ & _ & Hndl). apply NoDup_app in Hndl as (Hndl & _).
    cbn in Hndl. rewrite Hblk in Hndl. cbn in Hndl. rewrite Hls in Hndl.
    apply NoDup_app in Hndl as (_ & Hndl & _). intros Hin.
    apply (Hndl l Hin). by left. }
  rewrite HS at 1. rewrite atHint_skip.
  2:{ rewrite HS in Hv. by apply Forall_app in Hv as [? _]. }
  2:{ by apply (tree_away_line x pre (SBlock b) post l Hndl HS). }
  cbn. rewrite bool_decide_eq_false_2 by done. rewrite Hblk. cbn.
  rewrite Hls, findLine_found by done. rewrite Htok. cbn.
  rewrite String.eqb_refl. cbn.
  rewrite (take_app_add' ls1 (l :: ls2) (length ls1) 1) by done.
  rewrite (drop_app_add' ls1 (l :: ls2) (length ls1) 1) by done.
  cbn. rewrite take_0, drop_0. by rewrite <- app_assoc.
Qed.

End EditFacts.

(** ** Facts on [addReplace] *)

Module ReplaceFacts.
Import Edit EditFacts.

(** A line as [markLineAsRemoved] leaves it. *)
Definition removed (ln : Line) : Line :=
  line_set_Comments (set_Suffix [] (line_Comments ln)) (line_set_Token [] ln).

(** A line as [updateLine] leaves it. *)
Definition updated (tokens : list string) (ln : Line) : Line :=
  line_set_Token (if line_InBlock ln then tail tokens else tokens) ln.

Lemma markLineAsRemoved_alter l lines :
  l < length lines -> markLineAsRemoved (Some l) lines = Some (alter removed l lines).
Proof.
  intros Hl. unfold markLineAsRemoved, loc in *. cbn [mbind option_bind].
  match goal with |- context [?a ≫= _] => destruct a as [ln|] eqn:Hln end.
  2:{ apply lookup_ge_None in Hln. lia. }
  cbn [mbind option_bind]. f_equal.
  apply list_eq. intros i. destruct (decide (i = l)) as [->|].
  - rewrite list_lookup_insert_eq, list_lookup_alter_eq by done. by rewrite Hln.
  - by rewrite list_lookup_insert_ne, list_lookup_alter_ne.
Qed.

Lemma updateLine_alter l tokens lines :
  tokens <> [] -> l < length lines ->
  updateLine (Some l) tokens lines = Some (alter (updated tokens) l lines).
Proof.
  intros Htok Hl. unfold updateLine, loc in *. cbn [mbind option_bind].
  match goal with |- context [?a ≫= _] => destruct a as [ln|] eqn:Hln end.
  2:{ apply lookup_ge_None in Hln. lia. }
  cbn [mbind option_bind].
  assert (Heq : <[l := updated tokens ln]> lines = alter (updated tokens) l lines).
  { apply list_eq. intros i. destruct (decide (i = l)) as [->|].
    - rewrite list_lookup_insert_eq, list_lookup_alter_eq by done. by rewrite Hln.
    - by rewrite list_lookup_insert_ne, list_lookup_alter_ne. }
  rewrite <- Heq. unfold updated. destruct tokens; [done|]. by destruct (line_InBlock ln).
Qed.

Lemma removed_updated tokens ln : removed (updated tokens ln) = removed ln.
Proof. by destruct ln. Qed.

Lemma removed_removed ln : removed (removed ln) = removed ln.
Proof. by destruct ln. Qed.

Lemma updated_updated tokens ln : updated tokens (updated tokens ln) = updated tokens ln.
Proof. by destruct ln. Qed.

(** An entry leads to a line of the file, unless it is a zeroed
    entry. *)
Definition valid_entry (n : nat) (r : Replace) : Prop :=
  (Path (Old r) <> "" -> is_Some (Syntax r)) /\ (forall l, Syntax r = Some l -> l < n).

(** A manifest: a file whose statements lead somewhere, and entries
    that lead to lines of the file, no two of them to the same line. *)
Definition manifest (x : FileStore) (rs : list Replace) : Prop :=
  Forall (valid_stmt x) (f_Stmt x)
  /\ Forall (valid_entry (length (f_lines x))) rs
  /\ NoDup (omap Syntax rs).

Lemma set_lines_id x : set_lines (f_lines x) x = x.
Proof. by destruct x. Qed.

Section WithCall.
Context `{GoLib}.
Variables oldPath oldVers newPath newVers : string.

Let newv : Version := mkVersion newPath newVers.
Let tokens : list string := replaceTokens oldPath oldVers newPath newVers.
Let for_old : Replace -> bool := isFor oldPath oldVers.

(** The entries as the loop of [addReplace] leaves them: the first
    entry for the old coordinate gets the new target, the further ones
    are zeroed. *)
Fixpoint entries_after (need : bool) (rs : list Replace) : list Replace :=
  match rs with
  | [] => []
  | r :: rs =>
      if for_old r
      then (if need then mkReplace (Old r) newv (Syntax r) else zeroReplace)
             :: entries_after false rs
      else r :: entries_after need rs
  end.

(** The lines as the loop leaves them. *)
Fixpoint lines_after (need : bool) (rs : list Replace) (lines : list Line) : list Line :=
  match rs with
  | [] => lines
  | r :: rs =>
      if for_old r
      then lines_after false rs
             (from_option (fun l => alter (if need then updated tokens else removed) l lines)
                          lines (Syntax r))
      else lines_after need rs lines
  end.

(** The hint as the loop leaves it: the line of the last entry for the
    old path that is not for the old coordinate. *)
Fixpoint hint_after (need : bool) (rs : list Replace) (hint : option loc) : option loc :=
  match rs with
  | [] => hint
  | r :: rs =>
      if for_old r
      then hint_after false rs
             (if need then hint else if String.eqb "" oldPath then None else hint)
      else hint_after need rs (if String.eqb (Path (Old r)) oldPath then Syntax r else hint)
  end.

(** The entries the loop works on lead to lines of the file. *)
Definition reachable (n : nat) (r : Replace) : Prop :=
  for_old r = true -> exists l, Syntax r = Some l /\ l < n.

Lemma length_lines_after need rs lines : length (lines_after need rs lines) = length lines.
Proof.
  revert need lines. induction rs as [|r rs IH]; intros need lines; [done|]. cbn.
  destruct (for_old r); [|done]. rewrite IH.
  destruct (Syntax r); cbn; [|done]. by rewrite length_alter.
Qed.

Lemma turns_spec rs st :
  Forall (reachable (length (sc_lines st))) rs ->
  foldl (replace_turn oldPath oldVers newv tokens) (Some st) rs
  = Some (mkScan (lines_after (sc_need st) rs (sc_lines st))
                 (sc_done st ++ entries_after (sc_need st) rs)
                 (sc_need st && negb (existsb for_old rs))
                 (hint_after (sc_need st) rs (sc_hint st))).
Proof.
  revert st. induction rs as [|r rs IH]; intros st Hv.
  { cbn. rewrite app_nil_r, andb_true_r. by destruct st. }
  apply Forall_cons in Hv as [Hr Hv]. cbn [foldl].
  unfold replace_turn at 2.
  cbn [mbind option_bind entries_after lines_after hint_after existsb].
  fold for_old. destruct (for_old r) eqn:Hfor.
  - destruct (Hr Hfor) as (l & Hl & Hlt). rewrite Hl. cbn [from_option].
    destruct (sc_need st) eqn:Hneed.
    + rewrite updateLine_alter by done. cbn [mbind option_bind].
      rewrite IH by (cbn; by rewrite length_alter).
      cbn. by rewrite <- app_assoc.
    + rewrite markLineAsRemoved_alter by done. cbn [mbind option_bind].
      rewrite IH by (cbn; by rewrite length_alter).
      cbn. by rewrite <- app_assoc.
  - rewrite IH by done. cbn. by rewrite <- app_assoc.
Qed.

Lemma tokens_cons : exists rest, tokens = "replace" :: rest.
Proof. by eexists. Qed.

Lemma for_old_updated r : for_old (mkReplace (Old r) newv (Syntax r)) = for_old r.
Proof. reflexivity. Qed.

Lemma for_old_zero : oldPath <> "" -> for_old zeroReplace = false.
Proof.
  intros Hp. unfold for_old, isFor, zeroReplace. cbn [Old Path].
  destruct (String.eqb_spec "" oldPath); [congruence|done].
Qed.

Lemma for_old_new : for_old (mkReplace (mkVersion oldPath oldVers) newv None) = true.
Proof.
  unfold for_old, isFor. cbn [Old Path Vers]. rewrite !String.eqb_refl.
  by rewrite orb_true_r.
Qed.

Lemma no_entry_for_old need rs lines :
  existsb for_old rs = false ->
  entries_after need rs = rs /\ lines_after need rs lines = lines.
Proof.
  induction rs as [|r rs IH]; [done|]. cbn.
  intros [Hr Hrs]%orb_false_elim. rewrite Hr. destruct (IH Hrs) as [-> ->]. done.
Qed.

Lemma entries_after_app need rs rs' :
  existsb for_old rs = false -> entries_after need (rs ++ rs') = rs ++ entries_after need rs'.
Proof.
  induction rs as [|r rs IH]; [done|]. cbn.
  intros [Hr Hrs]%orb_false_elim. rewrite Hr. by rewrite IH.
Qed.

Lemma lines_after_app need rs rs' lines :
  existsb for_old rs = false -> lines_after need (rs ++ rs') lines = lines_after need rs' lines.
Proof.
  induction rs as [|r rs IH]; [done|]. cbn.
  intros [Hr Hrs]%orb_false_elim. rewrite Hr. by rewrite IH.
Qed.

Lemma length_entries_after need rs : length (entries_after need rs) = length rs.
Proof.
  revert need. induction rs as [|r rs IH]; intros need; [done|]. cbn.
  destruct (for_old r); cbn; by rewrite IH.
Qed.

(** Once the first entry is found, no entry for the old coordinate is
    left behind it. *)
Lemma entries_after_false rs :
  oldPath <> "" -> existsb for_old (entries_after false rs) = false.
Proof.
  intros Hp. induction rs as [|r rs IH]; [done|]. cbn.
  destruct (for_old r) eqn:Hr; cbn; rewrite IH; [|by rewrite Hr].
  by rewrite for_old_zero.
Qed.

Lemma existsb_entries_after rs :
  existsb for_old (entries_after true rs) = existsb for_old rs.
Proof.
  induction rs as [|r rs IH]; [done|]. cbn.
  destruct (for_old r) eqn:Hr; cbn; [|by rewrite Hr, IH].
  by rewrite for_old_updated, Hr.
Qed.

Lemma syntax_entries_after need rs l :
  l ∈ omap Syntax (entries_after need rs) -> l ∈ omap Syntax rs.
Proof.
  revert need. induction rs as [|r rs IH]; intros need; [done|]. cbn.
  destruct (for_old r); cbn.
  - destruct need; cbn.
    + destruct (Syntax r); cbn; [|by apply IH].
      intros [->|?]%elem_of_cons; [by left|]. right. by eapply IH.
    + intros ?. destruct (Syntax r); [right|]; by eapply IH.
  - destruct (Syntax r); cbn; [|by apply IH].
    intros [->|?]%elem_of_cons; [by left|]. right. by eapply IH.
Qed.

(** The loop changes the lines of entries for the old coordinate
    only. *)
Lemma lines_after_other need rs lines (l : nat) :
  l ∉ omap Syntax (filter (fun r => for_old r = true) rs) ->
  lines_after need rs lines !! l = lines !! l.
Proof.
  revert need lines. induction rs as [|r rs IH]; intros need lines Hl; [done|]. cbn.
  destruct (for_old r) eqn:Hr.
  - rewrite filter_cons_True in Hl by done. cbn in Hl.
    destruct (Syntax r) as [l'|]; cbn in Hl |- *; [|by apply IH].
    apply not_elem_of_cons in Hl as [? ?]. rewrite IH by done.
    by apply list_lookup_alter_ne.
  - rewrite filter_cons_False in Hl by (by rewrite Hr). by apply IH.
Qed.

Lemma elem_of_omap_filter (rs : list Replace) (l : loc) :
  l ∈ omap Syntax (filter (fun r => for_old r = true) rs) -> l ∈ omap Syntax rs.
Proof.
  intros (r & (? & ?)%list_elem_of_filter & ?)%list_elem_of_omap.
  apply list_elem_of_omap. eauto.
Qed.

(** Run again on what it left, the loop changes nothing. *)
Lemma turns_idempotent rs lines :
  oldPath <> "" -> NoDup (omap Syntax rs) ->
  entries_after true (entries_after true rs) = entries_after true rs
  /\ lines_after true (entries_after true rs) (lines_after true rs lines)
     = lines_after true rs lines.
Proof.
  intros Hp. revert lines. induction rs as [|r rs IH]; intros lines Hnd; [done|]. cbn.
  destruct (for_old r) eqn:Hr; cbn.
  - rewrite for_old_updated, Hr. cbn.
    pose proof (fun L => no_entry_for_old false (entries_after false rs) L
                          (entries_after_false rs Hp)) as Hno.
    rewrite (proj1 (Hno lines)), (proj2 (Hno _)).
    split; [done|]. cbn in Hnd. destruct (Syntax r) as [l|]; cbn in Hnd |- *; [|done].
    apply NoDup_cons in Hnd as [Hl _].
    apply list_eq. intros i. destruct (decide (i = l)) as [->|].
    + rewrite list_lookup_alter_eq.
      rewrite lines_after_other by (intros ?%elem_of_omap_filter; done).
      rewrite list_lookup_alter_eq. destruct (_ !! _); [|done].
      cbn [fmap option_fmap option_map]. by rewrite updated_updated.
    + by rewrite list_lookup_alter_ne.
  - rewrite Hr. destruct (IH lines) as [-> ->]; [|done].
    cbn in Hnd. destruct (Syntax r); [|done]. by apply NoDup_cons in Hnd as [_ ?].
Qed.

Lemma manifest_reachable n rs :
  oldPath <> "" -> Forall (valid_entry n) rs -> Forall (reachable n) rs.
Proof.
  intros Hp Hv. eapply Forall_impl; [exact Hv|]. intros r [Hsome Hlt] Hr.
  unfold for_old, isFor in Hr. apply andb_true_iff in Hr as [Hr%String.eqb_eq _].
  destruct Hsome as [l Hl]; [congruence|]. eauto.
Qed.

Lemma no_entry_reachable n rs : existsb for_old rs = false -> Forall (reachable n) rs.
Proof.
  intros Hno. apply Forall_forall. intros r Hr Hfor. exfalso.
  assert (existsb for_old rs = true); [|congruence].
  apply existsb_exists. exists r. split; [|done]. by apply list_elem_of_In.
Qed.

(** [addReplace] when the entries hold one for the old coordinate. *)
Lemma addReplace_found x rs :
  Forall (reachable (length (f_lines x))) rs -> existsb for_old rs = true ->
  addReplace x rs oldPath oldVers newPath newVers
  = Some (set_lines (lines_after true rs (f_lines x)) x, entries_after true rs, None).
Proof.
  intros Hv Hex. unfold addReplace.
  pose proof (turns_spec rs (mkScan (f_lines x) [] true None) Hv) as Hturns.
  cbn [sc_lines sc_done sc_need sc_hint] in Hturns. fold newv tokens. rewrite Hturns.
  cbn [mbind option_bind sc_need sc_lines sc_done app]. by rewrite Hex.
Qed.

(** [addReplace] when they hold none. *)
Lemma addReplace_missing x rs :
  existsb for_old rs = false ->
  addReplace x rs oldPath oldVers newPath newVers
  = r ← addLine x (EPLine (hint_after true rs None)) tokens;
    Some (fst r, rs ++ [mkReplace (mkVersion oldPath oldVers) newv (Some (snd r))], None).
Proof.
  intros Hex. unfold addReplace.
  pose proof (turns_spec rs (mkScan (f_lines x) [] true None)
                (no_entry_reachable _ rs Hex)) as Hturns.
  cbn [sc_lines sc_done sc_need sc_hint] in Hturns. fold newv tokens. rewrite Hturns.
  cbn [mbind option_bind sc_need sc_lines sc_done sc_hint app]. rewrite Hex.
  destruct (no_entry_for_old true rs (f_lines x) Hex) as [-> ->].
  rewrite set_lines_id. cbn [andb negb].
  by destruct (addLine x (EPLine (hint_after true rs None)) tokens) as [[x1 l]|].
Qed.

Lemma reachable_entries_after n need rs :
  oldPath <> "" -> Forall (reachable n) rs -> Forall (reachable n) (entries_after need rs).
Proof.
  intros Hp Hv. revert need. induction Hv as [|r rs Hr _ IH]; intros need; [done|]. cbn.
  destruct (for_old r) eqn:Hfor; apply Forall_cons; (split; [|done]); [|done].
  destruct need; [done|]. intros Hz. by rewrite for_old_zero in Hz.
Qed.

Lemma updated_id ln :
  line_Token ln = (if line_InBlock ln then tail tokens else tokens) ->
  updated tokens ln = ln.
Proof. destruct ln as [? ? ? [] ?]; cbn; by intros ->. Qed.

Lemma other_path_not_for_old rs :
  Forall (fun r => Path (Old r) <> oldPath) rs ->
  existsb for_old rs = false /\ forall need, hint_after need rs None = None.
Proof.
  induction 1 as [|r rs Hr _ [IH1 IH2]]; [done|]. cbn.
  assert (Hfor : for_old r = false).
  { unfold for_old, isFor. by destruct (String.eqb_spec (Path (Old r)) oldPath). }
  rewrite Hfor, IH1. split; [done|]. intros need.
  by destruct (String.eqb_spec (Path (Old r)) oldPath).
Qed.

Lemma first_entry_for_old rs :
  existsb for_old rs = true ->
  exists pre r post,
    rs = pre ++ r :: post /\ existsb for_old pre = false /\ for_old r = true.
Proof.
  induction rs as [|r rs IH]; [done|]. cbn. destruct (for_old r) eqn:Hr.
  - intros _. by exists [], r, rs.
  - intros (pre & r' & post & -> & Hpre & Hr')%IH.
    exists (r :: pre), r', post. split_and!; [done| |done]. cbn. by rewrite Hr.
Qed.

Lemma filter_for_old_nil rs :
  existsb for_old rs = false -> filter (fun r => for_old r = true) rs = [].
Proof.
  induction rs as [|r rs IH]; [done|]. cbn [existsb].
  intros [Hr Hrs]%orb_false_elim. rewrite filter_cons_False by (by rewrite Hr). auto.
Qed.

Lemma lines_after_length need rs lines l :
  l < length lines -> l < length (lines_after need rs lines).
Proof. by rewrite length_lines_after. Qed.

(** An entry that is not for the old coordinate shares its line with
    no entry for it. *)
Lemma other_entry_line rs r (l : loc) :
  NoDup (omap Syntax rs) -> r ∈ rs -> for_old r = false -> Syntax r = Some l ->
  l ∉ omap Syntax (filter (fun r => for_old r = true) rs).
Proof.
  induction rs as [|r0 rs IH]; intros Hnd Hin Hr Hl; [by apply not_elem_of_nil|].
  cbn in Hnd. apply elem_of_cons in Hin as [<-|Hin].
  - rewrite filter_cons_False by (by rewrite Hr). rewrite Hl in Hnd.
    apply NoDup_cons in Hnd as [Hnd _]. by intros ?%elem_of_omap_filter.
  - assert (l ∈ omap Syntax rs) by (apply list_elem_of_omap; eauto).
    destruct (for_old r0) eqn:Hr0.
    + rewrite filter_cons_True by done. cbn.
      destruct (Syntax r0) as [l0|]; [|by apply IH].
      apply NoDup_cons in Hnd as [Hl0 Hnd]. apply not_elem_of_cons. split; [congruence|].
      by apply IH.
    + rewrite filter_cons_False by (by rewrite Hr0). apply IH; try done.
      destruct (Syntax r0); [by apply NoDup_cons in Hnd as [_ ?]|done].
Qed.

Lemma entries_after_other need rs i r :
  rs !! i = Some r -> for_old r = false -> entries_after need rs !! i = Some r.
Proof.
  revert need i. induction rs as [|r0 rs IH]; intros need i; [done|].
  destruct i as [|i]; cbn.
  - intros [= ->] ->. done.
  - intros Hi Hr. destruct (for_old r0); cbn; by apply IH.
Qed.

(** A line is cleared: [markLineAsRemoved] went over it. *)
Definition cleared (ln : Line) : Prop :=
  line_Token ln = [] /\ Suffix (line_Comments ln) = [].

Lemma lines_after_cleared rs lines (l : nat) ln :
  lines !! l = Some ln -> cleared ln ->
  exists ln', lines_after false rs lines !! l = Some ln' /\ cleared ln'.
Proof.
  revert lines ln. induction rs as [|r rs IH]; intros lines ln Hl Hc; [by exists ln|]. cbn.
  destruct (for_old r); [|by eapply IH].
  destruct (Syntax r) as [l'|]; cbn; [|by eapply IH].
  destruct (decide (l' = l)) as [->|].
  - eapply (IH _ (removed ln)); [|done]. by rewrite list_lookup_alter_eq, Hl.
  - eapply IH; [|done]. by rewrite list_lookup_alter_ne.
Qed.

Lemma entries_after_further rs j r lines :
  Forall (reachable (length lines)) rs ->
  rs !! j = Some r -> for_old r = true ->
  entries_after false rs !! j = Some zeroReplace
  /\ forall l, Syntax r = Some l ->
       exists ln', lines_after false rs lines !! l = Some ln' /\ cleared ln'.
Proof.
  revert j lines. induction rs as [|r0 rs IH]; intros j lines Hv; [done|].
  apply Forall_cons in Hv as [Hr0 Hv]. destruct j as [|j]; cbn.
  - intros [= ->] Hr. rewrite Hr. split; [done|]. intros l Hl. rewrite Hl. cbn.
    destruct (Hr0 Hr) as (l' & Hl' & Hlt). assert (l' = l) as -> by congruence.
    destruct (lookup_lt_is_Some_2 lines l Hlt) as [ln Hln].
    apply (lines_after_cleared rs _ l (removed ln)); [|done].
    by rewrite list_lookup_alter_eq, Hln.
  - intros Hj Hr. destruct (for_old r0) eqn:Hfor; cbn; [|by apply IH].
    destruct (Hr0 Hfor) as (l' & -> & Hlt). cbn.
    apply IH; [|done..]. by rewrite length_alter.
Qed.

Lemma entries_after_split need pre rs' :
  entries_after need (pre ++ rs')
  = entries_after need pre ++ entries_after (need && negb (existsb for_old pre)) rs'.
Proof.
  revert need. induction pre as [|r pre IH]; intros need; cbn.
  { by rewrite andb_true_r. }
  destruct (for_old r); cbn; rewrite IH; [|done]. by rewrite andb_false_r.
Qed.

Lemma lines_after_split need pre rs' lines :
  lines_after need (pre ++ rs') lines
  = lines_after (need && negb (existsb for_old pre)) rs' (lines_after need pre lines).
Proof.
  revert need lines. induction pre as [|r pre IH]; intros need lines; cbn.
  { by rewrite andb_true_r. }
  destruct (for_old r); cbn; rewrite IH; [|done]. by rewrite andb_false_r.
Qed.

End WithCall.

Lemma added_length x hint t rest r :
  added x hint t rest r -> length (f_lines (fst r)) = S (length (f_lines x)).
Proof.
  intros (_ & lines0 & nl & -> & _ & Hl). rewrite length_app. cbn.
  destruct Hl as [->|(h & ln & tail & _ & _ & _ & ->)]; [lia|].
  rewrite length_insert. lia.
Qed.

Lemma added_new_line x hint t rest r :
  added x hint t rest r ->
  exists nl, f_lines (fst r) !! snd r = Some nl
             /\ line_Token nl = (if line_InBlock nl then rest else t :: rest).
Proof.
  intros (-> & lines0 & nl & -> & Hnl & Hl). exists nl. split.
  - apply list_lookup_middle.
    destruct Hl as [->|(h & ln & tail & _ & _ & _ & ->)]; [done|].
    by rewrite length_insert.
  - by destruct Hnl as [->| ->].
Qed.

Lemma added_old_line x hint t rest r (l : nat) ln :
  added x hint t rest r -> f_lines x !! l = Some ln ->
  f_lines (fst r) !! l = Some ln
  \/ exists tail, line_Token ln = t :: tail
                  /\ f_lines (fst r) !! l
                     = Some (line_set_Token tail (line_set_InBlock true ln)).
Proof.
  intros (_ & lines0 & nl & -> & _ & Hl) Hln.
  assert (Hlt : l < length (f_lines x)) by by eapply lookup_lt_Some.
  destruct Hl as [->|(h & ln' & tail & _ & Hh & Htok & ->)].
  - left. by rewrite lookup_app_l.
  - rewrite lookup_app_l by by rewrite length_insert.
    destruct (decide (h = l)) as [->|].
    + right. exists tail. unfold loc in *. rewrite Hln in Hh. injection Hh as <-.
      split; [done|]. by rewrite list_lookup_insert_eq.
    + left. by rewrite list_lookup_insert_ne.
Qed.

Lemma valid_entry_mono n m r : n <= m -> valid_entry n r -> valid_entry m r.
Proof.
  intros Hle [Hsome Hlt]. split; [done|]. intros l Hl. specialize (Hlt l Hl). lia.
Qed.

(** X7.  A call of [addReplace] leaves exactly one entry for the old
    coordinate: it has the new target, and its line holds the tokens
    of the call (without the keyword when the line is in a block).
    The call returns no error, whatever the versions are. *)
Theorem addReplace_one_entry_for_old `{GoLib} (x : FileStore) (rs : list Replace)
    (oldPath oldVers newPath newVers : string) :
  manifest x rs -> oldPath <> "" ->
  exists x1 rs1 r l ln,
    addReplace x rs oldPath oldVers newPath newVers = Some (x1, rs1, None)
    /\ filter (fun r => isFor oldPath oldVers r = true) rs1 = [r]
    /\ New r = mkVersion newPath newVers
    /\ Syntax r = Some l /\ f_lines x1 !! l = Some ln
    /\ line_Token ln = (if line_InBlock ln
                        then tail (replaceTokens oldPath oldVers newPath newVers)
                        else replaceTokens oldPath oldVers newPath newVers).
Proof.
  intros (Hvx & Hvr & Hnd) Hp.
  pose proof (manifest_reachable oldPath oldVers _ rs Hp Hvr) as Hreach.
  destruct (existsb (isFor oldPath oldVers) rs) eqn:Hex.
  - rewrite addReplace_found by done.
    destruct (first_entry_for_old _ _ rs Hex) as (pre & r & post & -> & Hpre & Hr).
    apply Forall_app in Hreach as [_ Hreach]. apply Forall_cons in Hreach as [Hrr _].
    destruct (Hrr Hr) as (l & Hl & Hlt).
    destruct (lookup_lt_is_Some_2 _ _ Hlt) as [ln Hln].
    eexists _, _, (mkReplace (Old r) (mkVersion newPath newVers) (Syntax r)), l,
      (updated (replaceTokens oldPath oldVers newPath newVers) ln).
    split_and!; [done| |done|done| |by destruct ln as [? ? ? [] ?]].
    + rewrite entries_after_app by done. cbn. rewrite Hr.
      rewrite filter_app, filter_for_old_nil by done.
      rewrite filter_cons_True by done.
      rewrite filter_for_old_nil by by apply entries_after_false. done.
    + cbn. rewrite lines_after_app by done. cbn. rewrite Hr, Hl. cbn.
      rewrite lines_after_other.
      * by rewrite list_lookup_alter_eq, Hln.
      * rewrite omap_app in Hnd. apply NoDup_app in Hnd as (_ & _ & Hnd).
        cbn in Hnd. rewrite Hl in Hnd. apply NoDup_cons in Hnd as [Hnd _].
        by intros ?%elem_of_omap_filter.
  - rewrite addReplace_missing by done.
    destruct (tokens_cons oldPath oldVers newPath newVers) as [rest Htok].
    rewrite Htok.
    destruct (addLine_total x (EPLine (hint_after oldPath oldVers true rs None))
                "replace" rest Hvx) as (r & -> & Hadd).
    destruct (added_new_line _ _ _ _ _ Hadd) as (nl & Hnl & Hnltok).
    cbn [mbind option_bind].
    eexists _, _, (mkReplace (mkVersion oldPath oldVers) (mkVersion newPath newVers)
                             (Some (snd r))), (snd r), nl.
    split_and!; [done| |done|done|done|done].
    rewrite filter_app, filter_for_old_nil by done.
    rewrite filter_cons_True by apply (for_old_new oldPath oldVers newPath newVers).
    done.
Qed.

(** X8.  [addReplace] is idempotent: a second call with the same arguments
    changes neither the file nor the entries; in particular it adds no
    line and no entry. *)
Theorem addReplace_idempotent `{GoLib} (x : FileStore) (rs : list Replace)
    (oldPath oldVers newPath newVers : string) :
  manifest x rs -> oldPath <> "" ->
  exists x1 rs1,
    addReplace x rs oldPath oldVers newPath newVers = Some (x1, rs1, None)
    /\ addReplace x1 rs1 oldPath oldVers newPath newVers = Some (x1, rs1, None).
Proof.
  intros (Hvx & Hvr & Hnd) Hp.
  pose proof (manifest_reachable oldPath oldVers _ rs Hp Hvr) as Hreach.
  destruct (existsb (isFor oldPath oldVers) rs) eqn:Hex.
  - rewrite addReplace_found by done. eexists _, _. split; [done|].
    rewrite addReplace_found.
    + cbn [f_lines set_lines].
      destruct (turns_idempotent oldPath oldVers newPath newVers rs (f_lines x) Hp Hnd)
        as [-> ->].
      done.
    + cbn [f_lines set_lines]. rewrite length_lines_after.
      by apply reachable_entries_after.
    + by rewrite existsb_entries_after.
  - rewrite addReplace_missing by done.
    destruct (tokens_cons oldPath oldVers newPath newVers) as [rest Htok].
    rewrite Htok.
    destruct (addLine_total x (EPLine (hint_after oldPath oldVers true rs None))
                "replace" rest Hvx) as ([x1 l] & -> & Hadd).
    destruct (added_new_line _ _ _ _ _ Hadd) as (nl & Hnl & Hnltok).
    cbn [mbind option_bind fst snd] in *.
    eexists _, _. split; [done|].
    set (e := mkReplace (mkVersion oldPath oldVers) (mkVersion newPath newVers) (Some l)).
    assert (He : isFor oldPath oldVers e = true)
      by apply (for_old_new oldPath oldVers newPath newVers).
    rewrite addReplace_found.
    + rewrite entries_after_app, lines_after_app by done.
      cbn [entries_after lines_after]. rewrite He. subst e. cbn [from_option Syntax Old].
      assert (Hid : alter (updated (replaceTokens oldPath oldVers newPath newVers)) l
                      (f_lines x1) = f_lines x1).
      { unfold loc in *. apply list_eq. intros i. destruct (decide (i = l)) as [->|].
        - rewrite list_lookup_alter_eq, Hnl. cbn. f_equal. apply updated_id.
          rewrite Htok. by destruct (line_InBlock nl).
        - by rewrite list_lookup_alter_ne. }
      rewrite Hid. by rewrite set_lines_id.
    + apply Forall_app. split; [by apply no_entry_reachable|].
      apply Forall_singleton. intros _. exists l. split; [done|].
      by eapply lookup_lt_Some.
    + rewrite existsb_app. cbn. rewrite He. by rewrite orb_true_r.
Qed.

(** X9.  [addReplace] leaves the entries that are not for the old
    coordinate as they are, and their lines too: such a line changes
    only when it is the hint and moves into a new block, which takes
    its keyword. *)
Theorem addReplace_keeps_other_entries `{GoLib} (x : FileStore) (rs : list Replace)
    (oldPath oldVers newPath newVers : string) :
  manifest x rs -> oldPath <> "" ->
  exists x1 rs1,
    addReplace x rs oldPath oldVers newPath newVers = Some (x1, rs1, None)
    /\ forall i r,
         rs !! i = Some r -> isFor oldPath oldVers r = false ->
         rs1 !! i = Some r
         /\ forall l ln,
              Syntax r = Some l -> f_lines x !! l = Some ln ->
              f_lines x1 !! l = Some ln
              \/ exists tail,
                   line_Token ln = "replace" :: tail
                   /\ f_lines x1 !! l
                      = Some (line_set_Token tail (line_set_InBlock true ln)).
Proof.
  intros (Hvx & Hvr & Hnd) Hp.
  pose proof (manifest_reachable oldPath oldVers _ rs Hp Hvr) as Hreach.
  destruct (existsb (isFor oldPath oldVers) rs) eqn:Hex.
  - rewrite addReplace_found by done. eexists _, _. split; [done|].
    intros i r Hi Hr. split; [by apply entries_after_other|].
    intros l ln Hl Hln. left. cbn [f_lines set_lines]. rewrite lines_after_other; [done|].
    eapply other_entry_line; [done| |done..]. by eapply list_elem_of_lookup_2.
  - rewrite addReplace_missing by done.
    destruct (tokens_cons oldPath oldVers newPath newVers) as [rest Htok].
    rewrite Htok.
    destruct (addLine_total x (EPLine (hint_after oldPath oldVers true rs None))
                "replace" rest Hvx) as (r & -> & Hadd).
    cbn [mbind option_bind]. eexists _, _. split; [done|].
    intros i r' Hi Hr. split.
    + rewrite lookup_app_l; [done|]. by eapply lookup_lt_Some.
    + intros l ln Hl Hln. by eapply added_old_line.
Qed.

(** X10.  Once [addReplace] has met an entry for the old coordinate, it
    zeroes every further one and clears the tokens and the end-of-line
    comments of its line. *)
Theorem addReplace_clears_further_entries `{GoLib} (x : FileStore) (rs : list Replace)
    (oldPath oldVers newPath newVers : string) :
  manifest x rs -> oldPath <> "" ->
  exists x1 rs1,
    addReplace x rs oldPath oldVers newPath newVers = Some (x1, rs1, None)
    /\ forall i j r r',
         i < j -> rs !! i = Some r -> rs !! j = Some r' ->
         isFor oldPath oldVers r = true -> isFor oldPath oldVers r' = true ->
         rs1 !! j = Some zeroReplace
         /\ forall l, Syntax r' = Some l ->
                     exists ln, f_lines x1 !! l = Some ln /\ cleared ln.
Proof.
  intros (Hvx & Hvr & Hnd) Hp.
  pose proof (manifest_reachable oldPath oldVers _ rs Hp Hvr) as Hreach.
  destruct (existsb (isFor oldPath oldVers) rs) eqn:Hex.
  - rewrite addReplace_found by done. eexists _, _. split; [done|].
    intros i j r r' Hij Hi Hj Hr Hr'. cbn [f_lines set_lines].
    assert (Hpre : existsb (isFor oldPath oldVers) (take j rs) = true).
    { apply existsb_exists. exists r. split; [|done]. apply list_elem_of_In.
      apply (list_elem_of_lookup_2 _ i). by rewrite lookup_take_lt. }
    assert (Hlen : length (take j rs) = j).
    { apply length_take_le. apply lookup_lt_Some in Hj. lia. }
    assert (He : entries_after oldPath oldVers newPath newVers true rs
                 = entries_after oldPath oldVers newPath newVers true (take j rs)
                   ++ entries_after oldPath oldVers newPath newVers false (drop j rs)).
    { rewrite <- (take_drop j rs) at 1. by rewrite entries_after_split, Hpre. }
    assert (Hl : lines_after oldPath oldVers newPath newVers true rs (f_lines x)
                 = lines_after oldPath oldVers newPath newVers false (drop j rs)
                     (lines_after oldPath oldVers newPath newVers true (take j rs)
                        (f_lines x))).
    { rewrite <- (take_drop j rs) at 1. by rewrite lines_after_split, Hpre. }
    rewrite He, Hl.
    destruct (entries_after_further oldPath oldVers newPath newVers (drop j rs) 0 r'
                (lines_after oldPath oldVers newPath newVers true (take j rs) (f_lines x)))
      as [Hz Hc]; [| |done|].
    + rewrite length_lines_after. rewrite <- (take_drop j rs) in Hreach.
      by apply Forall_app in Hreach as [_ ?].
    + by rewrite lookup_drop, Nat.add_0_r.
    + split; [|done]. rewrite lookup_app_r by (rewrite length_entries_after; lia).
      by rewrite length_entries_after, Hlen, Nat.sub_diag.
  - rewrite addReplace_missing by done.
    destruct (tokens_cons oldPath oldVers newPath newVers) as [rest Htok].
    rewrite Htok.
    destruct (addLine_total x (EPLine (hint_after oldPath oldVers true rs None))
                "replace" rest Hvx) as (r0 & -> & _).
    cbn [mbind option_bind]. eexists _, _. split; [done|].
    intros i j r r' _ Hi _ Hr _. exfalso.
    assert (existsb (isFor oldPath oldVers) rs = true); [|congruence].
    apply existsb_exists. exists r. split; [|done]. apply list_elem_of_In.
    by eapply list_elem_of_lookup_2.
Qed.

(** X11.  For a path that no entry has, [addReplace] adds the entry and puts
    its line at the end of the file, as a statement of its own, also
    when the file has other replace statements: the hint it gives to
    [addLine] is a nil [*Line], not the nil [Expr]. *)
Theorem addReplace_on_new_path `{GoLib} (x : FileStore) (rs : list Replace)
    (oldPath oldVers newPath newVers : string) :
  Forall (valid_stmt x) (f_Stmt x) ->
  Forall (fun r => Path (Old r) <> oldPath) rs ->
  addReplace x rs oldPath oldVers newPath newVers
  = Some (fst (atEnd x (replaceTokens oldPath oldVers newPath newVers)),
          rs ++ [mkReplace (mkVersion oldPath oldVers) (mkVersion newPath newVers)
                           (Some (length (f_lines x)))],
          None).
Proof.
  intros Hvx Hrs.
  destruct (other_path_not_for_old oldPath oldVers rs Hrs) as [Hex Hhint].
  rewrite addReplace_missing by done. rewrite Hhint.
  by rewrite addLine_nil_pointer.
Qed.

End ReplaceFacts.

(** ** Facts on [parseString], [parseVersion] and [parseReplace] *)

Module DirectiveFacts.
Import Edit Directive.

Section WithLib.
Context `{GoLib} `{ModLib}.

Lemma parseString_error s s' err : parseString s = (s', inr err) -> s' = s.
Proof.
  unfold parseString. repeat case_match; by intros [= <- _].
Qed.

Lemma parseVersion_ok verb path s s' v :
  parseVersion verb path s = (s', inl v) ->
  v <> "" /\ s' = v /\ exists t, v = module_CanonicalVersion t.
Proof.
  unfold parseVersion. destruct (parseString s) as [s1 [t|err]]; [|done].
  destruct (String.eqb_spec (module_CanonicalVersion t) ""); [done|].
  intros [= <- <-]. eauto.
Qed.

Lemma parseVersion_error verb path s s' e :
  parseVersion verb path s = (s', inr e) ->
  exists version err, e = modfile_Error "" zeroPos path verb (InvalidVersionError version err).
Proof.
  unfold parseVersion. destruct (parseString s) as [s1 [t|err]].
  - destruct (String.eqb (module_CanonicalVersion t) ""); [|done].
    intros [= _ <-]. eauto.
  - intros [= _ <-]. eauto.
Qed.

Lemma parseStringAt_length args i args' r :
  parseStringAt args i = Some (args', r) -> length args' = length args.
Proof.
  unfold parseStringAt. destruct (args !! i) as [a|]; [|done]. cbn.
  destruct (parseString a). intros [= <- _]. by rewrite length_insert.
Qed.

Lemma parseVersionAt_length verb path args i args' r :
  parseVersionAt verb path args i = Some (args', r) -> length args' = length args.
Proof.
  unfold parseVersionAt. destruct (args !! i) as [a|]; [|done]. cbn.
  destruct (parseVersion verb path a). intros [= <- _]. by rewrite length_insert.
Qed.

Lemma parseVersionAt_ok verb path args i args' v :
  parseVersionAt verb path args i = Some (args', inl v) -> v <> "".
Proof.
  unfold parseVersionAt. destruct (args !! i) as [a|]; [|done]. cbn.
  destruct (parseVersion verb path a) as [a' r] eqn:Hv. intros [= _ ->].
  by apply parseVersion_ok in Hv as [? _].
Qed.

Lemma failed_inv args e r :
  failed args e = Some r ->
  exists e', e = Some e' /\ r = (args, inr e').
Proof. destruct e as [e'|]; [|done]. intros [= <-]. eauto. Qed.

Lemma wrapError_inv filename lines line c e :
  wrapError filename lines line c = Some e ->
  Filename e = filename /\ line_start lines line = Some (Pos e).
Proof.
  unfold wrapError. destruct (line_start lines line); [|done]. by intros [= <-].
Qed.

Lemma wrapModPathError_inv filename lines line verb p c e :
  wrapModPathError filename lines line verb p c = Some e ->
  Filename e = filename /\ line_start lines line = Some (Pos e).
Proof.
  unfold wrapModPathError. destruct (line_start lines line); [|done]. by intros [= <-].
Qed.

(** What the second half of [parseReplace] returns. *)
Lemma parseReplace_new_cases filename lines line verb arrow s v args res :
  length args = arrow + 2 \/ length args = arrow + 3 ->
  parseReplace_new filename lines line verb arrow s v args = Some res ->
  (exists args' e, res = (args', inr e) /\ Filename e = filename
                   /\ line_start lines line = Some (Pos e))
  \/ (exists args' ns nv,
        res = (args', inl (mkReplace (mkVersion s v) (mkVersion ns nv) line))
        /\ length args' = length args
        /\ (nv = "" <-> modfile_IsDirectoryPath ns = true)).
Proof.
  intros Hlens. unfold parseReplace_new.
  destruct (parseStringAt args (arrow + 1)) as [[args1 [ns|err]]|] eqn:Hns; [| |done]; cbn.
  2:{ intros (e & He%wrapError_inv & ->)%failed_inv.
      left. eexists _, _. split; [done|]. done. }
  apply parseStringAt_length in Hns. rewrite Hns.
  destruct (Nat.eqb_spec (length args) (arrow + 2)) as [Hlen|Hlen].
  - destruct (modfile_IsDirectoryPath ns) eqn:Hdir; cbn.
    + destruct (_ && _).
      * intros (e & He%wrapError_inv & ->)%failed_inv.
        left. eexists _, _. done.
      * intros [= <-]. right. eexists _, _, _. by split_and!.
    + destruct (Contains ns "@");
        intros (e & He%wrapError_inv & ->)%failed_inv;
        left; eexists _, _; done.
  - destruct (Nat.eqb_spec (length args) (arrow + 3)) as [Hlen3|Hlen3].
    + destruct (parseVersionAt verb ns args1 (arrow + 2)) as [[args2 [nv|err]]|] eqn:Hnv;
        [| |done]; cbn.
      * pose proof (parseVersionAt_ok _ _ _ _ _ _ Hnv) as Hne.
        apply parseVersionAt_length in Hnv.
        destruct (modfile_IsDirectoryPath ns) eqn:Hdir.
        -- intros (e & He%wrapError_inv & ->)%failed_inv.
           left. eexists _, _. done.
        -- intros [= <-]. right. eexists _, _, _.
           split_and!; [done|congruence|]. split; [done|congruence].
      * intros (e & He%wrapError_inv & ->)%failed_inv.
        left. eexists _, _. done.
    + lia.
Qed.

(** What [parseReplace] returns. *)
Lemma parseReplace_cases filename lines line verb args res :
  parseReplace filename lines line verb args = Some res ->
  (exists args' e, res = (args', inr e) /\ Filename e = filename
                   /\ line_start lines line = Some (Pos e))
  \/ (exists args' r,
        res = (args', inl r) /\ Syntax r = line /\ length args' = length args
        /\ (Vers (New r) = "" <-> modfile_IsDirectoryPath (Path (New r)) = true)
        /\ ((args !! 1 = Some "=>" /\ Vers (Old r) = ""
             /\ (length args = 3 \/ length args = 4))
            \/ (args !! 1 <> Some "=>" /\ args !! 2 = Some "=>" /\ Vers (Old r) <> ""
                /\ (length args = 4 \/ length args = 5)))).
Proof.
  unfold parseReplace.
  set (arrow := if (2 <=? length args)%nat && bool_decide (args !! 1 = Some "=>")
                then 1 else 2).
  assert (Harrow : (arrow = 1 /\ args !! 1 = Some "=>")
                   \/ (arrow = 2 /\ args !! 1 <> Some "=>")).
  { subst arrow. case_bool_decide as Hd.
    - left. apply lookup_lt_Some in Hd as Hlt.
      destruct (Nat.leb_spec 2 (length args)); [done|lia].
    - right. by rewrite andb_false_r. }
  destruct (_ || _) eqn:Hcheck.
  { intros (e & He%wrapError_inv & ->)%failed_inv. left. eexists _, _. done. }
  apply orb_false_elim in Hcheck as [Hcheck Harg]. apply orb_false_elim in Hcheck as [Hlo Hhi].
  apply Nat.ltb_ge in Hlo, Hhi. apply negb_false_iff, bool_decide_eq_true in Harg.
  destruct (parseStringAt args 0) as [[args1 [s|err]]|] eqn:Hs; [| |done]; cbn.
  2:{ intros (e & He%wrapError_inv & ->)%failed_inv. left. eexists _, _. done. }
  apply parseStringAt_length in Hs.
  unfold modulePathMajor. destruct (module_SplitPathVersion s) as [[prefix major]|].
  2:{ intros (e & He%wrapModPathError_inv & ->)%failed_inv. left. eexists _, _. done. }
  destruct Harrow as [[Ha Harg1]|[Ha Harg1]]; rewrite Ha in *; cbn [Nat.eqb].
  - intros Hnew. apply parseReplace_new_cases in Hnew; [|lia].
    destruct Hnew as [?|(args' & ns & nv & -> & Hlen & Hdir)]; [by left|]. right.
    eexists _, _. split_and!; [done|done|congruence|done|]. left. split_and!; [done..|lia].
  - destruct (parseVersionAt verb s args1 1) as [[args2 [v|err]]|] eqn:Hv; [| |done]; cbn.
    2:{ intros (e & He%wrapError_inv & ->)%failed_inv. left. eexists _, _. done. }
    pose proof (parseVersionAt_ok _ _ _ _ _ _ Hv) as Hne.
    apply parseVersionAt_length in Hv.
    destruct (module_CheckPathMajor v major).
    { intros (e & He%wrapModPathError_inv & ->)%failed_inv. left. eexists _, _. done. }
    intros Hnew. apply parseReplace_new_cases in Hnew; [|lia].
    destruct Hnew as [?|(args' & ns & nv & -> & Hlen & Hdir)]; [by left|]. right.
    eexists _, _. split_and!; [done|done|congruence|done|]. right.
    split_and!; [done..|lia].
Qed.

End WithLib.

(** X17.  An entry that [parseReplace] returns has a replacement without a
    version exactly when the replacement is a directory path. *)
Theorem parseReplace_directory_or_version `{GoLib} `{ModLib} (filename : string)
    (lines : list Line) (line : option loc) (verb : string) (args args' : list string)
    (r : Replace) :
  parseReplace filename lines line verb args = Some (args', inl r) ->
  Vers (New r) = "" <-> modfile_IsDirectoryPath (Path (New r)) = true.
Proof.
  intros [(? & ? & [=] & _)|(? & ? & [= <- <-] & _ & _ & Hdir & _)]%parseReplace_cases.
  done.
Qed.

(** X18.  An entry that [parseReplace] returns comes from three to five
    arguments with the arrow in the second or in the third place: in
    the second place the entry is for every version of the old path,
    in the third it has a version, which is not empty.  The entry
    points to the line given, and the slice keeps its length. *)
Theorem parseReplace_arrow `{GoLib} `{ModLib} (filename : string)
    (lines : list Line) (line : option loc) (verb : string) (args args' : list string)
    (r : Replace) :
  parseReplace filename lines line verb args = Some (args', inl r) ->
  Syntax r = line /\ length args' = length args
  /\ ((args !! 1 = Some "=>" /\ Vers (Old r) = "" /\ (length args = 3 \/ length args = 4))
      \/ (args !! 1 <> Some "=>" /\ args !! 2 = Some "=>" /\ Vers (Old r) <> ""
          /\ (length args = 4 \/ length args = 5))).
Proof.
  intros [(? & ? & [=] & _)|(? & ? & [= <- <-] & ? & ? & _ & ?)]%parseReplace_cases.
  done.
Qed.

(** X19.  Every error that [parseReplace] returns carries the file name and
    the start of the line: a call with a nil line returns no error, it
    panics where it would make one. *)
Theorem parseReplace_error_located `{GoLib} `{ModLib} (filename : string)
    (lines : list Line) (line : option loc) (verb : string) (args args' : list string)
    (e : ModError) :
  parseReplace filename lines line verb args = Some (args', inr e) ->
  Filename e = filename
  /\ exists l ln, line = Some l /\ lines !! l = Some ln /\ Pos e = line_Start ln.
Proof.
  intros [(? & ? & [= <- <-] & Hf & Hp)|(? & ? & [=] & _)]%parseReplace_cases.
  split; [done|]. unfold line_start in Hp.
  destruct line as [l|]; [|done]. cbn in Hp.
  destruct (lines !! l) as [ln|] eqn:Hln; [|done]. injection Hp as Hp. eauto.
Qed.

(** X20.  When the arguments are fewer than three or more than five, or have
    the arrow neither in the second nor in the third place,
    [parseReplace] returns the usage error and leaves the arguments as
    they are. *)
Theorem parseReplace_usage `{GoLib} `{ModLib} (filename : string)
    (lines : list Line) (l : loc) (ln : Line) (verb : string) (args : list string) :
  lines !! l = Some ln ->
  length args < 3 \/ 5 < length args
  \/ (args !! 1 <> Some "=>" /\ args !! 2 <> Some "=>") ->
  parseReplace filename lines (Some l) verb args
  = Some (args, inr (mkModError filename (line_Start ln) "" ""
                       (Errorf usage [VStr verb; VStr verb]))).
Proof.
  intros Hln Hargs. unfold parseReplace.
  set (arrow := if (2 <=? length args)%nat && bool_decide (args !! 1 = Some "=>")
                then 1 else 2).
  assert (Hcheck : (length args <? arrow + 2)%nat || (arrow + 3 <? length args)%nat
                   || negb (bool_decide (args !! arrow = Some "=>")) = true).
  { subst arrow. case_bool_decide as Hd.
    - apply lookup_lt_Some in Hd as Hlt.
      destruct (Nat.leb_spec 2 (length args)); [|lia]. cbn [andb].
      destruct Hargs as [?|[?|[? _]]]; [| |done].
      + destruct (Nat.ltb_spec (length args) (1 + 2)); [done|lia].
      + destruct (Nat.ltb_spec (1 + 3) (length args)); [|lia]. by rewrite orb_true_r.
    - rewrite andb_false_r.
      destruct Hargs as [?|[?|[_ ?]]].
      + destruct (Nat.ltb_spec (length args) (2 + 2)); [done|lia].
      + destruct (Nat.ltb_spec (2 + 3) (length args)); [|lia]. by rewrite orb_true_r.
      + rewrite bool_decide_eq_false_2 by done. by rewrite orb_true_r. }
  rewrite Hcheck. unfold failed, errorf, wrapError, line_start. cbn. unfold loc in *.
  by rewrite Hln.
Qed.

(** [parseVersion] returns a version that is canonical and not empty,
    and then [*s] is that version too; or it returns a
    [modfile.Error] with the verb and the path that holds a
    [module.InvalidVersionError]. *)
Theorem parseVersion_canonical_or_invalid `{GoLib} (verb path s : string) :
  match parseVersion verb path s with
  | (s', inl v) => v <> "" /\ s' = v /\ exists t, v = module_CanonicalVersion t
  | (s', inr e) =>
      exists version err,
        e = modfile_Error "" zeroPos path verb (InvalidVersionError version err)
  end.
Proof.
  destruct (parseVersion verb path s) as [s' [v|e]] eqn:Hv.
  - by eapply parseVersion_ok.
  - by eapply parseVersion_error.
Qed.

End DirectiveFacts.

(** ** What [addLine] and [addReplace] keep *)

Module KeepFacts.
Import Edit EditFacts ReplaceFacts.

(** The ways out of [addLine]. *)
Inductive outcome (x : FileStore) (t : string) (rest : list string) : FileStore -> Prop :=
  | out_after i : outcome x t rest (fst (newLineAfter x (t :: rest) i))
  | out_end : outcome x t rest (fst (atEnd x (t :: rest)))
  | out_block i l ln tail :
      f_lines x !! l = Some ln -> line_Token ln = t :: tail ->
      outcome x t rest (fst (asBlock x i l ln t tail rest))
  | out_line b blk ls :
      f_blocks x !! b = Some blk ->
      outcome x t rest
        (set_blocks (<[b := b_set_Line ls blk]> (f_blocks x))
           (set_lines (f_lines x ++ [newLine rest true]) x)).

Lemma atHint_outcome x hint t rest i ss r :
  atHint x hint (t :: rest) i ss = Some (Some r) -> outcome x t rest (fst r).
Proof.
  revert i. induction ss as [|s ss IH]; intros i; [done|].
  destruct s as [l|b|c]; cbn [atHint]; [| |apply IH].
  - case_bool_decide as Hh; [|apply IH].
    destruct (f_lines x !! l) as [ln|] eqn:Hln; [|done]. cbn.
    destruct (line_Token ln) as [|t' tail] eqn:Htok; cbn.
    { intros [= <-]. constructor. }
    destruct (String.eqb_spec t' t) as [->|]; cbn.
    + intros [= <-]. by apply (out_block x t rest i l ln tail).
    + intros [= <-]. constructor.
  - destruct (f_blocks x !! b) as [blk|] eqn:Hblk; cbn.
    2:{ case_bool_decide; done. }
    case_bool_decide as Hh; cbn.
    + destruct (head (b_Token blk)) as [t'|]; [|done]. cbn.
      destruct (String.eqb t' t); cbn; intros [= <-]; [|constructor].
      by apply (out_line x t rest b blk).
    + destruct (findLine hint (b_Line blk) 0) as [j|]; [|apply IH].
      destruct (head (b_Token blk)) as [t'|]; [|done]. cbn.
      destruct (String.eqb t' t); cbn; intros [= <-]; [|constructor].
      by apply (out_line x t rest b blk).
Qed.

Lemma addLine_outcome x hint t rest r :
  addLine x hint (t :: rest) = Some r -> outcome x t rest (fst r).
Proof.
  unfold addLine.
  destruct (if bool_decide (hint = ENil) then _ else _) as [h|]; [|done].
  cbn [mbind option_bind].
  destruct (if bool_decide (h = ENil) then _ else _) as [[r'|]|] eqn:Hat; [| |done]; cbn.
  - intros [= <-]. case_bool_decide; [done|]. by eapply atHint_outcome.
  - intros [= <-]. apply out_end.
Qed.

Lemma valid_stmt_stable x x' s :
  (forall l, is_Some (f_lines x !! l) -> is_Some (f_lines x' !! l)) ->
  (forall b, is_Some (firstToken x (SBlock b)) -> is_Some (firstToken x' (SBlock b))) ->
  valid_stmt x s -> valid_stmt x' s.
Proof. destruct s; cbn; auto. Qed.

Lemma lines_grow (lines : list Line) nl (l : nat) :
  is_Some (lines !! l) -> is_Some ((lines ++ [nl]) !! l).
Proof.
  intros Hl. apply lookup_lt_is_Some. rewrite length_app. cbn.
  apply lookup_lt_is_Some in Hl. lia.
Qed.

Lemma new_line_valid (lines : list Line) nl : is_Some ((lines ++ [nl]) !! length lines).
Proof. apply lookup_lt_is_Some. rewrite length_app. cbn. lia. Qed.

(** [addLine] keeps the statements of the file valid. *)
Lemma outcome_valid x t rest x' :
  outcome x t rest x' ->
  Forall (valid_stmt x) (f_Stmt x) -> Forall (valid_stmt x') (f_Stmt x').
Proof.
  intros Hout Hv. destruct Hout as [i| |i l ln tail Hln Htok|b blk ls Hblk].
  - assert (Hold : Forall (valid_stmt (set_lines (f_lines x ++ [newLine (t :: rest) false]) x))
                     (f_Stmt x)).
    { eapply Forall_impl; [exact Hv|]. intros s. apply valid_stmt_stable; [|done].
      intros l. apply lines_grow. }
    assert (Hnew : valid_stmt (set_lines (f_lines x ++ [newLine (t :: rest) false]) x)
                     (SLine (length (f_lines x)))) by apply new_line_valid.
    unfold newLineAfter. cbn. destruct (_ =? _)%nat; cbn.
    + apply Forall_app. split; [done|]. by apply Forall_singleton.
    + rewrite <- (take_drop (i + 1) (f_Stmt x)) in Hold.
      apply Forall_app in Hold as [? ?]. apply Forall_app. split; [done|].
      by apply Forall_cons.
  - cbn. apply Forall_app. split.
    + eapply Forall_impl; [exact Hv|]. intros s. apply valid_stmt_stable; [|done].
      intros l. apply lines_grow.
    + apply Forall_singleton. apply new_line_valid.
  - cbn. apply Forall_insert.
    + eapply Forall_impl; [exact Hv|]. intros s. apply valid_stmt_stable; cbn.
      * intros l' Hl'. apply lines_grow. apply lookup_lt_is_Some.
        rewrite length_insert. by apply lookup_lt_is_Some.
      * intros b [t' Hb]. exists t'.
        destruct (f_blocks x !! b) as [blk|] eqn:Hblk; [|done].
        by rewrite (lookup_app_l_Some _ _ _ _ Hblk).
    + cbn. rewrite list_lookup_middle by done. by eexists.
  - cbn. eapply Forall_impl; [exact Hv|]. intros s. apply valid_stmt_stable; cbn.
    + intros l. apply lines_grow.
    + intros b' [t' Hb']. exists t'.
      destruct (decide (b' = b)) as [->|].
      * unfold loc in *. rewrite Hblk in Hb'.
        rewrite list_lookup_insert_eq by (by eapply lookup_lt_Some). done.
      * by rewrite list_lookup_insert_ne.
Qed.


Lemma valid_entries_after `{GoLib} oldPath oldVers newPath newVers n need rs :
  Forall (valid_entry n) rs ->
  Forall (valid_entry n) (entries_after oldPath oldVers newPath newVers need rs).
Proof.
  intros Hv. revert need. induction Hv as [|r rs Hr _ IH]; intros need; [done|]. cbn.
  destruct (isFor oldPath oldVers r); apply Forall_cons; (split; [|done]); [|done].
  destruct need; [done|]. by split.
Qed.

Lemma syntax_entries_after_sublist `{GoLib} oldPath oldVers newPath newVers need rs :
  omap Syntax (entries_after oldPath oldVers newPath newVers need rs)
  `sublist_of` omap Syntax rs.
Proof.
  revert need. induction rs as [|r rs IH]; intros need; [done|]. cbn.
  destruct (isFor oldPath oldVers r); cbn.
  - destruct need; cbn.
    + destruct (Syntax r); [by apply sublist_skip|done].
    + destruct (Syntax r); [by apply sublist_cons|done].
  - destruct (Syntax r); [by apply sublist_skip|done].
Qed.

(** X23.  [addReplace] keeps a manifest well formed, so that calls can
    follow one another: after a call the statements of the file are
    valid, every entry that is not zeroed leads to a line of the file,
    and no two entries lead to the same line. *)
Theorem addReplace_keeps_manifest `{GoLib} (x : FileStore) (rs : list Replace)
    (oldPath oldVers newPath newVers : string) :
  manifest x rs -> oldPath <> "" ->
  exists x1 rs1,
    addReplace x rs oldPath oldVers newPath newVers = Some (x1, rs1, None)
    /\ manifest x1 rs1.
Proof.
  intros (Hvx & Hvr & Hnd) Hp.
  pose proof (manifest_reachable oldPath oldVers _ rs Hp Hvr) as Hreach.
  destruct (existsb (isFor oldPath oldVers) rs) eqn:Hex.
  - rewrite addReplace_found by done. eexists _, _. split; [done|]. split_and!.
    + cbn. eapply Forall_impl; [exact Hvx|]. intros s. apply valid_stmt_stable; [|done].
      cbn. intros l Hl. apply lookup_lt_is_Some. rewrite length_lines_after.
      by apply lookup_lt_is_Some.
    + cbn. rewrite length_lines_after. by apply valid_entries_after.
    + eapply sublist_NoDup; [exact Hnd|apply syntax_entries_after_sublist].
  - rewrite addReplace_missing by done.
    destruct (tokens_cons oldPath oldVers newPath newVers) as [rest Htok].
    rewrite Htok.
    destruct (addLine_total x (EPLine (hint_after oldPath oldVers true rs None))
                "replace" rest Hvx) as ([x1 l] & Hadd & Ha).
    rewrite Hadd. cbn [mbind option_bind fst snd].
    eexists _, _. split; [done|].
    pose proof (added_length _ _ _ _ _ Ha) as Hlen. destruct Ha as [Hl _].
    cbn in Hl, Hlen. subst l. split_and!.
    + eapply outcome_valid; [|done].
      by apply (addLine_outcome x (EPLine (hint_after oldPath oldVers true rs None))
                  "replace" rest (x1, length (f_lines x))).
    + apply Forall_app. split.
      * eapply Forall_impl; [exact Hvr|]. intros r. apply valid_entry_mono. lia.
      * apply Forall_singleton. split; [done|]. cbn. intros ? [= <-]. lia.
    + rewrite omap_app. cbn. apply NoDup_app. split_and!; [done| |apply NoDup_singleton].
      intros l (r & Hr & Hsyn)%list_elem_of_omap ->%list_elem_of_singleton.
      apply (Forall_forall (valid_entry (length (f_lines x))) rs) in Hr; [|done].
      destruct Hr as [_ Hlt]. specialize (Hlt _ Hsyn). lia.
Qed.

Lemma hint_after_other_path `{GoLib} oldPath oldVers need rs hint :
  Forall (fun r => Path (Old r) <> oldPath) rs ->
  hint_after oldPath oldVers need rs hint = hint.
Proof.
  intros Hrs. revert need hint. induction Hrs as [|r rs Hr _ IH]; intros need hint; [done|].
  cbn. assert (Hfor : isFor oldPath oldVers r = false).
  { unfold isFor. by destruct (String.eqb_spec (Path (Old r)) oldPath). }
  rewrite Hfor. destruct (String.eqb_spec (Path (Old r)) oldPath); [done|]. apply IH.
Qed.

Lemma hint_after_last `{GoLib} oldPath oldVers pre r post hint :
  existsb (isFor oldPath oldVers) (pre ++ [r]) = false ->
  Path (Old r) = oldPath ->
  Forall (fun r => Path (Old r) <> oldPath) post ->
  hint_after oldPath oldVers true (pre ++ r :: post) hint = Syntax r.
Proof.
  intros Hex Hr Hpost. revert hint. induction pre as [|r0 pre IH]; intros hint.
  - cbn in Hex |- *. apply orb_false_elim in Hex as [-> _].
    rewrite Hr, String.eqb_refl. by apply hint_after_other_path.
  - cbn in Hex |- *. apply orb_false_elim in Hex as [-> Hex]. by apply IH.
Qed.

(** X24.  When the entries hold none for the old coordinate but some for the
    old path (with other versions), [addReplace] gives the line of the
    last of them as hint; if that line is a statement of the file, the
    new line joins it: the two become a block in its place. *)
Theorem addReplace_joins_entry_of_path `{GoLib} (x : FileStore)
    (pre post : list Replace) (r : Replace) (oldPath oldVers newPath newVers : string)
    (spre spost : list Stmt) (l : loc) (ln : Line) (tail : list string) :
  tree x ->
  existsb (isFor oldPath oldVers) (pre ++ r :: post) = false ->
  Path (Old r) = oldPath ->
  Forall (fun r => Path (Old r) <> oldPath) post ->
  Syntax r = Some l -> f_Stmt x = spre ++ SLine l :: spost ->
  f_lines x !! l = Some ln -> line_Token ln = "replace" :: tail ->
  addReplace x (pre ++ r :: post) oldPath oldVers newPath newVers
  = Some (fst (asBlock x (length spre) l ln "replace" tail
                 (List.tail (replaceTokens oldPath oldVers newPath newVers))),
          (pre ++ r :: post)
          ++ [mkReplace (mkVersion oldPath oldVers) (mkVersion newPath newVers)
                        (Some (length (f_lines x)))],
          None).
Proof.
  intros Ht Hex Hr Hpost Hsyn HS Hln Htok.
  rewrite addReplace_missing by done.
  rewrite hint_after_last; [|by rewrite cons_middle, app_assoc, existsb_app in Hex;
                               apply orb_false_elim in Hex as [? _]|done..].
  rewrite Hsyn.
  destruct (tokens_cons oldPath oldVers newPath newVers) as [rest ->]. cbn [List.tail].
  unfold addLine. rewrite bool_decide_eq_false_2 by done. cbn [mbind option_bind].
  rewrite bool_decide_eq_false_2 by done.
  by rewrite (atHint_line x "replace" rest spre l ln tail spost).
Qed.

End KeepFacts.

(** ** Quoting and reading back *)

Module QuoteFacts.
Import Edit.

(** The bytes that [utf8.DecodeRune] takes after the first one are
    continuation bytes. *)
Lemma DecodeRune_continuation b0 p1 c :
  c ∈ take ((DecodeRune (b0 :: p1)).2 - 1) p1 -> (128 <= bval c)%Z.
Proof.
  unfold DecodeRune, between.
  repeat match goal with
         | |- context [if ?b then _ else _] => destruct b eqn:?
         | |- context [match ?l with [] => _ | _ :: _ => _ end] => destruct l
         end; cbn; rewrite ?take_0;
    try (by intros []%elem_of_nil);
    repeat (intros [->|H]%elem_of_cons; [lia|revert H]);
    try (by intros []%elem_of_nil).
Qed.

Lemma length_bytes s : length (bytes s) = String.length s.
Proof. induction s as [|c s IH]; cbn; [done|]. by rewrite <- IH. Qed.

Section WithLib.
Context `{GoLib}.

(** Every ASCII byte of a string is one of its runes. *)
Lemma runes_ascii n s c :
  length s <= n -> c ∈ s -> (bval c < 128)%Z -> bval c ∈ runes n s.
Proof.
  revert s. induction n as [|n IH]; intros s Hlen Hc Hascii.
  { destruct s; [by apply elem_of_nil in Hc|cbn in Hlen; lia]. }
  destruct s as [|b0 p1]; [by apply elem_of_nil in Hc|]. cbn [runes].
  destruct (DecodeRune (b0 :: p1)) as [r size] eqn:Hd.
  pose proof (LexerFacts.DecodeRune_size (b0 :: p1)) as Hsize. rewrite Hd in Hsize.
  cbn [snd length] in Hsize. specialize (Hsize ltac:(done)).
  apply elem_of_cons in Hc as [->|Hc].
  - unfold DecodeRune in Hd. destruct (Z.ltb_spec (bval b0) 128); [|lia].
    injection Hd as <- _. by left.
  - right. apply IH; [|  |done].
    + rewrite length_drop. cbn in Hlen |- *. lia.
    + destruct size as [|size]; [lia|]. cbn [drop].
      rewrite <- (take_drop size p1) in Hc. apply elem_of_app in Hc as [Hc|Hc]; [|done].
      exfalso. pose proof (DecodeRune_continuation b0 p1 c) as Hcont.
      rewrite Hd in Hcont. cbn [snd] in Hcont.
      replace (S size - 1) with size in Hcont by lia.
      specialize (Hcont Hc). lia.
Qed.

Lemma MustQuote_false_no_quote s :
  MustQuote s = false ->
  forall c, c ∈ bytes s -> c <> "034"%char /\ c <> "'"%char /\ c <> "`"%char.
Proof.
  unfold MustQuote. intros [[[Hr _]%orb_false_elim _]%orb_false_elim _]%orb_false_elim c Hc.
  assert (Hall : forall r, r ∈ runes (String.length s) (bytes s) ->
                   r <> bval "034" /\ r <> bval "'" /\ r <> bval "`").
  { intros r Hin. rewrite <- not_true_iff_false in Hr.
    split_and!; intros ->; apply Hr; apply existsb_exists;
      eexists; (split; [by apply list_elem_of_In|]); by vm_compute. }
  assert (Hlen : length (bytes s) <= String.length s).
  { by rewrite length_bytes. }
  split_and!; intros ->; (edestruct Hall as (? & ? & ?); [by apply runes_ascii|done]).
Qed.

End WithLib.

(** X21.  A string written by [AutoQuote] is read back by [parseString] as
    the string it was made from, and [parseString] leaves it as it
    is, given that [strconv.Quote] makes a string that begins with a
    quotation mark and that [strconv.Unquote] reads back. *)
Theorem parseString_reads_AutoQuote `{GoLib} (t : string) :
  HasPrefix (bytes (strconv_Quote t)) ["034"%char] = true ->
  strconv_Unquote (strconv_Quote t) = Some t ->
  parseString (AutoQuote t) = (AutoQuote t, inl t).
Proof.
  intros Hprefix Hunquote. unfold AutoQuote at 1. unfold parseString.
  destruct (MustQuote t) eqn:Hm.
  - rewrite Hprefix, Hunquote. unfold AutoQuote. by rewrite Hm.
  - pose proof (MustQuote_false_no_quote t Hm) as Hno.
    assert (Hp : HasPrefix (bytes t) ["034"%char] = false).
    { destruct (bytes t) as [|c rest] eqn:Hb; [done|]. cbn.
      destruct (Hno c) as [Hc _]; [by left|]. by rewrite bool_decide_eq_false_2. }
    assert (Hc : containsQuote t = false).
    { unfold containsQuote. rewrite <- not_true_iff_false.
      intros (c & Hin%list_elem_of_In & Hq%bool_decide_eq_true)%existsb_exists.
      destruct (Hno c Hin) as (? & ? & ?). tauto. }
    rewrite Hp, Hc. unfold AutoQuote. by rewrite Hm.
Qed.

End QuoteFacts.

(** ** Facts on [mod why] *)

Module WhyFacts.
Import Why.

Lemma append_assoc (a b c : string) : (a +:+ b) +:+ c = a +:+ (b +:+ c).
Proof.
  induction a as [|x a IH]; [done|].
  change (String x ((a +:+ b) +:+ c) = String x (a +:+ (b +:+ c))). by rewrite IH.
Qed.

Lemma append_nil_r (a : string) : a +:+ "" = a.
Proof.
  induction a as [|x a IH]; [done|].
  change (String x (a +:+ "") = String x a). by rewrite IH.
Qed.

(** The stanza of an argument: its title, then the files that import
    it, one on a line, or the marker when the map does not have it. *)
Definition stanza (modulePath : string) (importToFilesMap : gmap string (list string))
    (arg : string) : string :=
  "# " +:+ arg +:+ lf +:+
  match importToFilesMap !! arg with
  | None => "(module " +:+ modulePath +:+ " does not need package " +:+ arg +:+ ")" +:+ lf
  | Some files => String.concat "" (map (fun file => file +:+ lf) files)
  end.

Lemma files_lines out files :
  foldl (fun out file => out +:+ file +:+ lf) out files
  = out +:+ String.concat "" (map (fun file => file +:+ lf) files).
Proof.
  revert out. induction files as [|f files IH]; intros out; cbn [foldl map].
  { by rewrite append_nil_r. }
  rewrite IH. cbn beta. rewrite append_assoc. f_equal.
  destruct files as [|g files]; cbn [map String.concat]; [by rewrite append_nil_r|].
  done.
Qed.

Lemma stanza_turn_stanza modulePath n m out i arg :
  stanza_turn modulePath n m out i arg
  = out +:+ stanza modulePath m arg +:+ (if (Z.of_nat i <? Z.of_nat n - 1)%Z then lf else "").
Proof.
  unfold stanza_turn, stanza. destruct (m !! arg) as [files|].
  - rewrite files_lines. destruct (_ <? _)%Z; rewrite ?append_nil_r, !append_assoc; done.
  - destruct (_ <? _)%Z; rewrite ?append_nil_r, !append_assoc; done.
Qed.

Lemma range_stanzas modulePath n m out i args :
  i + length args = n ->
  range_from (stanza_turn modulePath n m) out i args
  = out +:+ String.concat lf (map (stanza modulePath m) args).
Proof.
  revert out i. induction args as [|arg args IH]; intros out i Hn; cbn [range_from map].
  { by rewrite append_nil_r. }
  cbn [length] in Hn. rewrite IH by lia. rewrite stanza_turn_stanza.
  destruct args as [|arg' args]; cbn [map String.concat length] in *.
  - destruct (Z.ltb_spec (Z.of_nat i) (Z.of_nat n - 1)); [lia|].
    by rewrite !append_nil_r.
  - destruct (Z.ltb_spec (Z.of_nat i) (Z.of_nat n - 1)); [|lia].
    by rewrite !append_assoc.
Qed.

(** X12.  The output of [formatModWhyStanzas] is the stanzas of its
    arguments, in their order, with one empty line between two
    stanzas and none after the last. *)
Theorem formatModWhyStanzas_stanzas (modulePath : string) (args : list string)
    (importToFilesMap : gmap string (list string)) :
  formatModWhyStanzas modulePath args importToFilesMap
  = String.concat lf (map (stanza modulePath importToFilesMap) args).
Proof. unfold formatModWhyStanzas. by rewrite range_stanzas. Qed.

(** X13.  For an argument that the map does not have, alone on the command
    line, the output is the title and the marker. *)
Theorem formatModWhyStanzas_not_needed (modulePath arg : string)
    (importToFilesMap : gmap string (list string)) :
  importToFilesMap !! arg = None ->
  formatModWhyStanzas modulePath [arg] importToFilesMap
  = "# " +:+ arg +:+ lf
    +:+ "(module " +:+ modulePath +:+ " does not need package " +:+ arg +:+ ")" +:+ lf.
Proof.
  intros Hno. unfold formatModWhyStanzas. rewrite range_stanzas by done.
  cbn. unfold stanza. by rewrite Hno.
Qed.

(** The files [getImportToFilesMap] does not read: those whose
    extension is not [.gno], and the file tests. *)
Definition skipped (filename : string) : bool :=
  negb (String.eqb (Ext filename) ".gno")
  || Reader.HasSuffix (bytes filename) (bytes "_filetest.gno").

(** The files of the pairs (import, file) that are for [imp]. *)
Definition files_of (pairs : list (string * string)) (imp : string) : list string :=
  (filter (fun p => fst p = imp) pairs).*2.

(** A map holds the pairs: each import has its files, in the order of
    the pairs, and an import without a file is not a key. *)
Definition holds (m : gmap string (list string)) (pairs : list (string * string)) : Prop :=
  forall imp, m !! imp = match files_of pairs imp with [] => None | fs => Some fs end.

Lemma files_of_snoc pairs imp' f imp :
  files_of (pairs ++ [(imp', f)]) imp
  = files_of pairs imp ++ (if decide (imp' = imp) then [f] else []).
Proof.
  unfold files_of. rewrite filter_app, fmap_app. f_equal.
  destruct (decide (imp' = imp)).
  - by rewrite filter_cons_True.
  - by rewrite filter_cons_False.
Qed.

Lemma holds_default m pairs imp : holds m pairs -> default [] (m !! imp) = files_of pairs imp.
Proof. intros Hm. rewrite (Hm imp). by destruct (files_of pairs imp). Qed.

Lemma holds_add m pairs f imp :
  holds m pairs -> holds (add_import f m imp) (pairs ++ [(imp, f)]).
Proof.
  intros Hm imp'. unfold add_import. rewrite files_of_snoc.
  destruct (decide (imp = imp')) as [->|].
  - rewrite lookup_insert_eq, (holds_default m pairs) by done.
    by destruct (files_of pairs imp').
  - rewrite lookup_insert_ne by done. rewrite app_nil_r. apply Hm.
Qed.

Lemma holds_imports m pairs f imports :
  holds m pairs ->
  holds (foldl (add_import f) m imports) (pairs ++ map (fun imp => (imp, f)) imports).
Proof.
  revert m pairs. induction imports as [|imp imports IH]; intros m pairs Hm; cbn.
  { by rewrite app_nil_r. }
  replace (pairs ++ (imp, f) :: map (fun imp => (imp, f)) imports)
    with ((pairs ++ [(imp, f)]) ++ map (fun imp => (imp, f)) imports)
    by (by rewrite <- app_assoc).
  by apply IH, holds_add.
Qed.

Section WithFiles.
Variable ReadDir : string -> goerr + list string.
Variable filepath_Join : string -> string -> string.
Variable GetGnoFileImports : string -> goerr + list string.

(** The pairs (import, file) of a directory: for each file that is
    read, in the order of the directory, its imports in their order. *)
Definition pairs_of (pkgPath : string) (entries : list string) : list (string * string) :=
  entries ≫= fun f =>
    if skipped f then []
    else match GetGnoFileImports (filepath_Join pkgPath f) with
         | inl _ => []
         | inr imports => map (fun imp => (imp, f)) imports
         end.

Lemma file_turn_error pkgPath err entries :
  foldl (file_turn filepath_Join GetGnoFileImports pkgPath) (inl err) entries = inl err.
Proof. by induction entries. Qed.

Lemma files_hold pkgPath entries m pairs m' :
  holds m pairs ->
  foldl (file_turn filepath_Join GetGnoFileImports pkgPath) (inr m) entries = inr m' ->
  holds m' (pairs ++ pairs_of pkgPath entries).
Proof.
  revert m pairs. induction entries as [|f entries IH]; intros m pairs Hm; cbn [foldl].
  { intros [= <-]. unfold pairs_of. cbn. by rewrite app_nil_r. }
  unfold pairs_of. rewrite bind_cons. fold (pairs_of pkgPath entries).
  unfold file_turn at 2, skipped.
  destruct (negb (Ext f =? ".gno")%string); cbn [orb]; [by apply IH|].
  destruct (Reader.HasSuffix _ _); [by apply IH|].
  destruct (GetGnoFileImports (filepath_Join pkgPath f)) as [err|imports].
  { by rewrite file_turn_error. }
  rewrite (assoc_L _ pairs). by apply IH, holds_imports.
Qed.

Lemma holds_empty : holds ∅ [].
Proof. intros imp. by rewrite lookup_empty. Qed.

End WithFiles.

(** X14.  When [getImportToFilesMap] returns a map, an import path is a key
    of it exactly when a file that is read imports it, and its value
    is those files in the order of the directory (a file once for each
    time it lists the import).  The files read are those with the
    extension [.gno] that are not file tests; test files are read. *)
Theorem getImportToFilesMap_holds (ReadDir : string -> goerr + list string)
    (filepath_Join : string -> string -> string)
    (GetGnoFileImports : string -> goerr + list string)
    (pkgPath : string) (entries : list string) (m : gmap string (list string)) :
  ReadDir pkgPath = inr entries ->
  getImportToFilesMap ReadDir filepath_Join GetGnoFileImports pkgPath = inr m ->
  forall imp,
    m !! imp
    = match files_of (pairs_of filepath_Join GetGnoFileImports pkgPath entries) imp with
      | [] => None
      | files => Some files
      end.
Proof.
  unfold getImportToFilesMap. intros -> Hm.
  apply (files_hold filepath_Join GetGnoFileImports pkgPath entries ∅ [] m holds_empty Hm).
Qed.

(** X15.  [getImportToFilesMap] never reads a file it skips: what
    [GetGnoFileImports] would give for a file whose extension is not
    [.gno], or for a file test, has no effect on the result, be it an
    error. *)
Theorem getImportToFilesMap_skips (ReadDir : string -> goerr + list string)
    (filepath_Join : string -> string -> string)
    (imports1 imports2 : string -> goerr + list string)
    (pkgPath : string) (entries : list string) :
  ReadDir pkgPath = inr entries ->
  (forall f, f ∈ entries -> skipped f = false ->
             imports1 (filepath_Join pkgPath f) = imports2 (filepath_Join pkgPath f)) ->
  getImportToFilesMap ReadDir filepath_Join imports1 pkgPath
  = getImportToFilesMap ReadDir filepath_Join imports2 pkgPath.
Proof.
  unfold getImportToFilesMap. intros -> Hsame.
  generalize (inr ∅ : goerr + gmap string (list string)).
  induction entries as [|f entries IH]; intros acc; [done|]. cbn [foldl].
  assert (Hf : file_turn filepath_Join imports1 pkgPath acc f
               = file_turn filepath_Join imports2 pkgPath acc f).
  { unfold file_turn. destruct acc as [|m]; [done|].
    destruct (negb (Ext f =? ".gno")%string) eqn:Hext; [done|].
    destruct (Reader.HasSuffix _ _) eqn:Hsuf; [done|].
    rewrite Hsame; [done|by left|]. unfold skipped. by rewrite Hext, Hsuf. }
  rewrite Hf. apply IH. intros g Hg. apply Hsame. by right.
Qed.

(** X16.  [getImportToFilesMap] fails when the directory cannot be read, and
    with the error of the first file it reads whose imports cannot be
    had. *)
Theorem getImportToFilesMap_first_error (ReadDir : string -> goerr + list string)
    (filepath_Join : string -> string -> string)
    (GetGnoFileImports : string -> goerr + list string)
    (pkgPath : string) (pre post : list string) (f : string) (err : goerr) :
  ReadDir pkgPath = inr (pre ++ f :: post) ->
  Forall (fun g => skipped g = true
                   \/ exists imports, GetGnoFileImports (filepath_Join pkgPath g) = inr imports)
         pre ->
  skipped f = false ->
  GetGnoFileImports (filepath_Join pkgPath f) = inl err ->
  getImportToFilesMap ReadDir filepath_Join GetGnoFileImports pkgPath = inl err.
Proof.
  unfold getImportToFilesMap. intros -> Hpre Hf Herr.
  generalize (∅ : gmap string (list string)).
  induction Hpre as [|g pre Hg _ IH]; intros m; cbn [app foldl].
  - unfold file_turn at 2. unfold skipped in Hf. apply orb_false_elim in Hf as [-> ->].
    rewrite Herr. apply file_turn_error.
  - unfold file_turn at 2. unfold skipped in Hg.
    destruct (negb (Ext g =? ".gno")%string); [apply IH|].
    destruct (Reader.HasSuffix _ _); [apply IH|].
    destruct Hg as [?|[imports ->]]; [done|]. apply IH.
Qed.

End WhyFacts.

(** ** Facts on [load] *)

Module LoadFacts.
Import Load.

Section WithDir.
Variable filepath_Dir : string -> string.

(** The directories of the gno files among the calls of a walk. *)
Definition gno_dirs (calls : list (string * (goerr + DirEntry))) : list string :=
  omap (fun call => match snd call with
                    | inr f => if IsGnoFile f then Some (filepath_Dir (fst call)) else None
                    | inl _ => None
                    end) calls.

(** The walk so far: [visited] is the set of the paths given to
    [addPath], and no path was given twice. *)
Definition walked (st : gset string * list string) : Prop :=
  (forall d, d ∈ fst st <-> d ∈ snd st) /\ NoDup (snd st).

Lemma IsGnoFile_not_dir f : IsGnoFile f = true -> IsDir f = false.
Proof.
  unfold IsGnoFile. intros [_ Hd]%andb_true_iff. by apply negb_true_iff in Hd.
Qed.

Lemma walkFn_walked root st call st' :
  walked st -> walkFn filepath_Dir root st call = inr st' ->
  walked st'
  /\ (forall d, d ∈ snd st' <-> d ∈ snd st \/ d ∈ gno_dirs [call]).
Proof.
  intros [Hset Hnd]. destruct st as [visited added], call as [path [err|f]]; cbn; [done|].
  unfold gno_dirs. cbn. destruct (IsGnoFile f) eqn:Hg; cbn.
  - rewrite (IsGnoFile_not_dir f Hg). cbn. case_bool_decide as Hv.
    + intros [= <-]. split; [done|]. intros d. cbn. split; [auto|].
      intros [?|[->|[]%elem_of_nil]%elem_of_cons]; [done|]. by apply Hset.
    + intros [= <-]. cbn in *. split.
      * split.
        -- intros d. specialize (Hset d). set_unfold. tauto.
        -- apply NoDup_app. split_and!; [done| |apply NoDup_singleton].
           intros d Hd ->%list_elem_of_singleton. apply Hv. by apply Hset.
      * intros d. set_unfold. tauto.
  - rewrite orb_true_r. intros [= <-]. split; [done|]. intros d. cbn.
    split; [auto|]. by intros [?|[]%elem_of_nil].
Qed.

Lemma walk_from_spec root calls st :
  walked st ->
  let r := walkDirForGnoDirs_from filepath_Dir root st calls in
  NoDup (fst r)
  /\ (forall d, d ∈ fst r -> d ∈ snd st \/ d ∈ gno_dirs calls)
  /\ (snd r = None ->
      Forall (fun call => exists f, snd call = inr f) calls
      /\ forall d, d ∈ snd st \/ d ∈ gno_dirs calls -> d ∈ fst r)
  /\ (forall pre path err post,
        calls = pre ++ (path, inl err) :: post ->
        Forall (fun call => exists f, snd call = inr f) pre ->
        snd r = Some (Wrap "%s: walk dir: %w" [root] (Plain err))).
Proof.
  revert st. induction calls as [|call calls IH]; intros st Hw; cbn.
  { destruct Hw as [_ Hnd]. split_and!; [done|auto| |].
    - intros _. split; [done|]. unfold gno_dirs. cbn. by intros d [?|[]%elem_of_nil].
    - by intros [|? ?] ? ? ? ?. }
  destruct (walkFn filepath_Dir root st call) as [err|st'] eqn:Hfn; cbn.
  - destruct Hw as [_ Hnd]. split_and!; [done|auto|done|].
    intros pre path err' post Hcalls Hpre.
    destruct pre as [|c pre]; cbn in Hcalls; injection Hcalls as -> ->.
    + destruct st as [visited added]. cbn in Hfn. by injection Hfn as <-.
    + exfalso. apply Forall_cons in Hpre as [[f Hf] _].
      destruct st as [visited added], c as [p [e|f']]; cbn in *; [done|].
      by repeat case_match.
  - destruct (walkFn_walked root st call st' Hw Hfn) as [Hw' Hmem].
    destruct (IH st' Hw') as (Hnd & Hsub & Hall & Herr). cbv zeta in *.
    assert (Hcall : exists f, snd call = inr f).
    { destruct st as [visited added], call as [p [e|f]]; cbn in *; [done|eauto]. }
    assert (Hdirs : forall d, d ∈ gno_dirs (call :: calls)
                              <-> d ∈ gno_dirs [call] \/ d ∈ gno_dirs calls).
    { intros d. unfold gno_dirs. change (call :: calls) with ([call] ++ calls).
      rewrite omap_app. apply elem_of_app. }
    split_and!; [done| | |].
    + intros d Hd. apply Hsub in Hd as [Hd|Hd].
      * apply Hmem in Hd. rewrite Hdirs. tauto.
      * rewrite Hdirs. tauto.
    + intros Hnone. destruct (Hall Hnone) as [Hfs Hin]. split; [by apply Forall_cons|].
      intros d Hd. apply Hin. rewrite Hdirs in Hd. rewrite Hmem. tauto.
    + intros pre path err post Hcalls Hpre.
      destruct pre as [|c pre]; cbn in Hcalls; injection Hcalls as -> ->.
      * destruct st as [visited added]. by cbn in Hfn.
      * apply Forall_cons in Hpre as [_ Hpre]. by eapply Herr.
Qed.

Lemma walked_start : walked (∅, []).
Proof. split; [|constructor]. intros d. cbn. set_solver. Qed.

End WithDir.

Section WithFiles.
Variable Stat : string -> goerr + DirEntry.
Variable ReadDir : string -> goerr + list DirEntry.
Variable filepath_IsAbs : string -> bool.
Variable filepath_Separator : ascii.
Variable filepath_Join : string -> string -> string.

(** The paths a directory argument adds to the result of
    [GnoFilesFromArgs], and those of a file argument. *)
Definition files_of_arg (argPath : string) : list string :=
  match Stat argPath with
  | inl _ => []
  | inr info =>
      if IsDir info then
        match ReadDir argPath with
        | inl _ => []
        | inr files =>
            map (fun f => ensurePathPrefix filepath_IsAbs filepath_Separator
                            (filepath_Join argPath (Name f)))
                (filter (fun f => IsGnoFile f = true) files)
        end
      else if IsGnoFile info
           then [ensurePathPrefix filepath_IsAbs filepath_Separator argPath]
           else []
  end.

Lemma files_turn_error err args :
  foldl (files_turn Stat ReadDir filepath_IsAbs filepath_Separator filepath_Join)
        (inl err) args = inl err.
Proof. by induction args. Qed.

Lemma files_fold args paths paths' :
  foldl (files_turn Stat ReadDir filepath_IsAbs filepath_Separator filepath_Join)
        (inr paths) args = inr paths' ->
  paths' = paths ++ (args ≫= files_of_arg).
Proof.
  revert paths. induction args as [|arg args IH]; intros paths; cbn [foldl].
  { intros [= <-]. by rewrite app_nil_r. }
  rewrite bind_cons. unfold files_turn at 2, files_of_arg at 1.
  destruct (Stat arg) as [err|info]; [by rewrite files_turn_error|].
  destruct (IsDir info); cbn [negb].
  - destruct (ReadDir arg) as [err|files]; [by rewrite files_turn_error|].
    intros ->%IH. by rewrite <- app_assoc.
  - destruct (IsGnoFile info); intros ->%IH; by rewrite <- ?app_assoc.
Qed.

End WithFiles.

(** X27.  In [walkDirForGnoDirs], [addPath] gets no directory twice, and
    gets only directories of gno files that the walk meets; when the
    walk ends without an error, it has got every such directory. *)
Theorem walkDirForGnoDirs_each_directory_once (filepath_Dir : string -> string)
    (WalkDir : string -> list (string * (goerr + DirEntry))) (root : string) :
  NoDup (fst (walkDirForGnoDirs filepath_Dir WalkDir root))
  /\ (forall d, d ∈ fst (walkDirForGnoDirs filepath_Dir WalkDir root) ->
                d ∈ gno_dirs filepath_Dir (WalkDir root))
  /\ (snd (walkDirForGnoDirs filepath_Dir WalkDir root) = None ->
      forall d, d ∈ gno_dirs filepath_Dir (WalkDir root) ->
                d ∈ fst (walkDirForGnoDirs filepath_Dir WalkDir root)).
Proof.
  unfold walkDirForGnoDirs.
  destruct (walk_from_spec filepath_Dir root (WalkDir root) (∅, []) (walked_start filepath_Dir))
    as (Hnd & Hsub & Hall & _).
  split_and!; [done| |].
  - intros d Hd. by destruct (Hsub d Hd) as [[]%elem_of_nil|?].
  - intros Hnone d Hd. destruct (Hall Hnone) as [_ Hin]. apply Hin. by right.
Qed.

(** X28.  [walkDirForGnoDirs] returns the first error that [WalkDir] reports,
    wrapped with the root. *)
Theorem walkDirForGnoDirs_first_error (filepath_Dir : string -> string)
    (WalkDir : string -> list (string * (goerr + DirEntry))) (root : string)
    (pre post : list (string * (goerr + DirEntry))) (path : string) (err : goerr) :
  WalkDir root = pre ++ (path, inl err) :: post ->
  Forall (fun call => exists f, snd call = inr f) pre ->
  snd (walkDirForGnoDirs filepath_Dir WalkDir root)
  = Some (Wrap "%s: walk dir: %w" [root] (Plain err)).
Proof.
  intros Hcalls Hpre. unfold walkDirForGnoDirs.
  destruct (walk_from_spec filepath_Dir root (WalkDir root) (∅, []) (walked_start filepath_Dir))
    as (_ & _ & _ & Herr).
  by eapply Herr.
Qed.

(** X29.  When [GnoFilesFromArgs] returns paths, they are the paths of its
    arguments in order: for a directory its gno files in the order of
    [os.ReadDir], for a gno file the file itself, and nothing for any
    other file, which is no error. *)
Theorem GnoFilesFromArgs_paths (Stat : string -> goerr + DirEntry)
    (ReadDir : string -> goerr + list DirEntry) (filepath_IsAbs : string -> bool)
    (filepath_Separator : ascii) (filepath_Join : string -> string -> string)
    (args paths : list string) :
  GnoFilesFromArgs Stat ReadDir filepath_IsAbs filepath_Separator filepath_Join args
  = inr paths ->
  paths = args ≫= files_of_arg Stat ReadDir filepath_IsAbs filepath_Separator filepath_Join.
Proof. unfold GnoFilesFromArgs. by intros ->%files_fold. Qed.

Lemma HasSuffix_gno (name : list ascii) :
  Reader.HasSuffix name (bytes ".gno") = true ->
  exists rest, reverse name = "o"%char :: "n"%char :: "g"%char :: "."%char :: rest.
Proof.
  unfold Reader.HasSuffix. change (reverse (bytes ".gno"))
    with ["o"%char; "n"%char; "g"%char; "."%char].
  destruct (reverse name) as [|c1 [|c2 [|c3 [|c4 rest]]]]; cbn;
    repeat (case_bool_decide; cbn); try done.
  intros _. subst. by exists rest.
Qed.

(** X30.  A file that [IsGnoFile] accepts has the extension [.gno] for
    [getImportToFilesMap], which therefore reads it unless it is a
    file test. *)
Theorem IsGnoFile_is_read_by_mod_why (f : DirEntry) :
  IsGnoFile f = true ->
  WhyFacts.skipped (Name f)
  = Reader.HasSuffix (bytes (Name f)) (bytes "_filetest.gno").
Proof.
  unfold IsGnoFile. intros [[_ Hs]%andb_true_iff _]%andb_true_iff.
  apply HasSuffix_gno in Hs as [rest Hrev].
  unfold WhyFacts.skipped, Why.Ext. rewrite Hrev. cbn.
  repeat (rewrite bool_decide_eq_false_2 by done). by rewrite bool_decide_eq_true_2.
Qed.

End LoadFacts.

(** ** The editor on an example *)

Module EditExamples.
Import Edit EditFacts ReplaceFacts KeepFacts.

(** A file of three lines:
    module m / replace a => b / require c v1 *)
Definition three_lines : FileStore :=
  mkFileStore "gno.mod" noComments
    [newLine ["module"; "m"] false; newLine ["replace"; "a"; "=>"; "b"] false;
     newLine ["require"; "c"; "v1"] false]
    []
    [SLine 0; SLine 1; SLine 2].

(** Its entry for the replace line. *)
Definition one_entry : list Replace :=
  [mkReplace (mkVersion "a" "") (mkVersion "b" "") (Some 1)].

(** A file with a block:
    module m / replace ( a => b ; c v1.0.0 => d v1.0.0 ; c v1.0.0 => e v1.0.0 ) /
    require c v1 *)
Definition with_block : FileStore :=
  mkFileStore "gno.mod" noComments
    [newLine ["module"; "m"] false; newLine ["a"; "=>"; "b"] true;
     newLine ["c"; "v1.0.0"; "=>"; "d"; "v1.0.0"] true;
     newLine ["c"; "v1.0.0"; "=>"; "e"; "v1.0.0"] true;
     newLine ["require"; "c"; "v1"] false]
    [mkBlock noComments zeroPos (mkLParen noComments zeroPos) ["replace"] [1; 2; 3]
             (mkRParen noComments zeroPos)]
    [SLine 0; SBlock 0; SLine 4].

Definition three_entries : list Replace :=
  [mkReplace (mkVersion "a" "") (mkVersion "b" "") (Some 1);
   mkReplace (mkVersion "c" "v1.0.0") (mkVersion "d" "v1.0.0") (Some 2);
   mkReplace (mkVersion "c" "v1.0.0") (mkVersion "e" "v1.0.0") (Some 3)].

Lemma three_lines_tree : tree three_lines.
Proof.
  split_and!.
  - repeat constructor; by eexists.
  - apply (bool_decide_unpack _). by vm_compute.
  - apply (bool_decide_unpack _). by vm_compute.
Qed.

Lemma with_block_tree : tree with_block.
Proof.
  split_and!.
  - repeat constructor; by eexists.
  - apply (bool_decide_unpack _). by vm_compute.
  - apply (bool_decide_unpack _). by vm_compute.
Qed.

Lemma three_lines_manifest : manifest three_lines one_entry.
Proof.
  split_and!.
  - apply three_lines_tree.
  - repeat first
      [ by apply Forall_nil
      | apply Forall_cons; split; [split; [by eexists|intros ? [= <-]; cbn; lia]|] ].
  - apply (bool_decide_unpack _). by vm_compute.
Qed.

Lemma with_block_manifest : manifest with_block three_entries.
Proof.
  split_and!.
  - apply with_block_tree.
  - repeat first
      [ by apply Forall_nil
      | apply Forall_cons; split; [split; [by eexists|intros ? [= <-]; cbn; lia]|] ].
  - apply (bool_decide_unpack _). by vm_compute.
Qed.

Lemma addLine_no_hint_no_statement_of_type_witness :
  addLine three_lines ENil ["exclude"; "z"; "v1"]
  = Some (atEnd three_lines ["exclude"; "z"; "v1"]).
Proof.
  apply addLine_no_hint_no_statement_of_type; [apply three_lines_tree|].
  repeat constructor; by vm_compute.
Defined.

Lemma addLine_no_hint_last_block_witness :
  addLine with_block ENil ["replace"; "x"; "=>"; "y"]
  = Some (atEndOfBlock with_block 0
            (mkBlock noComments zeroPos (mkLParen noComments zeroPos) ["replace"] [1; 2; 3]
                     (mkRParen noComments zeroPos))
            ["x"; "=>"; "y"]).
Proof.
  apply (addLine_no_hint_last_block with_block "replace" ["x"; "=>"; "y"]
           [SLine 0] [SLine 4] 0); [apply with_block_tree|done..|].
  repeat constructor; by vm_compute.
Defined.

Lemma addLine_no_hint_last_line_witness :
  addLine three_lines ENil ["replace"; "x"; "=>"; "y"]
  = Some (asBlock three_lines 1 1 (newLine ["replace"; "a"; "=>"; "b"] false)
            "replace" ["a"; "=>"; "b"] ["x"; "=>"; "y"]).
Proof.
  apply (addLine_no_hint_last_line three_lines "replace" ["x"; "=>"; "y"]
           [SLine 0] [SLine 2] 1); [apply three_lines_tree|done..|].
  repeat constructor; by vm_compute.
Defined.

Lemma addLine_nil_pointer_hint_witness :
  addLine three_lines (EPLine None) ["replace"; "x"; "=>"; "y"]
  = Some (atEnd three_lines ["replace"; "x"; "=>"; "y"]).
Proof. apply addLine_nil_pointer_hint, three_lines_tree. Defined.

Lemma addLine_after_hint_of_other_type_witness :
  addLine three_lines (hintOf (SLine 1)) ["require"; "x"; "v1"]
  = Some (set_Stmt ([SLine 0] ++ SLine 1 :: SLine (length (f_lines three_lines)) :: [SLine 2])
            (set_lines (f_lines three_lines ++ [newLine ["require"; "x"; "v1"] false])
               three_lines),
          length (f_lines three_lines)).
Proof.
  apply addLine_after_hint_of_other_type; [apply three_lines_tree|done|done|by vm_compute].
Defined.

Lemma addLine_after_hint_in_block_witness :
  addLine with_block (EPLine (Some 1)) ["replace"; "x"; "=>"; "y"]
  = Some (set_blocks
            (<[0 := b_set_Line ([] ++ 1 :: length (f_lines with_block) :: [2; 3])
                      (mkBlock noComments zeroPos (mkLParen noComments zeroPos)
                               ["replace"] [1; 2; 3] (mkRParen noComments zeroPos))]>
               (f_blocks with_block))
            (set_lines (f_lines with_block ++ [newLine ["x"; "=>"; "y"] true]) with_block),
          length (f_lines with_block)).
Proof.
  apply (addLine_after_hint_in_block with_block "replace" ["x"; "=>"; "y"]
           [SLine 0] [SLine 4] 0); [apply with_block_tree|done..].
Defined.

Lemma addReplace_one_entry_for_old_witness :
  exists x1 rs1 r l ln,
    addReplace (H := asciiLib) with_block three_entries "c" "v1.0.0" "f" "v2.0.0"
    = Some (x1, rs1, None)
    /\ filter (fun r => isFor "c" "v1.0.0" r = true) rs1 = [r]
    /\ New r = mkVersion "f" "v2.0.0"
    /\ Syntax r = Some l /\ f_lines x1 !! l = Some ln
    /\ line_Token ln = (if line_InBlock ln
                        then tail (replaceTokens (H := asciiLib) "c" "v1.0.0" "f" "v2.0.0")
                        else replaceTokens (H := asciiLib) "c" "v1.0.0" "f" "v2.0.0").
Proof.
  apply addReplace_one_entry_for_old; [apply with_block_manifest|done].
Defined.

Lemma addReplace_idempotent_witness :
  exists x1 rs1,
    addReplace (H := asciiLib) three_lines one_entry "a" "v1.0.0" "f" "v2.0.0"
    = Some (x1, rs1, None)
    /\ addReplace (H := asciiLib) x1 rs1 "a" "v1.0.0" "f" "v2.0.0" = Some (x1, rs1, None).
Proof.
  apply addReplace_idempotent; [apply three_lines_manifest|done].
Defined.

Lemma addReplace_keeps_other_entries_witness :
  exists x1 rs1,
    addReplace (H := asciiLib) three_lines one_entry "a" "v1.0.0" "f" "v2.0.0"
    = Some (x1, rs1, None)
    /\ forall i r,
         one_entry !! i = Some r -> isFor "a" "v1.0.0" r = false ->
         rs1 !! i = Some r
         /\ forall l ln,
              Syntax r = Some l -> f_lines three_lines !! l = Some ln ->
              f_lines x1 !! l = Some ln
              \/ exists tail,
                   line_Token ln = "replace" :: tail
                   /\ f_lines x1 !! l
                      = Some (line_set_Token tail (line_set_InBlock true ln)).
Proof.
  apply addReplace_keeps_other_entries; [apply three_lines_manifest|done].
Defined.

Lemma addReplace_clears_further_entries_witness :
  exists x1 rs1,
    addReplace (H := asciiLib) with_block three_entries "c" "v1.0.0" "f" "v2.0.0"
    = Some (x1, rs1, None)
    /\ forall i j r r',
         i < j -> three_entries !! i = Some r -> three_entries !! j = Some r' ->
         isFor "c" "v1.0.0" r = true -> isFor "c" "v1.0.0" r' = true ->
         rs1 !! j = Some zeroReplace
         /\ forall l, Syntax r' = Some l ->
                     exists ln, f_lines x1 !! l = Some ln /\ cleared ln.
Proof.
  apply addReplace_clears_further_entries; [apply with_block_manifest|done].
Defined.

Lemma addReplace_on_new_path_witness :
  addReplace (H := asciiLib) three_lines one_entry "q" "bogus" "n" ""
  = Some (fst (atEnd three_lines (replaceTokens (H := asciiLib) "q" "bogus" "n" "")),
          one_entry ++ [mkReplace (mkVersion "q" "bogus") (mkVersion "n" "")
                                  (Some (length (f_lines three_lines)))],
          None).
Proof.
  apply addReplace_on_new_path; [apply three_lines_tree|].
  repeat constructor; by vm_compute.
Defined.


Lemma addReplace_keeps_manifest_witness :
  exists x1 rs1,
    addReplace (H := asciiLib) with_block three_entries "c" "v1.0.0" "f" "v2.0.0"
    = Some (x1, rs1, None)
    /\ manifest x1 rs1.
Proof. apply addReplace_keeps_manifest; [apply with_block_manifest|done]. Defined.

Lemma addReplace_joins_entry_of_path_witness :
  addReplace (H := asciiLib) three_lines
    ([] ++ mkReplace (mkVersion "a" "") (mkVersion "b" "") (Some 1) :: [])
    "a" "v1.0.0" "f" "v2.0.0"
  = Some (fst (asBlock three_lines (length [SLine 0]) 1
                 (newLine ["replace"; "a"; "=>"; "b"] false) "replace" ["a"; "=>"; "b"]
                 (List.tail (replaceTokens (H := asciiLib) "a" "v1.0.0" "f" "v2.0.0"))),
          ([] ++ mkReplace (mkVersion "a" "") (mkVersion "b" "") (Some 1) :: [])
          ++ [mkReplace (mkVersion "a" "v1.0.0") (mkVersion "f" "v2.0.0")
                        (Some (length (f_lines three_lines)))],
          None).
Proof.
  by apply (addReplace_joins_entry_of_path (H := asciiLib) three_lines [] []
              (mkReplace (mkVersion "a" "") (mkVersion "b" "") (Some 1))
              "a" "v1.0.0" "f" "v2.0.0" [SLine 0] [SLine 2] 1);
    try apply three_lines_tree.
Defined.

End EditExamples.

(** ** [mod why] on an example *)

Module WhyExamples.
Import Why WhyFacts.

(** A directory with a source file, a test file, a file test and a
    text file. *)
Definition dir_entries (pkgPath : string) : goerr + list string :=
  inr ["a.gno"; "b_test.gno"; "c_filetest.gno"; "d.txt"].

Definition join (dir name : string) : string := dir +:+ "/" +:+ name.

(** The imports of its files; the file test and the text file cannot
    be read. *)
Definition file_imports (path : string) : goerr + list string :=
  if String.eqb path "p/a.gno" then inr ["std"; "fmt"]
  else if String.eqb path "p/b_test.gno" then inr ["std"]
  else inl (errors_New "cannot read").

(** The same, but for the source file, which cannot be read. *)
Definition broken_imports (path : string) : goerr + list string :=
  if String.eqb path "p/b_test.gno" then inr ["std"]
  else inl (errors_New "cannot read").

(** The same, but for the file test and the text file, which can. *)
Definition all_imports (path : string) : goerr + list string :=
  if String.eqb path "p/a.gno" then inr ["std"; "fmt"]
  else if String.eqb path "p/b_test.gno" then inr ["std"]
  else inr ["os"].

Definition example_map : gmap string (list string) :=
  <["std" := ["a.gno"; "b_test.gno"]]> (<["fmt" := ["a.gno"]]> ∅).

Lemma formatModWhyStanzas_not_needed_witness :
  formatModWhyStanzas "gno.land/p/m" ["strings"] example_map
  = "# " +:+ "strings" +:+ lf
    +:+ "(module " +:+ "gno.land/p/m" +:+ " does not need package " +:+ "strings" +:+ ")"
    +:+ lf.
Proof. by apply formatModWhyStanzas_not_needed. Defined.

Lemma getImportToFilesMap_holds_witness :
  example_map !! "std"
  = match files_of (pairs_of join file_imports "p"
                      ["a.gno"; "b_test.gno"; "c_filetest.gno"; "d.txt"]) "std" with
    | [] => None
    | files => Some files
    end.
Proof.
  apply (getImportToFilesMap_holds dir_entries join file_imports "p"); [done|].
  by vm_compute.
Defined.

Lemma getImportToFilesMap_skips_witness :
  getImportToFilesMap dir_entries join file_imports "p"
  = getImportToFilesMap dir_entries join all_imports "p".
Proof.
  apply (getImportToFilesMap_skips dir_entries join file_imports all_imports "p"
           ["a.gno"; "b_test.gno"; "c_filetest.gno"; "d.txt"]); [done|].
  intros f Hf Hs.
  repeat (apply elem_of_cons in Hf as [->|Hf]); [..|by apply elem_of_nil in Hf];
    first [by vm_compute|by vm_compute in Hs].
Defined.

Lemma getImportToFilesMap_first_error_witness :
  getImportToFilesMap (fun _ => inr ([] ++ "a.gno" :: ["b_test.gno"; "c_filetest.gno"]))
    join broken_imports "p"
  = inl (errors_New "cannot read").
Proof.
  by apply (getImportToFilesMap_first_error _ join broken_imports "p" []
              ["b_test.gno"; "c_filetest.gno"] "a.gno").
Defined.

End WhyExamples.

(** ** [parseReplace] on an example *)

Module DirectiveExamples.
Import Edit Directive DirectiveFacts QuoteFacts.

(** A library for the examples: every path but the empty one is a
    module path without major-version suffix, every version agrees
    with it, and a directory path begins with a dot or a slash. *)
Definition simpleMod : ModLib := {|
  module_SplitPathVersion := fun p => if String.eqb p "" then None else Some (p, "");
  module_CheckPathMajor := fun _ _ => None;
  modfile_IsDirectoryPath := fun p =>
    HasPrefix (bytes p) (bytes ".") || HasPrefix (bytes p) (bytes "/");
  filepath_Separator := "/"%char
|}.

Definition replace_line : list Line := [newLine ["replace"; "a"; "=>"; "./b"] false].

Lemma parseReplace_directory_or_version_witness :
  Vers (New (mkReplace (mkVersion "a" "") (mkVersion "./b" "") (Some 0))) = ""
  <-> modfile_IsDirectoryPath (ModLib := simpleMod)
        (Path (New (mkReplace (mkVersion "a" "") (mkVersion "./b" "") (Some 0)))) = true.
Proof.
  by apply (parseReplace_directory_or_version (H := asciiLib) (H0 := simpleMod)
              "gno.mod" replace_line (Some 0) "replace" ["a"; "=>"; "./b"]
              ["a"; "=>"; "./b"]).
Defined.

Lemma parseReplace_arrow_witness :
  Syntax (mkReplace (mkVersion "a" "v1.0.0") (mkVersion "b" "v1.2.3") (Some 0)) = Some 0
  /\ length ["a"; "v1.0.0"; "=>"; "b"; "v1.2.3"] = length ["a"; "v1.0.0"; "=>"; "b"; "v1.2.3"]
  /\ ((["a"; "v1.0.0"; "=>"; "b"; "v1.2.3"] !! 1 = Some "=>"
       /\ Vers (Old (mkReplace (mkVersion "a" "v1.0.0") (mkVersion "b" "v1.2.3") (Some 0))) = ""
       /\ (length ["a"; "v1.0.0"; "=>"; "b"; "v1.2.3"] = 3
           \/ length ["a"; "v1.0.0"; "=>"; "b"; "v1.2.3"] = 4))
      \/ (["a"; "v1.0.0"; "=>"; "b"; "v1.2.3"] !! 1 <> Some "=>"
          /\ ["a"; "v1.0.0"; "=>"; "b"; "v1.2.3"] !! 2 = Some "=>"
          /\ Vers (Old (mkReplace (mkVersion "a" "v1.0.0") (mkVersion "b" "v1.2.3") (Some 0)))
             <> ""
          /\ (length ["a"; "v1.0.0"; "=>"; "b"; "v1.2.3"] = 4
              \/ length ["a"; "v1.0.0"; "=>"; "b"; "v1.2.3"] = 5))).
Proof.
  by apply (parseReplace_arrow (H := asciiLib) (H0 := simpleMod)
              "gno.mod" replace_line (Some 0) "replace").
Defined.

Lemma parseReplace_error_located_witness :
  Filename (mkModError "gno.mod" zeroPos "" ""
              (Errorf "replacement module directory path %q cannot have version"
                      [VStr "./b"])) = "gno.mod"
  /\ exists l ln,
       Some 0 = Some l /\ replace_line !! l = Some ln
       /\ Pos (mkModError "gno.mod" zeroPos "" ""
                  (Errorf "replacement module directory path %q cannot have version"
                          [VStr "./b"])) = line_Start ln.
Proof.
  by apply (parseReplace_error_located (H := asciiLib) (H0 := simpleMod)
              "gno.mod" replace_line (Some 0) "replace" ["a"; "=>"; "./b"; "v1.0.0"]
              ["a"; "=>"; "./b"; "v1.0.0"]).
Defined.

Lemma parseReplace_usage_witness :
  parseReplace (H := asciiLib) (H0 := simpleMod) "gno.mod" replace_line (Some 0) "replace"
    ["a"; "b"]
  = Some (["a"; "b"],
          inr (mkModError "gno.mod"
                 (line_Start (newLine ["replace"; "a"; "=>"; "./b"] false)) "" ""
                 (Errorf usage [VStr "replace"; VStr "replace"]))).
Proof. apply parseReplace_usage; [done|]. left. cbn. lia. Defined.

Lemma parseString_reads_AutoQuote_witness :
  parseString (H := asciiLib) (AutoQuote (H := asciiLib) "a b")
  = (AutoQuote (H := asciiLib) "a b", inl "a b").
Proof. apply parseString_reads_AutoQuote; by vm_compute. Defined.

End DirectiveExamples.

(** ** The parser on an example *)

Module ReaderExamples.
Import Reader Assign TokenFacts.

Definition sample_manifest : list ascii := bytes "// a manifest
module m

replace (
  a => b // first
  c v1.0.0 => d v1.2.0
)
require e v1.0.0
".

Lemma parse_lines_have_tokens_witness :
  exists f,
    parse (H := asciiLib) "gno.mod" sample_manifest = Some (Some f, [])
    /\ Forall (fun e => match e with
                        | ELine l => line_Token l <> [] /\ line_InBlock l = false
                        | ELineBlock b =>
                            blk_Token b <> []
                            /\ Forall (fun l => line_Token l <> [] /\ line_InBlock l = true)
                                      (blk_Line b)
                        | ECommentBlock _ => True
                        end) (fs_Stmt f).
Proof.
  eexists. split; [vm_compute; reflexivity|].
  apply (parse_lines_have_tokens (H := asciiLib) "gno.mod" sample_manifest _ []).
  vm_compute. reflexivity.
Defined.

End ReaderExamples.

(** ** [load] on an example *)

Module LoadExamples.
Import Load LoadFacts.

(** A walk that meets two gno files of [p] and then a directory that
    cannot be read. *)
Definition broken_walk (root : string) : list (string * (goerr + DirEntry)) :=
  [("p", inr (mkDirEntry "p" true)); ("p/a.gno", inr (mkDirEntry "a.gno" false));
   ("p/b.gno", inr (mkDirEntry "b.gno" false))]
  ++ ("p/q", inl (errors_New "permission denied")) :: [("p/r", inr (mkDirEntry "r" true))].

(** A file system with the directory [p], which holds a gno file, a
    hidden gno file, a text file and a directory, and with the files
    [main.gno] and [notes.txt]. *)
Definition stat (path : string) : goerr + DirEntry :=
  if String.eqb path "p" then inr (mkDirEntry "p" true)
  else if String.eqb path "main.gno" then inr (mkDirEntry "main.gno" false)
  else if String.eqb path "notes.txt" then inr (mkDirEntry "notes.txt" false)
  else inl (errors_New "no such file").

Definition read_dir (path : string) : goerr + list DirEntry :=
  inr [mkDirEntry ".x.gno" false; mkDirEntry "a.gno" false; mkDirEntry "b.txt" false;
       mkDirEntry "c.gno" true].

Definition is_abs (path : string) : bool := HasPrefix (bytes path) (bytes "/").

Definition join (dir name : string) : string := dir +:+ "/" +:+ name.

Lemma walkDirForGnoDirs_first_error_witness :
  snd (walkDirForGnoDirs (fun path => "p") broken_walk "p")
  = Some (Wrap "%s: walk dir: %w" ["p"] (Plain (errors_New "permission denied"))).
Proof.
  apply (walkDirForGnoDirs_first_error (fun path => "p") broken_walk "p"
           [("p", inr (mkDirEntry "p" true)); ("p/a.gno", inr (mkDirEntry "a.gno" false));
            ("p/b.gno", inr (mkDirEntry "b.gno" false))]
           [("p/r", inr (mkDirEntry "r" true))] "p/q"); [done|].
  repeat constructor; by eexists.
Defined.

Lemma GnoFilesFromArgs_paths_witness :
  ["./main.gno"; "./p/a.gno"]
  = ["main.gno"; "notes.txt"; "p"] ≫= files_of_arg stat read_dir is_abs "/"%char join.
Proof.
  by apply (GnoFilesFromArgs_paths stat read_dir is_abs "/"%char join).
Defined.

Lemma IsGnoFile_is_read_by_mod_why_witness :
  WhyFacts.skipped (Name (mkDirEntry "a_test.gno" false))
  = Reader.HasSuffix (bytes (Name (mkDirEntry "a_test.gno" false))) (bytes "_filetest.gno").
Proof. by apply IsGnoFile_is_read_by_mod_why. Defined.

End LoadExamples.
